(** * Noodlification of NFAs and the regex-to-NFA compiler of libmata

    A shallow embedding of [src/nfa/noodlify.cc] and [src/re2parser.cc],
    with the NFA primitives they call, and the properties the
    specification states about them. *)

From Stdlib Require Import NArith ZArith Lia.
From stdpp Require Import base tactics option list gmap strings.

(** ** The NFA data model *)

Abbreviation State := nat.
Abbreviation Symbol := nat.

(** [Trans]: a transition [(src, symb, tgt)], a value type. *)
Record Trans := mkTrans { src : State; symb : Symbol; tgt : State }.

#[global] Instance Trans_eq_dec : EqDecision Trans.
Proof. solve_decision. Defined.

(** [Nfa]: number of states, initial states, final states, transitions. *)
Record Nfa := mkNfa {
  num_of_states : nat;
  initialstates : list State;
  finalstates : list State;
  delta : list Trans
}.

#[global] Instance Nfa_eq_dec : EqDecision Nfa.
Proof. solve_decision. Defined.

#[global] Instance Nfa_inhabited : Inhabited Nfa := populate (mkNfa 0 [] [] []).

Definition set_initialstates (A : Nfa) (I : list State) : Nfa :=
  mkNfa (num_of_states A) I (finalstates A) (delta A).

Definition set_finalstates (A : Nfa) (F : list State) : Nfa :=
  mkNfa (num_of_states A) (initialstates A) F (delta A).

(** The data-model invariant: every state of [I], [F] and of a transition
    end point is below the number of states. *)
Definition wf_trans (n : nat) (t : Trans) : Prop := src t < n ∧ tgt t < n.

Definition wf_nfa (A : Nfa) : Prop :=
  Forall (λ s, s < num_of_states A) (initialstates A) ∧
  Forall (λ s, s < num_of_states A) (finalstates A) ∧
  Forall (wf_trans (num_of_states A)) (delta A).

#[global] Instance wf_trans_dec n t : Decision (wf_trans n t).
Proof. unfold wf_trans. apply _. Defined.

#[global] Instance wf_nfa_dec A : Decision (wf_nfa A).
Proof. unfold wf_nfa. apply _. Defined.

(** ** Runs and languages *)

Inductive path (d : list Trans) : State → list Symbol → State → Prop :=
  | path_nil q : path d q [] q
  | path_cons q a r w q' :
      mkTrans q a r ∈ d → path d r w q' → path d q (a :: w) q'.

Definition accepts (A : Nfa) (w : list Symbol) : Prop :=
  ∃ q q', q ∈ initialstates A ∧ q' ∈ finalstates A ∧ path (delta A) q w q'.

(** Concatenation of a sequence of languages. *)
Fixpoint lang_concat (Ls : list (list Symbol → Prop)) (w : list Symbol) : Prop :=
  match Ls with
  | [] => w = []
  | L :: Ls' => ∃ u v, w = u ++ v ∧ L u ∧ lang_concat Ls' v
  end.

(** An executable membership test: the set of states reached on a word. *)
Definition step (d : list Trans) (S : list State) (a : Symbol) : list State :=
  tgt <$> filter (λ t, src t ∈ S ∧ symb t = a) d.

Definition run (d : list Trans) (S : list State) (w : list Symbol) : list State :=
  foldl (step d) S w.

Definition acceptsb (A : Nfa) (w : list Symbol) : bool :=
  bool_decide (Exists (λ q, q ∈ finalstates A) (run (delta A) (initialstates A) w)).

(** ** NFA core operations

    [nfa.hh] and [nfa.cc] are not part of the sources at hand; the
    operations below follow the specification of the NFA core. *)

(** Modelled from the spec: the reachability search behind [is_lang_empty]
    and [trim] (their code is missing). A worklist search: a popped state
    that was not seen before is recorded and its successors are pushed. *)
Definition succs (d : list Trans) (q : State) : list State :=
  tgt <$> filter (λ t, src t = q) d.

Fixpoint reach_aux (d : list Trans) (fuel : nat) (visited worklist : list State)
  : list State :=
  match fuel with
  | 0 => visited
  | S fuel' =>
      match worklist with
      | [] => visited
      | q :: wl =>
          if decide (q ∈ visited) then reach_aux d fuel' visited wl
          else reach_aux d fuel' (q :: visited) (succs d q ++ wl)
      end
  end.

Definition reach (d : list Trans) (S : list State) : list State :=
  reach_aux d (length S + length d) [] S.

(** Modelled from the spec: [is_lang_empty] (code missing), true iff no final
    state is reachable from an initial state; every symbol counts, epsilon
    is just another symbol. *)
Definition is_lang_empty (A : Nfa) : bool :=
  bool_decide (Forall (λ q, q ∉ finalstates A) (reach (delta A) (initialstates A))).

(** Modelled from the spec: [revert] (code missing) swaps [I] and [F] and
    reverses every transition. *)
Definition revert_trans (t : Trans) : Trans := mkTrans (tgt t) (symb t) (src t).

Definition revert (A : Nfa) : Nfa :=
  mkNfa (num_of_states A) (finalstates A) (initialstates A)
        (revert_trans <$> delta A).

(** Renumbering of the kept states to [0, n'), in ascending order. *)
Fixpoint index_of (s : State) (l : list State) : nat :=
  match l with
  | [] => 0
  | x :: l' => if decide (x = s) then 0 else S (index_of s l')
  end.

Definition rename_trans (f : State → State) (t : Trans) : Trans :=
  mkTrans (f (src t)) (symb t) (f (tgt t)).

Definition restrict (keep : list State) (A : Nfa) : Nfa :=
  let ren := λ s, index_of s keep in
  mkNfa (length keep)
        (ren <$> filter (λ s, s ∈ keep) (initialstates A))
        (ren <$> filter (λ s, s ∈ keep) (finalstates A))
        (rename_trans ren <$>
           filter (λ t, src t ∈ keep ∧ tgt t ∈ keep) (delta A)).

(** Modelled from the spec: [trim] (code missing) removes the states that are
    on no path from [I] to [F] and renumbers the rest to [0, n'). *)
Definition useful_states (A : Nfa) : list State :=
  let fw := reach (delta A) (initialstates A) in
  let bw := reach (revert_trans <$> delta A) (finalstates A) in
  filter (λ s, s ∈ fw ∧ s ∈ bw) (seq 0 (num_of_states A)).

Definition trim (A : Nfa) : Nfa := restrict (useful_states A) A.

(** Modelled from the spec: [unify_initial] (code missing) introduces one
    fresh state and makes it the only initial state. The data model has no
    epsilon constant and the pipeline picks its epsilon only after this step,
    so the epsilon-edges from the fresh state to the old initial states are
    given closed under epsilon: the fresh state gets a copy of every
    transition that leaves an old initial state, and is final when an old
    initial state is. *)
Definition unify_initial (A : Nfa) : Nfa :=
  let s := num_of_states A in
  mkNfa (S (num_of_states A)) [s]
        (if decide (Exists (λ q, q ∈ finalstates A) (initialstates A))
         then finalstates A ++ [s] else finalstates A)
        (delta A ++
           ((λ t, mkTrans s (symb t) (tgt t)) <$>
              filter (λ t, src t ∈ initialstates A) (delta A))).

(** Modelled from the spec: [unify_final] (code missing), the dual of
    [unify_initial]. *)
Definition unify_final (A : Nfa) : Nfa :=
  let s := num_of_states A in
  mkNfa (S (num_of_states A))
        (if decide (Exists (λ q, q ∈ initialstates A) (finalstates A))
         then initialstates A ++ [s] else initialstates A)
        [s]
        (delta A ++
           ((λ t, mkTrans (src t) (symb t) s) <$>
              filter (λ t, tgt t ∈ finalstates A) (delta A))).

(** ** Alphabet *)

(** Modelled from the spec: the enumerated alphabet (code missing) collects
    the symbols of the automata it is built from; its next value is strictly
    greater than every symbol it has seen. *)
Definition symbols_of (A : Nfa) : list Symbol := symb <$> delta A.

Definition from_nfas (auts : list Nfa) : list Symbol :=
  auts ≫= symbols_of.

Definition add_symbols_from (alphabet : list Symbol) (A : Nfa) : list Symbol :=
  alphabet ++ symbols_of A.

Definition get_next_value (alphabet : list Symbol) : Symbol :=
  foldr (λ a acc, max (S a) acc) 0 alphabet.

(** ** Epsilon-aware compositions *)

Definition shift_trans (k : nat) (t : Trans) : Trans :=
  mkTrans (src t + k) (symb t) (tgt t + k).

(** Modelled from the spec: [concatenate_over_epsilon] (code missing). The
    states of [B] are shifted by [|A|]; every final state of [A] gets an
    epsilon-transition to every initial state of [B]. *)
Definition concatenate_over_epsilon (A B : Nfa) (epsilon : Symbol) : Nfa :=
  let n := num_of_states A in
  mkNfa (n + num_of_states B)
        (initialstates A)
        ((λ s, s + n) <$> finalstates B)
        (delta A ++ (shift_trans n <$> delta B) ++
           (a ← finalstates A; b ← initialstates B; [mkTrans a epsilon (b + n)])).

(** Modelled from the spec: [intersection_over_epsilon] (code missing). The
    pair [(p, q)] is the state [p * |B| + q]; a symbol other than epsilon
    moves both components, epsilon moves one and leaves the other. Only the
    pairs reachable from the initial pairs are materialized. *)
Definition pair_state (nB : nat) (p q : State) : State := p * nB + q.

Definition product_delta (A B : Nfa) (epsilon : Symbol) : list Trans :=
  let nA := num_of_states A in
  let nB := num_of_states B in
  (tA ← filter (λ t, symb t ≠ epsilon) (delta A);
   tB ← filter (λ t, symb t = symb tA) (delta B);
   [mkTrans (pair_state nB (src tA) (src tB)) (symb tA)
            (pair_state nB (tgt tA) (tgt tB))]) ++
  (tA ← filter (λ t, symb t = epsilon) (delta A);
   q ← seq 0 nB;
   [mkTrans (pair_state nB (src tA) q) epsilon (pair_state nB (tgt tA) q)]) ++
  (tB ← filter (λ t, symb t = epsilon) (delta B);
   p ← seq 0 nA;
   [mkTrans (pair_state nB p (src tB)) epsilon (pair_state nB p (tgt tB))]).

Definition full_product (A B : Nfa) (epsilon : Symbol) : Nfa :=
  let nB := num_of_states B in
  mkNfa (num_of_states A * nB)
        (p ← initialstates A; q ← initialstates B; [pair_state nB p q])
        (p ← finalstates A; q ← finalstates B; [pair_state nB p q])
        (product_delta A B epsilon).

Definition reachable_states (A : Nfa) : list State :=
  let fw := reach (delta A) (initialstates A) in
  filter (λ s, s ∈ fw) (seq 0 (num_of_states A)).

Definition intersection_over_epsilon (A B : Nfa) (epsilon : Symbol) : Nfa :=
  let P := full_product A B epsilon in
  restrict (reachable_states P) P.

(** ** Segmentation *)

(** Modelled from the spec: [Segmentation] (code missing). The depth of an
    epsilon-transition is the number of epsilon-transitions on a shortest
    path from an initial state to its source. [layer] holds the states of
    the current depth, [visited] those of the smaller depths. *)
Definition non_epsilon_delta (A : Nfa) (epsilon : Symbol) : list Trans :=
  filter (λ t, symb t ≠ epsilon) (delta A).

Fixpoint compute_epsilon_depths (A : Nfa) (epsilon : Symbol) (fuel : nat)
    (visited layer : list State) : list (list Trans) :=
  match fuel with
  | 0 => []
  | S fuel' =>
      match filter (λ t, symb t = epsilon ∧ src t ∈ layer) (delta A) with
      | [] => []
      | e :: es =>
          let visited' := layer ++ visited in
          let next := filter (λ s, s ∉ visited')
                        (reach (non_epsilon_delta A epsilon) (tgt <$> e :: es)) in
          (e :: es) :: compute_epsilon_depths A epsilon fuel' visited' next
      end
  end.

Definition epsilon_depth_list (A : Nfa) (epsilon : Symbol) : list (list Trans) :=
  compute_epsilon_depths A epsilon (S (length (delta A))) []
    (reach (non_epsilon_delta A epsilon) (initialstates A)).

(** The segment of depth [i] out of [k] depths, untrimmed: the automaton
    without its epsilon-transitions; its initial states are the targets of
    the epsilon-transitions of depth [i - 1], its final states the sources of
    those of depth [i]. The first segment keeps the initial states of the
    automaton, the last one its final states. *)
Definition segment_at (A : Nfa) (epsilon : Symbol) (depths : list (list Trans))
    (i : nat) : Nfa :=
  mkNfa (num_of_states A)
        (match i with
         | 0 => initialstates A
         | S j => remove_dups (tgt <$> default [] (depths !! j))
         end)
        (match depths !! i with
         | Some E => remove_dups (src <$> E)
         | None => finalstates A
         end)
        (non_epsilon_delta A epsilon).

Record Segmentation := mkSegmentation {
  get_epsilon_depths : gmap nat (list Trans);
  get_untrimmed_segments : list Nfa
}.

Definition segmentation (A : Nfa) (epsilon : Symbol) : Segmentation :=
  let depths := epsilon_depth_list A epsilon in
  mkSegmentation (map_seq 0 depths)
                 (segment_at A epsilon depths <$> seq 0 (S (length depths))).

(** ** Noodlification ([src/nfa/noodlify.cc]) *)

Abbreviation Noodle := (list Nfa).
Abbreviation NoodleSequence := (list (list Nfa)).

(** [size_t] arithmetic wraps around at [2^64]. *)
Definition size_t_modulus : N := 2 ^ 64.

(** [get_num_of_permutations]: the product of the numbers of transitions of
    all depths, in [size_t]. *)
Definition get_num_of_permutations (epsilon_depths : gmap nat (list Trans)) : N :=
  map_fold (λ _ segment num_of_permutations,
              (num_of_permutations * N.of_nat (length segment))
                mod size_t_modulus)%N
           1%N epsilon_depths.

(** The memo [segments_one_initial_final], keyed by a pair of states. *)
Definition keep_segment (segment : Nfa) (include_empty : bool) : bool :=
  bool_decide (0 < num_of_states segment) || include_empty.

Definition memo_first (unused_state : State) (include_empty : bool) (segment : Nfa)
    (memo : gmap (State * State) Nfa) : gmap (State * State) Nfa :=
  foldl (λ memo final_state,
           let segment_one_final := trim (set_finalstates segment [final_state]) in
           if keep_segment segment_one_final include_empty
           then <[(unused_state, final_state) := segment_one_final]> memo
           else memo)
        memo (finalstates segment).

Definition memo_last (unused_state : State) (include_empty : bool) (segment : Nfa)
    (memo : gmap (State * State) Nfa) : gmap (State * State) Nfa :=
  foldl (λ memo init_state,
           let segment_one_init := trim (set_initialstates segment [init_state]) in
           if keep_segment segment_one_init include_empty
           then <[(init_state, unused_state) := segment_one_init]> memo
           else memo)
        memo (initialstates segment).

Definition memo_middle (include_empty : bool) (segment : Nfa)
    (memo : gmap (State * State) Nfa) : gmap (State * State) Nfa :=
  foldl (λ memo init_state,
           foldl (λ memo final_state,
                    let segment_one_init_final :=
                      trim (set_finalstates
                              (set_initialstates segment [init_state])
                              [final_state]) in
                    if keep_segment segment_one_init_final include_empty
                    then <[(init_state, final_state) := segment_one_init_final]> memo
                    else memo)
                 memo (finalstates segment))
        memo (initialstates segment).

(** The loop over the segments; [i] is the position of the head of
    [segments] and [size] the number of all segments. *)
Fixpoint build_memo (unused_state : State) (include_empty : bool) (size i : nat)
    (segments : list Nfa) (memo : gmap (State * State) Nfa)
  : gmap (State * State) Nfa :=
  match segments with
  | [] => memo
  | segment :: rest =>
      build_memo unused_state include_empty size (S i) rest
        (if decide (i = 0) then memo_first unused_state include_empty segment memo
         else if decide (S i = size)
              then memo_last unused_state include_empty segment memo
              else memo_middle include_empty segment memo)
  end.

(** The inner loop over the depths: the mixed-radix digits of [temp] pick one
    transition per depth. [None] is the exception of [at] (or an index out of
    the vector). *)
Fixpoint decode_index (epsilon_depths : gmap nat (list Trans)) (depth count : nat)
    (temp : N) : option (list Trans) :=
  match count with
  | 0 => Some []
  | S count' =>
      trans_at_cur_depth ← epsilon_depths !! depth;
      let num_of_trans_at_cur_depth := N.of_nat (length trans_at_cur_depth) in
      let computed_index := (temp mod num_of_trans_at_cur_depth)%N in
      chosen ← trans_at_cur_depth !! N.to_nat computed_index;
      rest ← decode_index epsilon_depths (S depth) count'
                (temp / num_of_trans_at_cur_depth)%N;
      Some (chosen :: rest)
  end.

(** The segments between two consecutive chosen transitions; [None] when one
    of them is not in the memo. *)
Fixpoint middle_segments (memo : gmap (State * State) Nfa)
    (epsilon_noodle : list Trans) : option Noodle :=
  match epsilon_noodle with
  | e :: (e' :: _) as rest =>
      segment ← memo !! (tgt e, src e');
      noodle ← middle_segments memo rest;
      Some (segment :: noodle)
  | _ => Some []
  end.

(** The noodle of one assignment; the inner [None] is the [continue] of the
    loop, the outer one an access out of the vector. *)
Definition noodle_of (memo : gmap (State * State) Nfa) (unused_state : State)
    (epsilon_noodle : list Trans) : option (option Noodle) :=
  first_trans ← head epsilon_noodle;
  last_trans ← last epsilon_noodle;
  Some (first_segment ← memo !! (unused_state, src first_trans);
        middle ← middle_segments memo epsilon_noodle;
        last_segment ← memo !! (tgt last_trans, unused_state);
        Some (first_segment :: middle ++ [last_segment])).

Definition indices (num_of_permutations : N) : list N :=
  N.of_nat <$> seq 0 (N.to_nat num_of_permutations).

Definition noodlify (aut : Nfa) (epsilon : Symbol) (include_empty : bool)
  : option NoodleSequence :=
  let seg := segmentation aut epsilon in
  let segments := get_untrimmed_segments seg in
  match segments with
  | [segment0] =>
      let segment := trim segment0 in
      if keep_segment segment include_empty then Some [[segment]] else Some []
  | _ =>
      let unused_state := num_of_states aut in
      let memo := build_memo unused_state include_empty (length segments) 0
                    segments ∅ in
      let epsilon_depths := get_epsilon_depths seg in
      let num_of_permutations := get_num_of_permutations epsilon_depths in
      let epsilon_depths_size := size epsilon_depths in
      noodles ← mapM (λ index,
                        decode_index epsilon_depths 0 epsilon_depths_size index
                          ≫= noodle_of memo unused_state)
                     (indices num_of_permutations);
      Some (omap id noodles)
  end.

(** ** The equation pipeline ([noodlify_for_equation]) *)

(** The automata alive at a call. A sequence of references
    ([AutRefSequence]) or of pointers ([AutPtrSequence]) is a list of
    positions in this store, so that one automaton may occur several times;
    [right_automaton] is a reference as well. *)
Abbreviation Store := (list Nfa).

Abbreviation StringDict := (gmap string string).

Section Pipeline.

(** [reduce] is specified by its contract alone (a language-equivalent
    automaton with no more states); it stays a parameter. *)
Variable reduce : Nfa → Nfa.

(** The loop that unifies the initial and the final states of every
    automaton of the left side, in place. *)
Definition unify_left (st : Store) (left_automata : list nat) : Store :=
  foldl (λ st r, alter (λ A, unify_final (unify_initial A)) r st)
        st left_automata.

(** The reductions selected by the value of the key [reduce]. *)
Definition apply_reduce (reduce_value : string) (product : Nfa) : Nfa :=
  let product :=
    if decide (reduce_value = "forward" ∨ reduce_value = "bidirectional")
    then reduce product else product in
  if decide (reduce_value = "backward" ∨ reduce_value = "bidirectional")
  then revert (reduce (revert product)) else product.

(** The automaton of the left side, concatenated over epsilon. *)
Definition concatenated_left_side (st : Store) (first : nat) (rest : list nat)
    (epsilon : Symbol) : Nfa :=
  foldl (λ acc r, concatenate_over_epsilon acc (st !!! r) epsilon)
        (st !!! first) rest.

Definition fresh_epsilon (st : Store) (left_automata : list nat)
    (right_automaton : nat) : Symbol :=
  let alphabet := from_nfas ((λ r, st !!! r) <$> left_automata) in
  let alphabet := add_symbols_from alphabet (st !!! right_automaton) in
  get_next_value alphabet.

Definition product_pres_eps_trans (st : Store) (first : nat) (rest : list nat)
    (right_automaton : nat) (epsilon : Symbol) : Nfa :=
  trim (intersection_over_epsilon
          (concatenated_left_side st first rest epsilon)
          (st !!! right_automaton) epsilon).

(** The overload on [AutRefSequence]. It returns the store after the call
    and the noodles ([None] for an exception). *)
Definition noodlify_for_equation_ref (st : Store) (left_automata : list nat)
    (right_automaton : nat) (include_empty : bool) (params : StringDict)
  : Store * option NoodleSequence :=
  let st := unify_left st left_automata in
  match left_automata with
  | [] => (st, Some [])
  | first :: rest =>
      if is_lang_empty (st !!! right_automaton) then (st, Some [])
      else
        let epsilon := fresh_epsilon st left_automata right_automaton in
        let product := product_pres_eps_trans st first rest right_automaton epsilon in
        if is_lang_empty product then (st, Some [])
        else
          let product :=
            match params !! "reduce" with
            | Some reduce_value => apply_reduce reduce_value product
            | None => product
            end in
          (st, noodlify product epsilon include_empty)
  end.

(** The overload on [AutPtrSequence]. *)
Definition noodlify_for_equation_ptr (st : Store) (left_automata : list nat)
    (right_automaton : nat) (include_empty : bool) (params : StringDict)
  : Store * option NoodleSequence :=
  let reduce_value := default "" (params !! "reduce") in
  let st :=
    if decide (reduce_value ≠ "")
    then
      if decide (reduce_value = "forward" ∨ reduce_value = "backward"
                 ∨ reduce_value = "bidirectional")
      then unify_left st left_automata else st
    else st in
  match left_automata with
  | [] => (st, Some [])
  | first :: rest =>
      if is_lang_empty (st !!! right_automaton) then (st, Some [])
      else
        let epsilon := fresh_epsilon st left_automata right_automaton in
        let product := product_pres_eps_trans st first rest right_automaton epsilon in
        if is_lang_empty product then (st, Some [])
        else
          let product :=
            if decide (reduce_value ≠ "")
            then apply_reduce reduce_value product else product in
          (st, noodlify product epsilon include_empty)
  end.

(** The two public overloads, told apart by the type of the left side. *)
Inductive LeftSide := AutRefSequence | AutPtrSequence.

Definition noodlify_for_equation (kind : LeftSide) (st : Store)
    (left_automata : list nat) (right_automaton : nat) (include_empty : bool)
    (params : StringDict) : Store * option NoodleSequence :=
  match kind with
  | AutRefSequence =>
      noodlify_for_equation_ref st left_automata right_automaton include_empty params
  | AutPtrSequence =>
      noodlify_for_equation_ptr st left_automata right_automaton include_empty params
  end.

(** The steps that both overloads share once the left side is prepared:
    the two early returns, the fresh epsilon, the trimmed product, the
    optional reductions and the noodlification. *)
Definition pipeline_after_unify (st : Store) (left_automata : list nat)
    (right_automaton : nat) (include_empty : bool) (reduce_value : option string)
  : option NoodleSequence :=
  match left_automata with
  | [] => Some []
  | first :: rest =>
      if is_lang_empty (st !!! right_automaton) then Some []
      else
        let epsilon := fresh_epsilon st left_automata right_automaton in
        let product := product_pres_eps_trans st first rest right_automaton epsilon in
        if is_lang_empty product then Some []
        else noodlify (from_option (λ v, apply_reduce v product) product reduce_value)
                      epsilon include_empty
  end.

(** The reductions as the specification words them: [forward] gives
    [reduce(P)], [backward] gives [revert(reduce(revert(P)))],
    [bidirectional] both in that order, anything else leaves [P]. *)
Definition reduce_by_spec (reduce_value : option string) (P : Nfa) : Nfa :=
  match reduce_value with
  | Some v =>
      if decide (v = "forward") then reduce P
      else if decide (v = "backward") then revert (reduce (revert P))
      else if decide (v = "bidirectional")
           then revert (reduce (revert (reduce P)))
           else P
  | None => P
  end.

(** The values of the key [reduce] that the pipeline recognizes. *)
Definition recognized_reduce (params : StringDict) : Prop :=
  params !! "reduce" = Some "forward" ∨ params !! "reduce" = Some "backward"
  ∨ params !! "reduce" = Some "bidirectional".

End Pipeline.

(** ** NFA mutators used by the regex compiler *)

(** Modelled from the spec: [add_new_state] (code missing) allocates a fresh
    state and returns its id. *)
Definition add_new_state (A : Nfa) : Nfa * State :=
  (mkNfa (S (num_of_states A)) (initialstates A) (finalstates A) (delta A),
   num_of_states A).

(** Modelled from the spec: [add_trans] (code missing) inserts a transition
    once; a state out of range is refused ([InvalidState], here [None]). *)
Definition add_trans (A : Nfa) (s : State) (a : Symbol) (t : State) : option Nfa :=
  if decide (s < num_of_states A ∧ t < num_of_states A)
  then Some (mkNfa (num_of_states A) (initialstates A) (finalstates A)
               (if decide (mkTrans s a t ∈ delta A) then delta A
                else delta A ++ [mkTrans s a t]))
  else None.

(** Modelled from the spec: [make_initial] and [make_final] (code missing)
    insert a state into the set; a state out of range is refused. *)
Definition make_initial (A : Nfa) (s : State) : option Nfa :=
  if decide (s < num_of_states A)
  then Some (set_initialstates A
               (if decide (s ∈ initialstates A) then initialstates A
                else initialstates A ++ [s]))
  else None.

Definition make_final (A : Nfa) (s : State) : option Nfa :=
  if decide (s < num_of_states A)
  then Some (set_finalstates A
               (if decide (s ∈ finalstates A) then finalstates A
                else finalstates A ++ [s]))
  else None.

(** Modelled from the spec: [get_transitions_from_state] (code missing), the
    outgoing transitions of a state. *)
Definition get_transitions_from_state (A : Nfa) (s : State) : list Trans :=
  filter (λ t, src t = s) (delta A).

(** ** The regex program

    The program comes from the regex library RE2; only what the compiler
    reads of it is kept: per instruction the opcode, [out], [last], the byte
    range and the empty-width mask. *)
Module re2.

Inductive InstOp :=
  | kInstAlt | kInstAltMatch | kInstByteRange | kInstCapture
  | kInstEmptyWidth | kInstMatch | kInstNop | kInstFail.

#[global] Instance InstOp_eq_dec : EqDecision InstOp.
Proof. solve_decision. Defined.

Record Inst := mkInst {
  opcode : InstOp;
  out : nat;
  last : bool;
  lo : nat;
  hi : nat;
  empty : Z
}.

Record Prog := mkProg { start : nat; insts : list Inst }.

Definition size (prog : Prog) : nat := length (insts prog).

Definition inst (prog : Prog) (pc : nat) : option Inst := insts prog !! pc.

(** The bit of each empty-width assertion in the mask of an instruction. *)
Record EmptyOp := mkEmptyOp {
  kEmptyBeginLine : Z;
  kEmptyEndLine : Z;
  kEmptyBeginText : Z;
  kEmptyEndText : Z;
  kEmptyWordBoundary : Z;
  kEmptyNonWordBoundary : Z
}.

End re2.

(** ** The regex compiler ([src/re2parser.cc]) *)

(** A loop whose body may fail. *)
Fixpoint foldlM {A B : Type} (f : B → A → option B) (b : B) (l : list A)
  : option B :=
  match l with
  | [] => Some b
  | x :: l' => b' ← f b x; foldlM f b' l'
  end.

(** [v[i] = x] on a vector; an index out of the vector is an error. *)
Definition vec_set {A : Type} (v : list A) (i : nat) (x : A) : option (list A) :=
  if decide (i < length v) then Some (<[i := x]> v) else None.

Record StateCache := mkStateCache {
  state_mapping : list (list State);
  is_final_state : list bool;
  is_state_nop_or_cap : list bool;
  is_last : list bool;
  has_state_incoming_edge : list bool
}.

Definition set_state_mapping (c : StateCache) (v : list (list State)) :=
  mkStateCache v (is_final_state c) (is_state_nop_or_cap c) (is_last c)
               (has_state_incoming_edge c).
Definition set_is_final_state (c : StateCache) (v : list bool) :=
  mkStateCache (state_mapping c) v (is_state_nop_or_cap c) (is_last c)
               (has_state_incoming_edge c).
Definition set_is_state_nop_or_cap (c : StateCache) (v : list bool) :=
  mkStateCache (state_mapping c) (is_final_state c) v (is_last c)
               (has_state_incoming_edge c).
Definition set_is_last (c : StateCache) (v : list bool) :=
  mkStateCache (state_mapping c) (is_final_state c) (is_state_nop_or_cap c) v
               (has_state_incoming_edge c).
Definition set_has_state_incoming_edge (c : StateCache) (v : list bool) :=
  mkStateCache (state_mapping c) (is_final_state c) (is_state_nop_or_cap c)
               (is_last c) v.

(** The members of [RegexParser] the conversion writes. *)
Record RegexParser := mkRegexParser {
  state_cache : StateCache;
  outgoingEdges : list (list (Symbol * State))
}.

Definition is_nop_or_capture (op : re2.InstOp) : bool :=
  bool_decide (op = re2.kInstCapture ∨ op = re2.kInstNop).

(** [get_mapped_states]: the states at the end of the chains of epsilon
    steps that start in [state]. [statesToCheck] is a stack, its top is the
    head of the list. The loop has no bound of its own; [fuel] bounds the
    number of iterations, [None] also stands for its exhaustion. *)
Fixpoint get_mapped_states_loop (prog : re2.Prog) (fuel : nat)
    (is_last : list bool) (mappedStates statesToCheck checkedStates : list State)
  : option (list State * list bool) :=
  match statesToCheck with
  | [] => Some (mappedStates, is_last)
  | state :: statesToCheck =>
      match fuel with
      | 0 => None
      | S fuel' =>
          inst ← re2.inst prog state;
          let checkedStates := state :: checkedStates in
          if negb (re2.last inst) then
            nextInst ← re2.inst prog (state + 1);
            is_last ← (if re2.last nextInst
                        then vec_set is_last (state + 1) true
                        else Some is_last);
            let statesToCheck :=
              if decide (state + 1 ∈ checkedStates) then statesToCheck
              else (state + 1) :: statesToCheck in
            outInst ← re2.inst prog (re2.out inst);
            if is_nop_or_capture (re2.opcode outInst) then
              get_mapped_states_loop prog fuel' is_last mappedStates
                (if decide (re2.out inst ∈ checkedStates) then statesToCheck
                 else re2.out inst :: statesToCheck)
                checkedStates
            else
              get_mapped_states_loop prog fuel' is_last
                (mappedStates ++ [re2.out inst]) statesToCheck checkedStates
          else if negb (is_nop_or_capture (re2.opcode inst)) then
            get_mapped_states_loop prog fuel' is_last
              (mappedStates ++ [state]) statesToCheck checkedStates
          else
            outInst ← re2.inst prog (re2.out inst);
            if is_nop_or_capture (re2.opcode outInst) then
              get_mapped_states_loop prog fuel' is_last mappedStates
                (if decide (re2.out inst ∈ checkedStates) then statesToCheck
                 else re2.out inst :: statesToCheck)
                checkedStates
            else
              get_mapped_states_loop prog fuel' is_last
                (mappedStates ++ [re2.out inst]) statesToCheck checkedStates
      end
  end.

Definition get_mapped_states (prog : re2.Prog) (fuel : nat) (is_last : list bool)
    (state : nat) : option (list State * list bool) :=
  get_mapped_states_loop prog fuel is_last [] [state] [].

(** [create_state_cache_with_epsilon]: every state is mapped to itself and
    has an incoming edge. *)
Definition create_state_cache_with_epsilon (prog : re2.Prog) : StateCache :=
  mkStateCache
    ((λ state, [state]) <$> seq 0 (re2.size prog))
    ((λ inst, bool_decide (re2.opcode inst = re2.kInstMatch)) <$> re2.insts prog)
    (replicate (re2.size prog) false)
    (re2.last <$> re2.insts prog)
    (replicate (re2.size prog) true).

(** [create_state_cache_without_epsilon]; the loop state is the cache, the
    vector [tmp_state_mapping] and [append_to_state] ([None] for [-1]). *)
Definition state_cache_step (prog : re2.Prog) (fuel : nat)
    (acc : StateCache * list State * option nat) (state : nat)
  : option (StateCache * list State * option nat) :=
  let '(cache, tmp_state_mapping, append_to_state) := acc in
  inst ← re2.inst prog state;
  cache ← (if re2.last inst
            then set_is_last cache <$> vec_set (is_last cache) state true
            else Some cache);
  if is_nop_or_capture (re2.opcode inst) then
    '(mapped, is_last') ← get_mapped_states prog fuel (is_last cache) state;
    let cache := set_is_last cache is_last' in
    cache ← set_state_mapping cache <$> vec_set (state_mapping cache) state mapped;
    cache ← set_is_state_nop_or_cap cache
              <$> vec_set (is_state_nop_or_cap cache) state true;
    mapped_parget_state ← tmp_state_mapping !! re2.out inst;
    tmp_state_mapping ← vec_set tmp_state_mapping state mapped_parget_state;
    match append_to_state with
    | Some append_to =>
        incoming ← has_state_incoming_edge cache !! state;
        cache ← (if (incoming : bool)
                  then set_has_state_incoming_edge cache
                         <$> vec_set (has_state_incoming_edge cache)
                               mapped_parget_state true
                  else Some cache);
        tmp_state_mapping ← vec_set tmp_state_mapping append_to mapped_parget_state;
        Some (cache, tmp_state_mapping, Some append_to)
    | None => Some (cache, tmp_state_mapping, Some state)
    end
  else if decide (re2.opcode inst = re2.kInstMatch) then
    cache ← set_is_final_state cache <$> vec_set (is_final_state cache) state true;
    Some (cache, tmp_state_mapping, None)
  else
    cache ← set_has_state_incoming_edge cache
              <$> vec_set (has_state_incoming_edge cache) (re2.out inst) true;
    Some (cache, tmp_state_mapping, None).

Definition create_state_cache_without_epsilon (prog : re2.Prog) (fuel : nat)
  : option StateCache :=
  let prog_size := re2.size prog in
  let default_false_vec := replicate prog_size false in
  let cache :=
    mkStateCache ((λ state, [state]) <$> seq 0 prog_size)
                 default_false_vec default_false_vec default_false_vec
                 default_false_vec in
  '(cache, _, _) ← foldlM (state_cache_step prog fuel)
                     (cache, seq 0 prog_size, None)
                     (seq (re2.start prog) (prog_size - re2.start prog));
  Some cache.

Definition create_state_cache (prog : re2.Prog) (fuel : nat) (use_epsilon : bool)
  : option StateCache :=
  if use_epsilon then Some (create_state_cache_with_epsilon prog)
  else create_state_cache_without_epsilon prog fuel.

(** [make_state_final]: the states mapped to [state] that have an incoming
    edge become final. *)
Definition make_state_final (cache : StateCache) (state : nat) (nfa : Nfa)
  : option Nfa :=
  targets ← state_mapping cache !! state;
  foldlM (λ nfa target_state,
            incoming ← has_state_incoming_edge cache !! target_state;
            if (incoming : bool) then make_final nfa target_state else Some nfa)
         nfa targets.

(** The body of the three nested loops of [create_explicit_nfa_transitions],
    for one source, one target and one symbol. *)
Definition explicit_transition_step (use_epsilon : bool)
    (acc : RegexParser * Nfa) (x : State * State * Symbol)
  : option (RegexParser * Nfa) :=
  let '(parser, nfa) := acc in
  let '(mappedState, mappedTargetState, symbol) := x in
  edges ← (if use_epsilon then Some (outgoingEdges parser)
            else old ← outgoingEdges parser !! mappedState;
                 vec_set (outgoingEdges parser) mappedState
                         (old ++ [(symbol, mappedTargetState)]));
  let cache := state_cache parser in
  incoming ← has_state_incoming_edge cache !! mappedState;
  if (incoming : bool) then
    incoming_edge ← vec_set (has_state_incoming_edge cache) mappedTargetState true;
    nfa ← add_trans nfa mappedState symbol mappedTargetState;
    Some (mkRegexParser (set_has_state_incoming_edge cache incoming_edge) edges,
          nfa)
  else Some (mkRegexParser cache edges, nfa).

(** [create_explicit_nfa_transitions]. *)
Definition create_explicit_nfa_transitions (parser : RegexParser)
    (currentState : nat) (inst : re2.Inst) (symbols : list Symbol) (nfa : Nfa)
    (use_epsilon : bool) (epsilon_value : Symbol) : option (RegexParser * Nfa) :=
  sources ← state_mapping (state_cache parser) !! currentState;
  targets ← state_mapping (state_cache parser) !! re2.out inst;
  '(parser, nfa) ←
    foldlM (explicit_transition_step use_epsilon) (parser, nfa)
           (mappedState ← sources; mappedTargetState ← targets;
            symbol ← symbols; [(mappedState, mappedTargetState, symbol)]);
  if use_epsilon then
    last ← is_last (state_cache parser) !! currentState;
    if (last : bool) then Some (parser, nfa)
    else nfa ← add_trans nfa currentState epsilon_value (currentState + 1);
         Some (parser, nfa)
  else Some (parser, nfa).

(** The symbols of the assertions of an empty-width mask, in the order the
    compiler tests the bits. *)
Definition empty_width_symbols (K : re2.EmptyOp) (empty_flag : Z)
    (symbols : list Symbol) : list Symbol :=
  let push (bit : Z) (symbol : Symbol) (symbols : list Symbol) :=
    if decide (Z.land empty_flag bit ≠ 0%Z) then symbols ++ [symbol] else symbols in
  push (re2.kEmptyNonWordBoundary K) 304
    (push (re2.kEmptyWordBoundary K) 303
       (push (re2.kEmptyEndText K) 302
          (push (re2.kEmptyBeginText K) 301
             (push (re2.kEmptyEndLine K) 10
                (push (re2.kEmptyBeginLine K) 300 symbols))))).

(** The loop state of [convert_pro_to_nfa]. *)
Record ConvertState := mkConvertState {
  cs_parser : RegexParser;
  cs_nfa : Nfa;
  cs_copyEdgesFromTo : list (nat * nat);
  cs_symbols : list Symbol
}.

(** The case [kInstByteRange], which [kInstEmptyWidth] falls through to. *)
Definition byte_range_case (prog : re2.Prog) (use_epsilon : bool)
    (epsilon_value : Symbol) (current_state : nat) (inst : re2.Inst)
    (parser : RegexParser) (nfa : Nfa) (copyEdgesFromTo : list (nat * nat))
    (symbols : list Symbol) : option ConvertState :=
  let symbols :=
    match symbols with
    | [] => seq (re2.lo inst) (S (re2.hi inst) - re2.lo inst)
    | _ => symbols
    end in
  '(parser, nfa) ← create_explicit_nfa_transitions parser current_state inst
                      symbols nfa use_epsilon epsilon_value;
  copyEdgesFromTo ←
    (if use_epsilon then Some copyEdgesFromTo
     else
       last ← is_last (state_cache parser) !! current_state;
       if (last : bool) then Some copyEdgesFromTo
       else
         next ← state_mapping (state_cache parser) !! (current_state + 1);
         Some (copyEdgesFromTo ++ ((λ state, (state, current_state)) <$> next)));
  Some (mkConvertState parser nfa copyEdgesFromTo []).

(** One iteration of the loop over the states of the program. *)
Definition convert_step (K : re2.EmptyOp) (prog : re2.Prog) (use_epsilon : bool)
    (epsilon_value : Symbol) (acc : ConvertState) (current_state : nat)
  : option ConvertState :=
  let parser := cs_parser acc in
  let symbols := cs_symbols acc in
  inst ← re2.inst prog current_state;
  final ← is_final_state (state_cache parser) !! current_state;
  nfa ← (if (final : bool)
          then make_state_final (state_cache parser) current_state (cs_nfa acc)
          else Some (cs_nfa acc));
  match re2.opcode inst with
  | re2.kInstMatch =>
      Some (mkConvertState parser nfa (cs_copyEdgesFromTo acc) symbols)
  | re2.kInstNop | re2.kInstCapture =>
      if use_epsilon then
        '(parser, nfa) ← create_explicit_nfa_transitions parser current_state inst
                            (symbols ++ [epsilon_value]) nfa use_epsilon
                            epsilon_value;
        Some (mkConvertState parser nfa (cs_copyEdgesFromTo acc) [])
      else Some (mkConvertState parser nfa (cs_copyEdgesFromTo acc) symbols)
  | re2.kInstEmptyWidth =>
      byte_range_case prog use_epsilon epsilon_value current_state inst parser nfa
        (cs_copyEdgesFromTo acc) (empty_width_symbols K (re2.empty inst) symbols)
  | re2.kInstByteRange =>
      byte_range_case prog use_epsilon epsilon_value current_state inst parser nfa
        (cs_copyEdgesFromTo acc) symbols
  | _ =>
      (* default: the opcode is logged as unhandled *)
      Some (mkConvertState parser nfa (cs_copyEdgesFromTo acc) symbols)
  end.

(** The copy of one outgoing edge of [from] to the state [to]. *)
Definition copy_transition_step (to : nat) (acc : RegexParser * Nfa)
    (transition : Symbol * State) : option (RegexParser * Nfa) :=
  let '(parser, nfa) := acc in
  incoming ← has_state_incoming_edge (state_cache parser) !! to;
  nfa ← (if (incoming : bool)
          then add_trans nfa to transition.1 transition.2
          else Some nfa);
  old ← outgoingEdges parser !! to;
  edges ← vec_set (outgoingEdges parser) to (old ++ [transition]);
  Some (mkRegexParser (state_cache parser) edges, nfa).

(** [to] becomes final, in the automaton and in the cache. *)
Definition mark_final (to : nat) (parser : RegexParser) (nfa : Nfa)
  : option (RegexParser * Nfa) :=
  nfa ← make_state_final (state_cache parser) to nfa;
  final ← vec_set (is_final_state (state_cache parser)) to true;
  Some (mkRegexParser (set_is_final_state (state_cache parser) final)
                      (outgoingEdges parser), nfa).

(** One step of the pass that copies the edges along the deferred epsilon
    chains; the pairs are visited in reverse order. *)
Definition copy_edges_step (prog : re2.Prog) (acc : RegexParser * Nfa)
    (copyEdgeFromTo : nat * nat) : option (RegexParser * Nfa) :=
  let '(parser, nfa) := acc in
  let '(from, to) := copyEdgeFromTo in
  inst ← re2.inst prog from;
  if decide (re2.opcode inst = re2.kInstMatch) then mark_final to parser nfa
  else
    final ← is_final_state (state_cache parser) !! from;
    '(parser, nfa) ← (if (final : bool) then mark_final to parser nfa
                       else Some (parser, nfa));
    transitions ← outgoingEdges parser !! from;
    foldlM (copy_transition_step to) (parser, nfa) transitions.

(** [renumber_states]. The vector [renumbered_states] holds [unsigned long];
    it is filled with [-1], and an entry is taken for unset when its cast to
    [int] is [-1]. *)
Definition unset_state : Z := (2 ^ 64 - 1)%Z.

Definition is_unset (x : Z) : bool := (x mod 2 ^ 32 =? 2 ^ 32 - 1)%Z.

(** A state read back from the vector; beyond the number of states of the
    automaton it is refused by the mutator that receives it. *)
Definition state_of (A : Nfa) (x : Z) : option State :=
  if decide (0 ≤ x < Z.of_nat (num_of_states A))%Z then Some (Z.to_nat x) else None.

(** [renumbered_states[state] = add_new_state()] when the entry is unset. *)
Definition renumber_if_unset (acc : list Z * Nfa) (state : nat)
  : option (list Z * Nfa) :=
  let '(renumbered_states, nfa) := acc in
  x ← renumbered_states !! state;
  if is_unset x then
    let '(nfa, fresh) := add_new_state nfa in
    renumbered_states ← vec_set renumbered_states state (Z.of_nat fresh);
    Some (renumbered_states, nfa)
  else Some (renumbered_states, nfa).

(** The bodies of the four loops of [renumber_states]. *)
Definition renumber_used_step (input_nfa : Nfa) (acc : list Z * Nfa) (state : nat)
  : option (list Z * Nfa) :=
  let '(renumbered_states, nfa) := acc in
  match get_transitions_from_state input_nfa state with
  | [] => Some (renumbered_states, nfa)
  | _ =>
      let '(nfa, fresh) := add_new_state nfa in
      renumbered_states ← vec_set renumbered_states state (Z.of_nat fresh);
      Some (renumbered_states, nfa)
  end.

Definition renumber_final_step (acc : list Z * Nfa) (state : nat)
  : option (list Z * Nfa) :=
  '(renumbered_states, nfa) ← renumber_if_unset acc state;
  x ← renumbered_states !! state;
  s ← state_of nfa x;
  nfa ← make_final nfa s;
  Some (renumbered_states, nfa).

Definition renumber_trans_step (acc : list Z * Nfa) (transition : Trans)
  : option (list Z * Nfa) :=
  '(renumbered_states, nfa) ← renumber_if_unset acc (tgt transition);
  x ← renumbered_states !! src transition;
  y ← renumbered_states !! tgt transition;
  s ← state_of nfa x;
  t ← state_of nfa y;
  nfa ← add_trans nfa s (symb transition) t;
  Some (renumbered_states, nfa).

Definition renumber_initial_step (renumbered_states : list Z) (nfa : Nfa)
    (state : nat) : option Nfa :=
  x ← renumbered_states !! state;
  s ← state_of nfa x;
  make_initial nfa s.

Definition renumber_states_full (output_nfa : Nfa) (program_size : nat)
    (input_nfa : Nfa) : option (list Z * Nfa) :=
  let renumbered_states := replicate program_size unset_state in
  (* states with outgoing transitions *)
  acc ← foldlM (renumber_used_step input_nfa) (renumbered_states, output_nfa)
         (seq 0 program_size);
  (* final states *)
  acc ← foldlM renumber_final_step acc (finalstates input_nfa);
  (* transitions *)
  acc ← foldlM renumber_trans_step acc
         (seq 0 program_size ≫= get_transitions_from_state input_nfa);
  (* initial states *)
  nfa ← foldlM (renumber_initial_step acc.1) acc.2 (initialstates input_nfa);
  Some (acc.1, nfa).

Definition renumber_states (output_nfa : Nfa) (program_size : nat)
    (input_nfa : Nfa) : option Nfa :=
  snd <$> renumber_states_full output_nfa program_size input_nfa.

(** The automaton [explicit_nfa] that [convert_pro_to_nfa] builds before it
    renumbers the states. *)
Definition build_explicit_nfa (K : re2.EmptyOp) (prog : re2.Prog) (fuel : nat)
    (use_epsilon : bool) (epsilon_value : Symbol) : option (RegexParser * Nfa) :=
  let start_state := re2.start prog in
  let prog_size := re2.size prog in
  let explicit_nfa := mkNfa prog_size [] [] [] in
  cache ← create_state_cache prog fuel use_epsilon;
  start_mapping ← state_mapping cache !! start_state;
  start0 ← start_mapping !! 0;
  explicit_nfa ← make_initial explicit_nfa start0;
  incoming ← vec_set (has_state_incoming_edge cache) start0 true;
  let cache := set_has_state_incoming_edge cache incoming in
  nop_or_cap ← is_state_nop_or_cap cache !! start_state;
  copyEdgesFromTo ←
    (if (nop_or_cap : bool) then
       last ← is_last cache !! start_state;
       if (last : bool) then Some []
       else
         foldlM (λ copyEdgesFromTo mapped,
                   states ← state_mapping cache !! mapped;
                   Some (copyEdgesFromTo ++ ((λ state, (state, start0)) <$> states)))
                [] (drop 1 start_mapping)
     else Some []);
  let parser := mkRegexParser cache (replicate prog_size []) in
  acc ← foldlM (convert_step K prog use_epsilon epsilon_value)
          (mkConvertState parser explicit_nfa copyEdgesFromTo [])
          (seq start_state (prog_size - start_state));
  if use_epsilon then Some (cs_parser acc, cs_nfa acc)
  else foldlM (copy_edges_step prog) (cs_parser acc, cs_nfa acc)
         (reverse (cs_copyEdgesFromTo acc)).

Definition convert_pro_to_nfa (K : re2.EmptyOp) (output_nfa : Nfa)
    (prog : re2.Prog) (fuel : nat) (use_epsilon : bool) (epsilon_value : Symbol)
  : option Nfa :=
  '(_, explicit_nfa) ← build_explicit_nfa K prog fuel use_epsilon epsilon_value;
  renumber_states output_nfa (re2.size prog) explicit_nfa.

(** [create_nfa], from the compiled program on; [nfa] is the automaton the
    caller passes ([None] for a null pointer). *)
Definition create_nfa (K : re2.EmptyOp) (nfa : option Nfa) (prog : re2.Prog)
    (fuel : nat) (use_epsilon : bool) (epsilon_value : Symbol) : option Nfa :=
  output_nfa ← nfa;
  convert_pro_to_nfa K output_nfa prog fuel use_epsilon epsilon_value.

(** ** Example automata

    Symbols: [97], [98], [99] for the letters a, b, c. *)

(** The language {a, b}, with one final state per word. *)
Definition ex_a_or_b : Nfa :=
  mkNfa 3 [0] [1; 2] [mkTrans 0 97 1; mkTrans 0 98 2].

(** The language {c}. *)
Definition ex_c : Nfa := mkNfa 2 [0] [1] [mkTrans 0 99 1].

(** The language {ac, bc}. *)
Definition ex_ac_or_bc : Nfa :=
  mkNfa 3 [0] [2] [mkTrans 0 97 1; mkTrans 0 98 1; mkTrans 1 99 2].

(** An automaton with no final state: the empty language. *)
Definition ex_no_word : Nfa := mkNfa 1 [0] [] [].

(** The store of the equation [x y = z] with [x] in {a, b}, [y] in {c} and
    [z] in {ac, bc}; the left side is [[0; 1]], the right side [2]. *)
Definition ex_store : list Nfa := [ex_a_or_b; ex_c; ex_ac_or_bc].

(** The same left side against an empty right side, at position [2]. *)
Definition ex_store_empty_rhs : list Nfa := [ex_a_or_b; ex_c; ex_no_word].

(** The noodle of that equation once the final states of [x] are unified:
    the language {a, b} on one final state, then {c}. *)
Definition ex_noodle : list Nfa :=
  [mkNfa 2 [0] [1] [mkTrans 0 97 1; mkTrans 0 98 1]; ex_c].

(** The language of the empty word alone. *)
Definition ex_empty_word : Nfa := mkNfa 1 [0] [0] [].

(** The empty word again, on two states that are both initial and final. *)
Definition ex_empty_word_twice : Nfa := mkNfa 2 [0; 1] [0; 1] [].

(** An equation with [k] automata [ex_empty_word] on the left side, at the
    positions [0 .. k - 1], and [ex_empty_word_twice] on the right side, at
    position [k]. Its product has [k - 1] depths of two epsilon-transitions. *)
Definition ex_long_store (k : nat) : list Nfa :=
  replicate k ex_empty_word ++ [ex_empty_word_twice].

Definition ex_long_lhs (k : nat) : list nat := seq 0 k.

(** Two disjoint tracks of [k] transitions over the symbol [0], taken as
    epsilon: the states [2 * j] and [2 * j + 1] lie at depth [j]. *)
Definition ex_tracks (k : nat) : Nfa :=
  mkNfa (2 * k + 2) [0; 1] [2 * k; 2 * k + 1]
        ((λ s, mkTrans s 0 (s + 2)) <$> seq 0 (2 * k)).

(** The word [a], the symbol [500] taken as epsilon, the word [c]: two
    segments. *)
Definition ex_two_segments : Nfa :=
  mkNfa 4 [0] [3] [mkTrans 0 97 1; mkTrans 1 500 2; mkTrans 2 99 3].

(** The noodle of [ex_two_segments]. *)
Definition ex_a_then_c : list Nfa :=
  [mkNfa 2 [0] [1] [mkTrans 0 97 1]; mkNfa 2 [0] [1] [mkTrans 0 99 1]].

(** An automaton on six states of which three are used: the words of
    [a c* b]. *)
Definition ex_sparse : Nfa :=
  mkNfa 6 [1] [5] [mkTrans 1 97 3; mkTrans 3 98 5; mkTrans 3 99 3].

(** [ex_sparse] with its states renumbered. *)
Definition ex_renumbered : Nfa :=
  mkNfa 3 [0] [2] [mkTrans 0 97 1; mkTrans 1 98 2; mkTrans 1 99 1].

(** A [reduce] that satisfies the contract: it returns its argument. *)
Definition reduce_id (A : Nfa) : Nfa := A.

(** The bits of the empty-width assertions as RE2 numbers them. *)
Definition ex_empty_op : re2.EmptyOp := re2.mkEmptyOp 1 2 4 8 16 32.

(** A program for [ab]: fail, byte a, byte b, match; it starts at 1. *)
Definition ex_prog_ab : re2.Prog :=
  re2.mkProg 1
    [re2.mkInst re2.kInstFail 0 true 0 0 0;
     re2.mkInst re2.kInstByteRange 2 true 97 97 0;
     re2.mkInst re2.kInstByteRange 3 true 98 98 0;
     re2.mkInst re2.kInstMatch 0 true 0 0 0].

(** A program with an assertion between two bytes: byte a, then an
    empty-width instruction with the bits of a word boundary and of the
    beginning of a line, then byte b, then match. *)
Definition ex_prog_assert : re2.Prog :=
  re2.mkProg 1
    [re2.mkInst re2.kInstFail 0 true 0 0 0;
     re2.mkInst re2.kInstByteRange 2 true 97 97 0;
     re2.mkInst re2.kInstEmptyWidth 3 true 0 0 17;
     re2.mkInst re2.kInstByteRange 4 true 98 98 0;
     re2.mkInst re2.kInstMatch 0 true 0 0 0].

(** A program for [([ab]|d)]: fail; capture; the bytes a to b, not the last
    of their list; the byte d; capture; match. It starts at 1. *)
Definition ex_prog_group : re2.Prog :=
  re2.mkProg 1
    [re2.mkInst re2.kInstFail 0 true 0 0 0;
     re2.mkInst re2.kInstCapture 2 true 0 0 0;
     re2.mkInst re2.kInstByteRange 4 false 97 98 0;
     re2.mkInst re2.kInstByteRange 4 true 100 100 0;
     re2.mkInst re2.kInstCapture 5 true 0 0 0;
     re2.mkInst re2.kInstMatch 0 true 0 0 0].

(** What [create_nfa] returns for [ex_prog_group], with [500] for epsilon. *)
Definition ex_group_with_epsilon : Nfa :=
  mkNfa 5 [0] [4]
        [mkTrans 0 500 1; mkTrans 1 97 3; mkTrans 1 98 3; mkTrans 1 500 2;
         mkTrans 2 100 3; mkTrans 3 500 4].


(** ** Notions used in the proofs *)

(** The measure of the worklist search: the length of the worklist plus the
    number of transitions whose source has not been visited. *)
Definition reach_measure (d : list Trans) (V W : list State) : nat :=
  length W + length (filter (λ t, src t ∉ V) d).

(** The invariant of the worklist search: the successors of a visited state
    are visited or wait in the worklist. *)
Definition reach_inv (d : list Trans) (V W : list State) : Prop :=
  ∀ t, t ∈ d → src t ∈ V → tgt t ∈ V ∨ tgt t ∈ W.

(** The store the overload on pointers works on: the left side is unified
    only under a recognized value of the key [reduce]. *)
Definition ptr_store (st : Store) (lhs : list nat) (params : StringDict) : Store :=
  if decide (recognized_reduce params) then unify_left st lhs else st.






(** A trimmed automaton: every state lies on a path from an initial to a
    final state. *)
Definition is_trim (A : Nfa) : Prop :=
  ∀ s, s < num_of_states A →
    ∃ q u v q', q ∈ initialstates A ∧ q' ∈ finalstates A ∧
      path (delta A) q u s ∧ path (delta A) s v q'.

(** The word [w0 ε w1 ε ... ε wk] of the words [w0] and [ws = w1 ... wk]. *)
Definition eps_join (epsilon : Symbol) (w0 : list Symbol)
    (ws : list (list Symbol)) : list Symbol :=
  w0 ++ (ws ≫= λ w, epsilon :: w).

(** A word without its occurrences of epsilon. *)
Definition strip (epsilon : Symbol) (w : list Symbol) : list Symbol :=
  filter (λ a, a ≠ epsilon) w.

(** An automaton without transitions on [epsilon]. *)
Definition epsilon_free (epsilon : Symbol) (A : Nfa) : Prop :=
  ∀ t, t ∈ delta A → symb t ≠ epsilon.

(** The automaton stored in the memo under the key [(x, y)]: the automaton
    without its epsilon-transitions, from [x] to [y], trimmed; the sentinel
    (the number of states) stands for all initial or all final states. *)
Definition segment_instance (A : Nfa) (epsilon : Symbol) (x y : State) : Nfa :=
  trim (mkNfa (num_of_states A)
          (if decide (x = num_of_states A) then initialstates A else [x])
          (if decide (y = num_of_states A) then finalstates A else [y])
          (non_epsilon_delta A epsilon)).

(** Every entry of the memo is the segment instance of its key. *)
Definition memo_ok (A : Nfa) (epsilon : Symbol) (memo : gmap (State * State) Nfa)
  : Prop :=
  ∀ x y N, memo !! (x, y) = Some N → N = segment_instance A epsilon x y.

(** An untrimmed segment of [A]: the states and the transitions without
    epsilon of [A], initial and final states that are states of [A]. *)
Definition segment_of (A : Nfa) (epsilon : Symbol) (S : Nfa) : Prop :=
  num_of_states S = num_of_states A ∧
  delta S = non_epsilon_delta A epsilon ∧
  Forall (λ s, s < num_of_states A) (initialstates S) ∧
  Forall (λ s, s < num_of_states A) (finalstates S).

(** The keys of the noodle of an assignment: from [x] to the source of the
    first chosen transition, from its target to the source of the next one,
    and so on, up to the sentinel. *)
Fixpoint chain_keys (unused_state : State) (x : State) (epsilon_noodle : list Trans)
  : list (State * State) :=
  match epsilon_noodle with
  | [] => [(x, unused_state)]
  | e :: rest => (x, src e) :: chain_keys unused_state (tgt e) rest
  end.

(** The number of occurrences of epsilon in a word. *)
Definition eps_count (epsilon : Symbol) (w : list Symbol) : nat :=
  length (filter (λ a, a = epsilon) w).

(** A state at depth [d]: reached from an initial state over [d]
    epsilon-transitions. *)
Definition at_depth (A : Nfa) (epsilon : Symbol) (d : nat) (s : State) : Prop :=
  ∃ q u, q ∈ initialstates A ∧ path (delta A) q u s ∧ eps_count epsilon u = d.

(** An automaton of [k] epsilon-levels: well formed, trimmed, with a word,
    and with exactly [k] epsilons in each of its words. *)
Definition leveled (A : Nfa) (epsilon : Symbol) (k : nat) : Prop :=
  wf_nfa A ∧ is_trim A ∧ (∃ w, accepts A w) ∧
  ∀ w, accepts A w → eps_count epsilon w = k.

(** The number of assignments of one transition per depth, unbounded. *)
Definition radix_product (depths : list (list Trans)) : N :=
  foldr (λ E acc, (N.of_nat (length E) * acc)%N) 1%N depths.

(** The mixed-radix digit of the index [i] at depth [j]. *)
Definition radix_digit (depths : list (list Trans)) (i : N) (j : nat) : N :=
  ((i / radix_product (take j depths))
     mod N.of_nat (length (default [] (depths !! j))))%N.

(** The memo that [noodlify] builds for an automaton. *)
Definition segments_memo (A : Nfa) (epsilon : Symbol) (include_empty : bool)
  : gmap (State * State) Nfa :=
  let segments := get_untrimmed_segments (segmentation A epsilon) in
  build_memo (num_of_states A) include_empty (length segments) 0 segments ∅.

(** Every entry of the memo passed the test on empty segments. *)
Definition memo_kept (include_empty : bool) (memo : gmap (State * State) Nfa)
  : Prop :=
  ∀ key N, memo !! key = Some N → keep_segment N include_empty = true.

(** The noodle of an assignment: the segment instances of its keys, when
    all of them pass the test on empty segments. *)
Definition assignment_noodle (A : Nfa) (epsilon : Symbol) (include_empty : bool)
    (epsilon_noodle : list Trans) : option Noodle :=
  let keys := chain_keys (num_of_states A) (num_of_states A) epsilon_noodle in
  if forallb (λ key, keep_segment (segment_instance A epsilon key.1 key.2)
                        include_empty) keys
  then Some ((λ key, segment_instance A epsilon key.1 key.2) <$> keys)
  else None.

(** ** Renumbering *)

(** The state [s] of the input has the number [k] in the automaton under
    construction. *)
Definition renumbered (acc : list Z * Nfa) (s k : nat) : Prop :=
  acc.1 !! s = Some (Z.of_nat k) ∧ k < num_of_states acc.2.

(** What a step of [renumber_states] keeps: the numbers given so far, and
    the states and transitions emitted so far. *)
Definition renumber_extends (acc acc' : list Z * Nfa) : Prop :=
  (∀ s k, renumbered acc s k → renumbered acc' s k) ∧
  (∀ t, t ∈ delta acc.2 → t ∈ delta acc'.2) ∧
  (∀ q, q ∈ finalstates acc.2 → q ∈ finalstates acc'.2) ∧
  (∀ q, q ∈ initialstates acc.2 → q ∈ initialstates acc'.2).

(** A state of the input that [renumber_states] gives a number to: it has an
    outgoing transition, or is final, or is the target of a transition. *)
Definition used_state (input_nfa : Nfa) (program_size : nat) (s : nat) : Prop :=
  (s < program_size ∧ get_transitions_from_state input_nfa s ≠ []) ∨
  s ∈ finalstates input_nfa ∨
  ∃ t, t ∈ delta input_nfa ∧ src t < program_size ∧ tgt t = s.

(** The invariant of the loops of [renumber_states]. *)
Definition renumber_inv (output_nfa input_nfa : Nfa) (program_size : nat)
    (acc : list Z * Nfa) : Prop :=
  length acc.1 = program_size ∧
  (∀ s x, acc.1 !! s = Some x →
     x = unset_state ∨
     ∃ k, x = Z.of_nat k ∧ num_of_states output_nfa ≤ k < num_of_states acc.2) ∧
  (∀ k, num_of_states output_nfa ≤ k < num_of_states acc.2 →
     ∃ s, renumbered acc s k) ∧
  num_of_states acc.2
  = num_of_states output_nfa + length (filter (λ x, x ≠ unset_state) acc.1) ∧
  (∀ t', t' ∈ delta acc.2 →
     t' ∈ delta output_nfa ∨
     ∃ t, t ∈ delta input_nfa ∧ src t < program_size ∧
       renumbered acc (src t) (src t') ∧ renumbered acc (tgt t) (tgt t') ∧
       symb t' = symb t) ∧
  (∀ q', q' ∈ finalstates acc.2 →
     q' ∈ finalstates output_nfa ∨
     ∃ q, q ∈ finalstates input_nfa ∧ renumbered acc q q') ∧
  initialstates acc.2 = initialstates output_nfa ∧
  (∀ s s' k, renumbered acc s k → renumbered acc s' k → s = s') ∧
  (∀ s k, renumbered acc s k → used_state input_nfa program_size s).

(** ** The graph of a program, for the conversion with epsilon *)

(** The instructions that the conversion gives transitions to. *)
Definition has_out_edges (op : re2.InstOp) : bool :=
  match op with
  | re2.kInstByteRange | re2.kInstEmptyWidth | re2.kInstNop | re2.kInstCapture =>
      true
  | _ => false
  end.

(** The symbols toward [out]: the bytes of a range, the symbols of the
    assertions of an empty-width mask (the bytes of the range when no bit is
    set), epsilon for a nop or a capture. *)
Definition inst_symbols (K : re2.EmptyOp) (epsilon_value : Symbol)
    (inst : re2.Inst) : list Symbol :=
  let range := seq (re2.lo inst) (S (re2.hi inst) - re2.lo inst) in
  match re2.opcode inst with
  | re2.kInstByteRange => range
  | re2.kInstEmptyWidth =>
      match empty_width_symbols K (re2.empty inst) [] with
      | [] => range
      | symbols => symbols
      end
  | re2.kInstNop | re2.kInstCapture => [epsilon_value]
  | _ => []
  end.

(** The transitions of the instruction at [pc]: over its symbols to [out],
    and over epsilon to [pc + 1] when it is not the last of its list. *)
Definition inst_edges (K : re2.EmptyOp) (epsilon_value : Symbol) (pc : nat)
    (inst : re2.Inst) : list Trans :=
  ((λ a, mkTrans pc a (re2.out inst)) <$> inst_symbols K epsilon_value inst)
  ++ (if has_out_edges (re2.opcode inst) && negb (re2.last inst)
      then [mkTrans pc epsilon_value (pc + 1)] else []).

(** The program as an automaton on its own states, from the start state on:
    the match instructions are final. *)
Definition program_nfa (K : re2.EmptyOp) (prog : re2.Prog)
    (epsilon_value : Symbol) : Nfa :=
  let states := seq (re2.start prog) (re2.size prog - re2.start prog) in
  mkNfa (re2.size prog) [re2.start prog]
        (filter (λ pc, re2.opcode <$> re2.inst prog pc = Some re2.kInstMatch)
                states)
        (states ≫= λ pc,
           from_option (inst_edges K epsilon_value pc) [] (re2.inst prog pc)).

(** The invariant of the loop of [convert_pro_to_nfa] with epsilon: the
    cache stays the one built at the start, and the automaton holds only
    edges of the program and final states that are match instructions. *)
Definition with_epsilon_inv (K : re2.EmptyOp) (prog : re2.Prog)
    (epsilon_value : Symbol) (acc : ConvertState) : Prop :=
  cs_symbols acc = [] ∧
  state_cache (cs_parser acc) = create_state_cache_with_epsilon prog ∧
  num_of_states (cs_nfa acc) = re2.size prog ∧
  initialstates (cs_nfa acc) = [re2.start prog] ∧
  (∀ q, q ∈ finalstates (cs_nfa acc) →
     re2.start prog ≤ q ∧
     re2.opcode <$> re2.inst prog q = Some re2.kInstMatch) ∧
  (∀ t, t ∈ delta (cs_nfa acc) →
     re2.start prog ≤ src t ∧
     ∃ inst, re2.inst prog (src t) = Some inst ∧
       t ∈ inst_edges K epsilon_value (src t) inst).

(** The edges and the final state of the instruction at [pc] are there. *)
Definition with_epsilon_done (K : re2.EmptyOp) (prog : re2.Prog)
    (epsilon_value : Symbol) (pc : nat) (acc : ConvertState) : Prop :=
  ∀ inst, re2.inst prog pc = Some inst →
    (∀ t, t ∈ inst_edges K epsilon_value pc inst → t ∈ delta (cs_nfa acc)) ∧
    (re2.opcode inst = re2.kInstMatch → pc ∈ finalstates (cs_nfa acc)).

Definition convert_extends (acc acc' : ConvertState) : Prop :=
  (∀ t, t ∈ delta (cs_nfa acc) → t ∈ delta (cs_nfa acc')) ∧
  (∀ q, q ∈ finalstates (cs_nfa acc) → q ∈ finalstates (cs_nfa acc')).

(** ** The loop of [get_mapped_states] *)

(** A program that stays inside itself: what an instruction refers to, its
    [out] and, when it is not the last of its list, the next instruction, is
    an instruction of the program. *)
Definition closed_prog (prog : re2.Prog) : Prop :=
  Forall (λ pc,
            match re2.inst prog pc with
            | Some inst =>
                re2.out inst < re2.size prog ∧
                (re2.last inst = false → S pc < re2.size prog)
            | None => True
            end)
         (seq 0 (re2.size prog)).

(** The states that the loop may push when it visits [state]. *)
Definition mapped_successors (prog : re2.Prog) (state : nat) : list State :=
  match re2.inst prog state with
  | Some inst =>
      (if re2.last inst then [] else [state + 1]) ++
      (if negb (re2.last inst) || is_nop_or_capture (re2.opcode inst)
       then match re2.inst prog (re2.out inst) with
            | Some outInst =>
                if is_nop_or_capture (re2.opcode outInst) then [re2.out inst]
                else []
            | None => []
            end
       else [])
  | None => []
  end.

(** The stack of the loop: what a state that was visited already could
    still push lies above it, or was visited. *)
Definition stack_inv (prog : re2.Prog) (statesToCheck checkedStates : list State)
  : Prop :=
  ∀ i state, statesToCheck !! i = Some state → state ∈ checkedStates →
    ∀ c, c ∈ mapped_successors prog state →
      c ∈ checkedStates ∨ c ∈ take i statesToCheck.

(** The number of iterations left: two for each state not visited, one for
    each state on the stack. *)
Definition mapped_measure (prog : re2.Prog) (statesToCheck checkedStates : list State)
  : nat :=
  2 * length (filter (λ s, s ∉ checkedStates) (seq 0 (re2.size prog)))
  + length statesToCheck.

(** The states that the loop appends to [mappedStates] when it visits
    [state]. *)
Definition mapped_results (prog : re2.Prog) (state : nat) : list State :=
  match re2.inst prog state with
  | Some inst =>
      if re2.last inst && negb (is_nop_or_capture (re2.opcode inst)) then [state]
      else match re2.inst prog (re2.out inst) with
           | Some outInst =>
               if is_nop_or_capture (re2.opcode outInst) then []
               else [re2.out inst]
           | None => []
           end
  | None => []
  end.

(** [chain_reaches prog s s']: the loop that starts in [s] visits [s']. *)
Definition chain_reaches (prog : re2.Prog) : State → State → Prop :=
  rtc (λ s c, c ∈ mapped_successors prog s).

(** The instruction after [state] is the last of its list and follows an
    instruction that is not: the visit of [state] sets its flag. *)
Definition flags_next (prog : re2.Prog) (state : nat) : Prop :=
  ∃ inst nextInst,
    re2.inst prog state = Some inst ∧ re2.last inst = false ∧
    re2.inst prog (state + 1) = Some nextInst ∧ re2.last nextInst = true.

(** ** The conversion without epsilon *)

















(** * Properties *)

(** ** Paths *)

Lemma path_app d q u r v q' :
  path d q u r → path d r v q' → path d q (u ++ v) q'.
Proof.
  induction 1 as [|q a r0 w r Ht Hp IH]; simpl; [done|].
  intros Hv. econstructor; eauto.
Qed.

Lemma path_app_inv d q u v q' :
  path d q (u ++ v) q' → ∃ r, path d q u r ∧ path d r v q'.
Proof.
  revert q. induction u as [|a u IH]; simpl; intros q Hp.
  - exists q. split; [constructor | done].
  - inversion Hp as [|? ? r ? ? Ht Hp']; subst.
    destruct (IH _ Hp') as (r' & H1 & H2).
    exists r'. split; [econstructor; eauto | done].
Qed.

Lemma path_snoc d q u r a q' :
  path d q u r → mkTrans r a q' ∈ d → path d q (u ++ [a]) q'.
Proof.
  intros Hu Ht. eapply path_app; [done|].
  econstructor; [done | constructor].
Qed.

Lemma path_mono d d' q w q' :
  (∀ t, t ∈ d → t ∈ d') → path d q w q' → path d' q w q'.
Proof. intros Hsub. induction 1; econstructor; eauto. Qed.

Lemma path_symbols d q w q' :
  path d q w q' → Forall (λ a, ∃ t, t ∈ d ∧ symb t = a) w.
Proof.
  induction 1 as [|q a r w q' Ht Hp IH]; constructor; [|done].
  by exists (mkTrans q a r).
Qed.

Lemma path_wf n d q w q' :
  Forall (wf_trans n) d → path d q w q' → q < n → q' < n.
Proof.
  intros Hwf. induction 1 as [|q a r w q' Ht Hp IH]; [done|].
  intros _. apply IH. rewrite Forall_forall in Hwf.
  by destruct (Hwf _ Ht).
Qed.

Lemma path_revert d q w q' :
  path d q w q' → path (revert_trans <$> d) q' (reverse w) q.
Proof.
  induction 1 as [|q a r w q' Ht Hp IH]; [constructor|].
  rewrite reverse_cons. eapply path_snoc; [done|].
  apply list_elem_of_fmap. by exists (mkTrans q a r).
Qed.

Lemma revert_trans_involutive t : revert_trans (revert_trans t) = t.
Proof. by destruct t. Qed.

Lemma path_revert_inv d q w q' :
  path (revert_trans <$> d) q w q' → path d q' (reverse w) q.
Proof.
  intros Hp. apply path_revert in Hp.
  rewrite <- list_fmap_compose in Hp.
  eapply path_mono; [|done].
  intros t [t' [-> Ht']]%list_elem_of_fmap. simpl.
  by rewrite revert_trans_involutive.
Qed.

(** ** The worklist search computes reachability *)

Lemma succs_spec d q x : x ∈ succs d q ↔ ∃ a, mkTrans q a x ∈ d.
Proof.
  unfold succs. rewrite list_elem_of_fmap. split.
  - intros (t & -> & [Hs Ht]%list_elem_of_filter).
    exists (symb t). destruct t; simpl in *; by subst.
  - intros [a H]. exists (mkTrans q a x). split; [done|].
    by apply list_elem_of_filter.
Qed.

Lemma reach_aux_sound d fuel V W x :
  x ∈ reach_aux d fuel V W →
  x ∈ V ∨ ∃ q w, q ∈ W ∧ path d q w x.
Proof.
  revert V W. induction fuel as [|fuel IH]; simpl; intros V W Hx; [by left|].
  destruct W as [|q wl]; [by left|].
  destruct (decide (q ∈ V)) as [HqV | HqV].
  - destruct (IH _ _ Hx) as [? | (q' & w & Hq' & Hp)]; [by left|].
    right. exists q', w. split; [by apply elem_of_cons; right | done].
  - destruct (IH _ _ Hx) as [[-> | ?]%elem_of_cons | (q' & w & Hq' & Hp)].
    + right. exists q, []. split; [apply elem_of_cons; by left | constructor].
    + by left.
    + right. apply elem_of_app in Hq' as [Hq' | Hq'].
      * apply succs_spec in Hq' as [a Ha].
        exists q, (a :: w). split; [apply elem_of_cons; by left|].
        econstructor; eauto.
      * exists q', w. split; [apply elem_of_cons; by right | done].
Qed.

Lemma reach_measure_visit d q V :
  q ∉ V →
  length (filter (λ t, src t ∉ V) d) =
  length (succs d q) + length (filter (λ t, src t ∉ q :: V) d).
Proof.
  intros HqV. unfold succs. rewrite length_fmap.
  induction d as [|t d IH]; [done|].
  rewrite !filter_cons.
  destruct (decide (src t = q)) as [-> | Hne].
  - rewrite decide_True by done.
    rewrite (decide_False (P := q ∉ q :: V)); [simpl; lia|].
    intros H. apply H. apply elem_of_cons. by left.
  - destruct (decide (src t ∈ V)) as [Hin | Hnin].
    + rewrite (decide_False (P := src t ∉ V)) by tauto.
      rewrite (decide_False (P := src t ∉ q :: V)); [done|].
      intros H. apply H. apply elem_of_cons. by right.
    + rewrite (decide_True (P := src t ∉ V)) by done.
      rewrite (decide_True (P := src t ∉ q :: V)); [simpl; lia|].
      intros [? | ?]%elem_of_cons; done.
Qed.

Lemma reach_aux_closed d fuel V W :
  reach_measure d V W ≤ fuel → reach_inv d V W →
  (∀ x, x ∈ V → x ∈ reach_aux d fuel V W) ∧
  (∀ x, x ∈ W → x ∈ reach_aux d fuel V W) ∧
  (∀ t, t ∈ d → src t ∈ reach_aux d fuel V W → tgt t ∈ reach_aux d fuel V W).
Proof.
  revert V W. induction fuel as [|fuel IH]; intros V W Hm Hinv.
  - unfold reach_measure in Hm.
    assert (W = []) as -> by (destruct W; [done | simpl in Hm; lia]).
    simpl. split_and!; [done | by intros ? ?%elem_of_nil |].
    intros t Ht Hs. destruct (Hinv t Ht Hs) as [? | ?%elem_of_nil]; done.
  - destruct W as [|q wl].
    { simpl. split_and!; [done | by intros ? ?%elem_of_nil |].
      intros t Ht Hs. destruct (Hinv t Ht Hs) as [? | ?%elem_of_nil]; done. }
    simpl. destruct (decide (q ∈ V)) as [HqV | HqV].
    + destruct (IH V wl) as (HV & HW & Hc).
      { unfold reach_measure in *. simpl in Hm. lia. }
      { intros t Ht Hs. destruct (Hinv t Ht Hs) as [? | [-> | ?]%elem_of_cons];
          [by left | by left | by right]. }
      split_and!; [done | | done].
      intros x [-> | ?]%elem_of_cons; [by apply HV | by apply HW].
    + destruct (IH (q :: V) (succs d q ++ wl)) as (HV & HW & Hc).
      { unfold reach_measure in *. simpl in Hm.
        rewrite length_app. rewrite (reach_measure_visit d q V) in Hm by done. lia. }
      { intros t Ht [Hs | Hs]%elem_of_cons.
        - right. apply elem_of_app. left. apply succs_spec. exists (symb t).
          destruct t; simpl in *; by subst.
        - destruct (Hinv t Ht Hs) as [? | [-> | ?]%elem_of_cons].
          + left. apply elem_of_cons. by right.
          + left. apply elem_of_cons. by left.
          + right. apply elem_of_app. by right. }
      split_and!; [| | done].
      * intros x Hx. apply HV. apply elem_of_cons. by right.
      * intros x [-> | Hx]%elem_of_cons.
        -- apply HV. apply elem_of_cons. by left.
        -- apply HW. apply elem_of_app. by right.
Qed.

Lemma reach_spec d S x :
  x ∈ reach d S ↔ ∃ q w, q ∈ S ∧ path d q w x.
Proof.
  unfold reach. split.
  - intros [?%elem_of_nil | H]%reach_aux_sound; done.
  - intros (q & w & Hq & Hp).
    destruct (reach_aux_closed d (length S + length d) [] S) as (_ & HW & Hc).
    { unfold reach_measure. pose proof (length_filter (λ t, src t ∉ []) d). lia. }
    { intros t _ ?%elem_of_nil. done. }
    apply HW in Hq. clear HW. revert Hq.
    induction Hp as [|q a r w q' Ht Hp IH]; [done|].
    intros Hq. apply IH. by apply (Hc _ Ht).
Qed.

(** [is_lang_empty] decides emptiness of the language. *)
Lemma is_lang_empty_true A :
  is_lang_empty A = true ↔ ∀ w, ¬ accepts A w.
Proof.
  unfold is_lang_empty. rewrite bool_decide_eq_true, Forall_forall. split.
  - intros H w (q & q' & Hq & Hq' & Hp).
    apply (H q'); [|done]. apply reach_spec. eauto.
  - intros H x (q & w & Hq & Hp)%reach_spec Hx.
    apply (H w). exists q, x. done.
Qed.

Lemma is_lang_empty_false A :
  is_lang_empty A = false ↔ ∃ w, accepts A w.
Proof.
  unfold is_lang_empty. rewrite bool_decide_eq_false. split.
  - intros H. apply not_Forall_Exists in H; [|apply _].
    apply Exists_exists in H as (x & (q & w & Hq & Hp)%reach_spec & Hx).
    exists w, q, x. split_and!; [done | | done].
    destruct (decide (x ∈ finalstates A)); [done | by destruct Hx].
  - intros (w & q & q' & Hq & Hq' & Hp) H. rewrite Forall_forall in H.
    apply (H q'); [|done]. apply reach_spec. eauto.
Qed.

(** The executable membership test agrees with [accepts]. *)
Lemma run_spec d S w x :
  x ∈ run d S w ↔ ∃ q, q ∈ S ∧ path d q w x.
Proof.
  unfold run. revert S. induction w as [|a w IH]; intros S; simpl.
  - split.
    + intros Hx. exists x. split; [done | constructor].
    + intros (q & Hq & Hp). by inversion Hp; subst.
  - rewrite IH. unfold step. split.
    + intros (r & (t & -> & [[Hs Ha] Ht]%list_elem_of_filter)%list_elem_of_fmap & Hp).
      exists (src t). split; [done|].
      econstructor; [|done]. destruct t; simpl in *; by subst.
    + intros (q & Hq & Hp). inversion Hp as [|? ? r ? ? Ht Hp']; subst.
      exists r. split; [|done].
      apply list_elem_of_fmap. exists (mkTrans q a r). split; [done|].
      by apply list_elem_of_filter.
Qed.

Lemma acceptsb_spec A w : acceptsb A w = true ↔ accepts A w.
Proof.
  unfold acceptsb, accepts.
  rewrite bool_decide_eq_true, Exists_exists. split.
  - intros (x & (q & Hq & Hp)%run_spec & Hx). eauto.
  - intros (q & q' & Hq & Hq' & Hp). exists q'. split; [|done].
    apply run_spec. eauto.
Qed.

(** ** The two overloads of [noodlify_for_equation] *)

Section PipelineShape.

Variable reduce : Nfa → Nfa.

Lemma apply_reduce_empty_string P : apply_reduce reduce "" P = P.
Proof. reflexivity. Qed.

Lemma apply_reduce_spec v P :
  apply_reduce reduce v P = reduce_by_spec reduce (Some v) P.
Proof.
  unfold apply_reduce, reduce_by_spec.
  destruct (decide (v = "forward")) as [-> | Hf]; [reflexivity|].
  destruct (decide (v = "backward")) as [-> | Hb]; [reflexivity|].
  destruct (decide (v = "bidirectional")) as [-> | Hbi]; [reflexivity|].
  rewrite !decide_False by tauto. reflexivity.
Qed.

(** The overload on references unifies the left side, then runs the shared
    steps on the unified store. *)
Lemma noodlify_for_equation_ref_shape st lhs rhs inc params :
  noodlify_for_equation_ref reduce st lhs rhs inc params =
  (unify_left st lhs,
   pipeline_after_unify reduce (unify_left st lhs) lhs rhs inc (params !! "reduce")).
Proof.
  unfold noodlify_for_equation_ref, pipeline_after_unify.
  destruct lhs as [|first rest]; [reflexivity|].
  destruct (is_lang_empty _); [reflexivity|].
  destruct (is_lang_empty _); [reflexivity|].
  by destruct (params !! "reduce").
Qed.

Lemma noodlify_for_equation_ptr_shape st lhs rhs inc params :
  noodlify_for_equation_ptr reduce st lhs rhs inc params =
  (ptr_store st lhs params,
   pipeline_after_unify reduce (ptr_store st lhs params) lhs rhs inc
     (params !! "reduce")).
Proof.
  unfold noodlify_for_equation_ptr, pipeline_after_unify, ptr_store,
    recognized_reduce.
  assert ((if decide (default "" (params !! "reduce") ≠ "")
           then if decide (default "" (params !! "reduce") = "forward"
                           ∨ default "" (params !! "reduce") = "backward"
                           ∨ default "" (params !! "reduce") = "bidirectional")
                then unify_left st lhs else st
           else st) =
          (if decide (params !! "reduce" = Some "forward"
                      ∨ params !! "reduce" = Some "backward"
                      ∨ params !! "reduce" = Some "bidirectional")
           then unify_left st lhs else st)) as ->.
  { destruct (params !! "reduce") as [v|]; simpl;
      repeat case_decide; try done; exfalso; intuition congruence. }
  destruct lhs as [|first rest]; [reflexivity|].
  destruct (is_lang_empty _); [reflexivity|].
  destruct (is_lang_empty _); [reflexivity|].
  destruct (params !! "reduce") as [v|]; simpl; [|reflexivity].
  destruct (decide (v ≠ "")) as [|Hv]; [reflexivity|].
  apply dec_stable in Hv as ->. reflexivity.
Qed.

End PipelineShape.

(** The unification loop touches only the automata of the left side. *)
Lemma unify_left_length st lhs : length (unify_left st lhs) = length st.
Proof.
  unfold unify_left. revert st.
  induction lhs as [|r lhs IH]; intros st; simpl; [done|].
  by rewrite IH, length_alter.
Qed.

Lemma unify_left_other st lhs i :
  i ∉ lhs → unify_left st lhs !! i = st !! i.
Proof.
  unfold unify_left. revert st.
  induction lhs as [|r lhs IH]; intros st Hi; simpl; [done|].
  apply not_elem_of_cons in Hi as [Hne Hi].
  rewrite IH by done. by apply list_lookup_alter_ne.
Qed.
(** ** What each overload does to the left side *)

(** C3, as the code has it. The overload on references unifies the initial
    and the final states of every automaton of the left side on every call,
    before anything else, and runs the rest of the pipeline on the unified
    automata. The overload on pointers does so exactly when [params] maps
    [reduce] to [forward], [backward] or [bidirectional]; otherwise it runs
    the same steps on the automata as they are given. *)
Theorem unification_of_left_side (reduce : Nfa → Nfa) (st : list Nfa)
    (lhs : list nat) (rhs : nat) (inc : bool) (params : gmap string string) :
  noodlify_for_equation_ref reduce st lhs rhs inc params =
    (unify_left st lhs,
     pipeline_after_unify reduce (unify_left st lhs) lhs rhs inc
       (params !! "reduce")) ∧
  noodlify_for_equation_ptr reduce st lhs rhs inc params =
    (let st' := if decide (recognized_reduce params)
                then unify_left st lhs else st in
     (st', pipeline_after_unify reduce st' lhs rhs inc (params !! "reduce"))).
Proof.
  split.
  - apply noodlify_for_equation_ref_shape.
  - apply noodlify_for_equation_ptr_shape.
Qed.

(** C3 fails as stated: without the key [reduce] the overload on pointers
    leaves the left side as it is, here the automaton for {a, b} with its two
    final states. *)
Lemma unification_of_left_side_counterexample :
  (noodlify_for_equation_ptr reduce_id ex_store [0; 1] 2 false ∅).1
  ≠ unify_left ex_store [0; 1].
Proof. intros H. vm_compute in H. discriminate H. Qed.

(** C4, as the code has it. A call replaces every automaton of the left side
    by its unified version, also on the paths that return early; the
    automata the left side does not refer to (the right side among them,
    unless it is also on the left) are unchanged, and so is the number of
    automata. Equal inputs give equal results. *)
Theorem inputs_after_the_call (reduce : Nfa → Nfa) (st : list Nfa)
    (lhs : list nat) (rhs : nat) (inc : bool) (params : gmap string string) :
  let r := noodlify_for_equation_ref reduce st lhs rhs inc params in
  r.1 = unify_left st lhs ∧
  length r.1 = length st ∧
  (∀ i, i ∉ lhs → r.1 !! i = st !! i) ∧
  (∀ st' lhs' rhs' inc' params',
     st' = st → lhs' = lhs → rhs' = rhs → inc' = inc → params' = params →
     noodlify_for_equation_ref reduce st' lhs' rhs' inc' params' = r).
Proof.
  cbv zeta. rewrite noodlify_for_equation_ref_shape. cbn [fst snd]. split_and!.
  - done.
  - apply unify_left_length.
  - intros i Hi. by apply unify_left_other.
  - intros st' lhs' rhs' inc' params' -> -> -> -> ->.
    apply noodlify_for_equation_ref_shape.
Qed.

(** C4 fails as stated: a call with a right side of empty language returns
    early, and still the automata of the left side are not what they were. *)
Lemma inputs_after_the_call_counterexample :
  (noodlify_for_equation_ref reduce_id ex_store_empty_rhs [0; 1] 2 false ∅).2
    = Some [] ∧
  (noodlify_for_equation_ref reduce_id ex_store_empty_rhs [0; 1] 2 false ∅).1
    ≠ ex_store_empty_rhs.
Proof.
  split; [by vm_compute|].
  intros H. vm_compute in H. discriminate H.
Qed.

(** C10, as the code has it: under a recognized value of the key [reduce]
    the two overloads agree, on the noodles and on the automata they leave
    behind. *)
Theorem overloads_agree_under_reduce (reduce : Nfa → Nfa) (st : list Nfa)
    (lhs : list nat) (rhs : nat) (inc : bool) (params : gmap string string) :
  recognized_reduce params →
  noodlify_for_equation_ptr reduce st lhs rhs inc params =
  noodlify_for_equation_ref reduce st lhs rhs inc params.
Proof.
  intros Hrec.
  rewrite noodlify_for_equation_ptr_shape, noodlify_for_equation_ref_shape.
  unfold ptr_store. by rewrite decide_True.
Qed.

Lemma overloads_agree_under_reduce_witness :
  recognized_reduce {[ "reduce" := "backward" ]} ∧
  noodlify_for_equation_ptr reduce_id ex_store [0; 1] 2 false
    {[ "reduce" := "backward" ]} =
  noodlify_for_equation_ref reduce_id ex_store [0; 1] 2 false
    {[ "reduce" := "backward" ]}.
Proof.
  assert (recognized_reduce {[ "reduce" := "backward" ]}) as Hrec.
  { right. left. reflexivity. }
  split; [exact Hrec|].
  exact (overloads_agree_under_reduce reduce_id ex_store [0; 1] 2 false
           {[ "reduce" := "backward" ]} Hrec).
Defined.

(** C10 fails as stated: without the key [reduce] the overload on references
    returns one noodle for the example equation, the overload on pointers
    two. *)
Lemma overloads_agree_counterexample :
  (noodlify_for_equation_ref reduce_id ex_store [0; 1] 2 false ∅).2
  ≠ (noodlify_for_equation_ptr reduce_id ex_store [0; 1] 2 false ∅).2.
Proof. intros H. vm_compute in H. discriminate H. Qed.

(** ** Early returns *)

Section EarlyReturns.

Variable reduce : Nfa → Nfa.

Lemma pipeline_after_unify_empty (st : list Nfa) lhs rhs inc rv :
  lhs = []
  ∨ (∀ w, ¬ accepts (st !!! rhs) w)
  ∨ (∃ first rest, lhs = first :: rest ∧
       ∀ w, ¬ accepts (product_pres_eps_trans st first rest rhs
                         (fresh_epsilon st lhs rhs)) w) →
  pipeline_after_unify reduce st lhs rhs inc rv = Some [].
Proof.
  unfold pipeline_after_unify.
  intros [-> | [Hrhs | (first & rest & -> & Hprod)]]; [done | |].
  - destruct lhs as [|first rest]; [done|].
    apply is_lang_empty_true in Hrhs. by rewrite Hrhs.
  - destruct (is_lang_empty (st !!! rhs)); [done|].
    apply is_lang_empty_true in Hprod. by rewrite Hprod.
Qed.

(** The reductions of the code are those of the specification. *)
Lemma pipeline_after_unify_reduce (st : list Nfa) first rest rhs inc rv :
  (∃ w, accepts (st !!! rhs) w) →
  (∃ w, accepts (product_pres_eps_trans st first rest rhs
                   (fresh_epsilon st (first :: rest) rhs)) w) →
  pipeline_after_unify reduce st (first :: rest) rhs inc rv =
  noodlify
    (reduce_by_spec reduce rv
       (product_pres_eps_trans st first rest rhs
          (fresh_epsilon st (first :: rest) rhs)))
    (fresh_epsilon st (first :: rest) rhs) inc.
Proof.
  intros Hrhs%is_lang_empty_false Hprod%is_lang_empty_false.
  unfold pipeline_after_unify. rewrite Hrhs, Hprod.
  destruct rv as [v|]; simpl; [|done].
  by rewrite apply_reduce_spec.
Qed.

End EarlyReturns.

(** C6. With [st'] the automata as the call leaves them (the left side is
    prepared before any test): when the left side is empty, or the right
    side has an empty language, or the trimmed product of the concatenated
    left side with the right side has an empty language, either overload
    returns the empty sequence of noodles, and no error. *)
Theorem empty_input_is_not_an_error (reduce : Nfa → Nfa) (kind : LeftSide)
    (st : list Nfa) (lhs : list nat) (rhs : nat) (inc : bool)
    (params : gmap string string) :
  let st' := (noodlify_for_equation reduce kind st lhs rhs inc params).1 in
  lhs = []
  ∨ (∀ w, ¬ accepts (st' !!! rhs) w)
  ∨ (∃ first rest, lhs = first :: rest ∧
       ∀ w, ¬ accepts (product_pres_eps_trans st' first rest rhs
                         (fresh_epsilon st' lhs rhs)) w) →
  (noodlify_for_equation reduce kind st lhs rhs inc params).2 = Some [].
Proof.
  cbv zeta. destruct kind; unfold noodlify_for_equation.
  - rewrite noodlify_for_equation_ref_shape. cbn [fst snd].
    apply pipeline_after_unify_empty.
  - rewrite noodlify_for_equation_ptr_shape. cbn [fst snd].
    apply pipeline_after_unify_empty.
Qed.

Lemma empty_input_is_not_an_error_witness :
  (∀ w, ¬ accepts
          ((noodlify_for_equation reduce_id AutPtrSequence ex_store_empty_rhs
              [0; 1] 2 false ∅).1 !!! 2) w) ∧
  (noodlify_for_equation reduce_id AutPtrSequence ex_store_empty_rhs
     [0; 1] 2 false ∅).2 = Some [].
Proof.
  assert (∀ w, ¬ accepts
            ((noodlify_for_equation reduce_id AutPtrSequence ex_store_empty_rhs
                [0; 1] 2 false ∅).1 !!! 2) w) as Hrhs.
  { apply is_lang_empty_true. vm_compute. reflexivity. }
  split; [exact Hrhs|].
  apply (empty_input_is_not_an_error reduce_id AutPtrSequence ex_store_empty_rhs
           [0; 1] 2 false ∅).
  right. left. exact Hrhs.
Defined.

(** C7. Past the early returns, with [P] the trimmed product, either
    overload returns [noodlify] of [reduce(P)] under [forward], of
    [revert(reduce(revert(P)))] under [backward], of the backward reduction
    of [reduce(P)] under [bidirectional], and of [P] itself under any other
    value of the key or without the key. *)
Theorem reduce_parameter_semantics (reduce : Nfa → Nfa) (kind : LeftSide)
    (st : list Nfa) (first : nat) (rest : list nat) (rhs : nat) (inc : bool)
    (params : gmap string string) :
  let st' := (noodlify_for_equation reduce kind st (first :: rest) rhs inc
                params).1 in
  let epsilon := fresh_epsilon st' (first :: rest) rhs in
  let P := product_pres_eps_trans st' first rest rhs epsilon in
  (∃ w, accepts (st' !!! rhs) w) →
  (∃ w, accepts P w) →
  (noodlify_for_equation reduce kind st (first :: rest) rhs inc params).2 =
  noodlify (reduce_by_spec reduce (params !! "reduce") P) epsilon inc.
Proof.
  cbv zeta. destruct kind; unfold noodlify_for_equation.
  - rewrite noodlify_for_equation_ref_shape. cbn [fst snd].
    apply pipeline_after_unify_reduce.
  - rewrite noodlify_for_equation_ptr_shape. cbn [fst snd].
    apply pipeline_after_unify_reduce.
Qed.

Lemma reduce_parameter_semantics_witness :
  let st' := (noodlify_for_equation reduce_id AutRefSequence ex_store [0; 1] 2
                false {[ "reduce" := "bidirectional" ]}).1 in
  let epsilon := fresh_epsilon st' [0; 1] 2 in
  let P := product_pres_eps_trans st' 0 [1] 2 epsilon in
  (∃ w, accepts (st' !!! 2) w) ∧ (∃ w, accepts P w) ∧
  (noodlify_for_equation reduce_id AutRefSequence ex_store [0; 1] 2 false
     {[ "reduce" := "bidirectional" ]}).2 =
  noodlify (revert (reduce_id (revert (reduce_id P)))) epsilon false.
Proof.
  cbv zeta.
  assert (∃ w, accepts
            ((noodlify_for_equation reduce_id AutRefSequence ex_store [0; 1] 2
                false {[ "reduce" := "bidirectional" ]}).1 !!! 2) w) as Hrhs.
  { apply is_lang_empty_false. vm_compute. reflexivity. }
  assert (∃ w, accepts
            (product_pres_eps_trans
               (noodlify_for_equation reduce_id AutRefSequence ex_store [0; 1] 2
                  false {[ "reduce" := "bidirectional" ]}).1 0 [1] 2
               (fresh_epsilon
                  (noodlify_for_equation reduce_id AutRefSequence ex_store
                     [0; 1] 2 false {[ "reduce" := "bidirectional" ]}).1
                  [0; 1] 2)) w) as HP.
  { apply is_lang_empty_false. vm_compute. reflexivity. }
  split_and!; [exact Hrhs | exact HP |].
  exact (reduce_parameter_semantics reduce_id AutRefSequence ex_store 0 [1] 2
           false {[ "reduce" := "bidirectional" ]} Hrhs HP).
Defined.

(** ** The regex compiler: loops that may fail *)


(** An invariant of the loop state holds at the end of the loop. *)
Lemma foldlM_invariant {A B : Type} (P : B → Prop) (f : B → A → option B) l b b' :
  foldlM f b l = Some b' →
  P b →
  (∀ b x b', x ∈ l → P b → f b x = Some b' → P b') →
  P b'.
Proof.
  revert b. induction l as [|x l IH]; intros b Hfold Hb Hstep; simpl in *.
  - by simplify_eq.
  - destruct (f b x) as [b1|] eqn:Hf; simpl in *; [|done].
    apply (IH b1); [done| |].
    + eapply Hstep; [|done..]. by apply elem_of_cons; left.
    + intros b2 y b3 Hy. apply Hstep. by apply elem_of_cons; right.
Qed.


(** ** The mutators keep the automaton well formed *)

Lemma wf_nfa_weaken n I F d n' :
  n ≤ n' → wf_nfa (mkNfa n I F d) → wf_nfa (mkNfa n' I F d).
Proof.
  intros Hn (HI & HF & Hd). unfold wf_nfa in *. simpl in *. split_and!.
  - eapply Forall_impl; [exact HI|]. simpl. lia.
  - eapply Forall_impl; [exact HF|]. simpl. lia.
  - eapply Forall_impl; [exact Hd|]. unfold wf_trans. simpl. lia.
Qed.

Lemma add_new_state_wf A : wf_nfa A → wf_nfa (add_new_state A).1.
Proof.
  destruct A as [n I F d]. unfold add_new_state. simpl.
  apply wf_nfa_weaken. lia.
Qed.

Lemma add_new_state_num A :
  num_of_states (add_new_state A).1 = S (num_of_states A) ∧
  (add_new_state A).2 = num_of_states A.
Proof. done. Qed.

Lemma add_trans_wf A s a t A' :
  add_trans A s a t = Some A' → wf_nfa A → wf_nfa A'.
Proof.
  unfold add_trans. case_decide as Hst; [|done]. intros [= <-] (HI & HF & Hd).
  unfold wf_nfa. simpl. split_and!; [done..|].
  case_decide; [done|]. apply Forall_app. split; [done|].
  by apply Forall_singleton.
Qed.


Lemma make_initial_wf A s A' :
  make_initial A s = Some A' → wf_nfa A → wf_nfa A'.
Proof.
  unfold make_initial. case_decide as Hs; [|done]. intros [= <-] (HI & HF & Hd).
  unfold wf_nfa. simpl. split_and!; [|done..].
  case_decide; [done|]. apply Forall_app. split; [done|].
  by apply Forall_singleton.
Qed.

Lemma make_final_wf A s A' :
  make_final A s = Some A' → wf_nfa A → wf_nfa A'.
Proof.
  unfold make_final. case_decide as Hs; [|done]. intros [= <-] (HI & HF & Hd).
  unfold wf_nfa. simpl. split_and!; [done| |done].
  case_decide; [done|]. apply Forall_app. split; [done|].
  by apply Forall_singleton.
Qed.

(** ** [renumber_states] *)

Lemma renumber_if_unset_wf acc state acc' :
  renumber_if_unset acc state = Some acc' → wf_nfa acc.2 → wf_nfa acc'.2.
Proof.
  destruct acc as [rs nfa]. unfold renumber_if_unset. simpl.
  intros H Hwf. apply bind_Some in H as (x & Hx & H).
  destruct (is_unset x).
  - apply bind_Some in H as (rs' & Hrs & H). simplify_eq. simpl.
    by apply (add_new_state_wf nfa).
  - by simplify_eq.
Qed.

Lemma renumber_used_step_wf input_nfa acc state acc' :
  renumber_used_step input_nfa acc state = Some acc' →
  wf_nfa acc.2 → wf_nfa acc'.2.
Proof.
  destruct acc as [rs nfa]. unfold renumber_used_step. simpl.
  destruct (get_transitions_from_state _ _); [by intros; simplify_eq|].
  intros H Hwf. apply bind_Some in H as (rs' & _ & ?). simplify_eq.
  by apply (add_new_state_wf nfa).
Qed.

Lemma renumber_final_step_wf acc state acc' :
  renumber_final_step acc state = Some acc' → wf_nfa acc.2 → wf_nfa acc'.2.
Proof.
  unfold renumber_final_step. intros H Hwf.
  apply bind_Some in H as ([rs nfa] & Hren & H).
  apply renumber_if_unset_wf in Hren; [|done].
  apply bind_Some in H as (x & _ & H).
  apply bind_Some in H as (s & _ & H).
  apply bind_Some in H as (nfa' & Hfin & H). simplify_eq.
  by eapply make_final_wf.
Qed.

Lemma renumber_trans_step_wf acc tr acc' :
  renumber_trans_step acc tr = Some acc' → wf_nfa acc.2 → wf_nfa acc'.2.
Proof.
  unfold renumber_trans_step. intros H Hwf.
  apply bind_Some in H as ([rs nfa] & Hren & H).
  apply renumber_if_unset_wf in Hren; [|done].
  apply bind_Some in H as (x & _ & H).
  apply bind_Some in H as (y & _ & H).
  apply bind_Some in H as (s & _ & H).
  apply bind_Some in H as (t & _ & H).
  apply bind_Some in H as (nfa' & Hadd & H). simplify_eq.
  by eapply add_trans_wf.
Qed.

Lemma renumber_initial_step_wf rs nfa state nfa' :
  renumber_initial_step rs nfa state = Some nfa' → wf_nfa nfa → wf_nfa nfa'.
Proof.
  unfold renumber_initial_step. intros H Hwf.
  apply bind_Some in H as (x & _ & H).
  apply bind_Some in H as (s & _ & H).
  by eapply make_initial_wf.
Qed.

Lemma renumber_states_full_wf output_nfa program_size input_nfa rs out :
  wf_nfa output_nfa →
  renumber_states_full output_nfa program_size input_nfa = Some (rs, out) →
  wf_nfa out.
Proof.
  intros Hwf. unfold renumber_states_full. intros H.
  apply bind_Some in H as (acc1 & H1 & H).
  apply bind_Some in H as (acc2 & H2 & H).
  apply bind_Some in H as (acc3 & H3 & H).
  apply bind_Some in H as (nfa4 & H4 & H). simplify_eq.
  eapply (foldlM_invariant wf_nfa); [exact H4| |].
  - eapply (foldlM_invariant (λ acc : list Z * Nfa, wf_nfa acc.2)); [exact H3| |].
    + eapply (foldlM_invariant (λ acc : list Z * Nfa, wf_nfa acc.2));
        [exact H2| |].
      * eapply (foldlM_invariant (λ acc : list Z * Nfa, wf_nfa acc.2));
          [exact H1|exact Hwf|].
        intros acc x acc' _ Hacc Hstep. by eapply renumber_used_step_wf.
      * intros acc x acc' _ Hacc Hstep. by eapply renumber_final_step_wf.
    + intros acc x acc' _ Hacc Hstep. by eapply renumber_trans_step_wf.
  - intros acc x acc' _ Hacc Hstep. by eapply renumber_initial_step_wf.
Qed.

(** C5. Whatever the compiled program and the mode, the automaton that
    [create_nfa] emits keeps the invariant of the data model: every state of
    its initial set, of its final set and of its transitions is below its
    number of states (for an automaton passed by the caller that has the
    invariant, the empty one for instance). *)
Theorem create_nfa_states_below_size (K : re2.EmptyOp) (nfa : Nfa)
    (prog : re2.Prog) (fuel : nat) (use_epsilon : bool) (epsilon_value : Symbol)
    (out : Nfa) :
  wf_nfa nfa →
  create_nfa K (Some nfa) prog fuel use_epsilon epsilon_value = Some out →
  wf_nfa out.
Proof.
  intros Hwf. unfold create_nfa, convert_pro_to_nfa, renumber_states. simpl.
  intros H. apply bind_Some in H as ([parser explicit_nfa] & _ & H).
  apply fmap_Some in H as ([rs out'] & H & ->).
  by eapply renumber_states_full_wf.
Qed.

(** ** The conversion only adds *)

Lemma vec_set_Some {A : Type} (v : list A) i x v' :
  vec_set v i x = Some v' → i < length v ∧ v' = <[i:=x]> v.
Proof. unfold vec_set. case_decide; [|done]. by intros [= <-]. Qed.























(** ** The state cache *)









Lemma create_nfa_states_below_size_witness :
  wf_nfa (mkNfa 0 [] [] []) ∧
  create_nfa ex_empty_op (Some (mkNfa 0 [] [] [])) ex_prog_assert 0 false 500
    = Some (mkNfa 4 [0] [3]
              [mkTrans 0 97 1; mkTrans 1 300 2; mkTrans 1 303 2;
               mkTrans 2 98 3]) ∧
  wf_nfa (mkNfa 4 [0] [3]
            [mkTrans 0 97 1; mkTrans 1 300 2; mkTrans 1 303 2; mkTrans 2 98 3]).
Proof.
  assert (wf_nfa (mkNfa 0 [] [] [])) as Hwf.
  { unfold wf_nfa. simpl. split_and!; constructor. }
  assert (create_nfa ex_empty_op (Some (mkNfa 0 [] [] [])) ex_prog_assert 0
            false 500
          = Some (mkNfa 4 [0] [3]
                    [mkTrans 0 97 1; mkTrans 1 300 2; mkTrans 1 303 2;
                     mkTrans 2 98 3])) as Hrun.
  { vm_compute. reflexivity. }
  split_and!; [exact Hwf | exact Hrun |].
  exact (create_nfa_states_below_size ex_empty_op (mkNfa 0 [] [] [])
           ex_prog_assert 0 false 500 _ Hwf Hrun).
Defined.

(** ** Restriction to a set of states, and [trim] *)

Lemma index_of_lookup_elem s l : s ∈ l → l !! index_of s l = Some s.
Proof.
  induction l as [|x l IH]; [by intros ?%elem_of_nil|].
  intros Hs. simpl. case_decide as Hx; [by subst|].
  apply elem_of_cons in Hs as [-> | Hs]; [done | by apply IH].
Qed.

Lemma index_of_lt s l : s ∈ l → index_of s l < length l.
Proof. intros Hs. eapply lookup_lt_Some. by apply index_of_lookup_elem. Qed.

Lemma index_of_inj l s s' :
  s ∈ l → s' ∈ l → index_of s l = index_of s' l → s = s'.
Proof.
  intros Hs Hs' Heq. apply index_of_lookup_elem in Hs, Hs'.
  rewrite Heq in Hs. congruence.
Qed.

Lemma index_of_lookup l i s : NoDup l → l !! i = Some s → index_of s l = i.
Proof.
  intros Hnd Hi.
  assert (s ∈ l) as Hs by (by eapply list_elem_of_lookup_2).
  apply index_of_lookup_elem in Hs.
  by eapply NoDup_lookup.
Qed.

Lemma restrict_trans_elem keep A t' :
  t' ∈ delta (restrict keep A) ↔
  ∃ t, t ∈ delta A ∧ src t ∈ keep ∧ tgt t ∈ keep ∧
       t' = rename_trans (λ s, index_of s keep) t.
Proof.
  unfold restrict. simpl. rewrite list_elem_of_fmap. split.
  - intros (t & -> & [[Hs Ht] Hin]%list_elem_of_filter). eauto.
  - intros (t & Hin & Hs & Ht & ->). exists t. split; [done|].
    by apply list_elem_of_filter.
Qed.

Lemma restrict_path_sound keep A w q x :
  q ∈ keep →
  path (delta (restrict keep A)) (index_of q keep) w x →
  ∃ q', q' ∈ keep ∧ x = index_of q' keep ∧ path (delta A) q w q'.
Proof.
  revert q. induction w as [|a w IH]; intros q Hq Hp.
  - inversion Hp; subst. exists q. split_and!; [done..|constructor].
  - inversion Hp as [|? ? r ? ? Ht Hp']; subst.
    apply restrict_trans_elem in Ht as (t & Hin & Hs & Ht & Heq).
    unfold rename_trans in Heq. simplify_eq.
    assert (src t = q) as <- by (by apply (index_of_inj keep)).
    destruct (IH _ Ht Hp') as (q' & Hq' & -> & Hpath).
    exists q'. split_and!; [done..|].
    econstructor; [|done]. by destruct t.
Qed.

Lemma restrict_accepts_sound keep A w :
  accepts (restrict keep A) w → accepts A w.
Proof.
  intros (q & q' & Hq & Hq' & Hp). unfold restrict in Hq, Hq'. simpl in *.
  apply list_elem_of_fmap in Hq as (q0 & -> & [Hk0 Hi0]%list_elem_of_filter).
  apply list_elem_of_fmap in Hq' as (q1 & -> & [Hk1 Hi1]%list_elem_of_filter).
  apply restrict_path_sound in Hp as (q2 & Hk2 & Heq & Hp); [|done].
  assert (q1 = q2) as <- by (by apply (index_of_inj keep)).
  exists q0, q1. done.
Qed.

Lemma restrict_path_complete keep A q w q' :
  path (delta A) q w q' →
  (∀ u v r, w = u ++ v → path (delta A) q u r → path (delta A) r v q' → r ∈ keep) →
  path (delta (restrict keep A)) (index_of q keep) w (index_of q' keep).
Proof.
  induction 1 as [|q a r w q' Ht Hp IH]; intros Hkeep; [constructor|].
  assert (q ∈ keep) as Hq.
  { apply (Hkeep [] (a :: w) q); [done | constructor | by econstructor]. }
  assert (r ∈ keep) as Hr.
  { apply (Hkeep [a] w r); [done | | done].
    econstructor; [done | constructor]. }
  econstructor.
  - apply restrict_trans_elem. exists (mkTrans q a r). done.
  - apply IH. intros u v r' -> Hu Hv.
    apply (Hkeep (a :: u) v r'); [done | by econstructor | done].
Qed.

Lemma restrict_accepts_complete keep A w :
  (∀ q q' u v r, q ∈ initialstates A → q' ∈ finalstates A → w = u ++ v →
     path (delta A) q u r → path (delta A) r v q' → r ∈ keep) →
  accepts A w → accepts (restrict keep A) w.
Proof.
  intros Hkeep (q & q' & Hq & Hq' & Hp).
  exists (index_of q keep), (index_of q' keep). split_and!.
  - unfold restrict. simpl. apply list_elem_of_fmap. exists q. split; [done|].
    apply list_elem_of_filter. split; [|done].
    apply (Hkeep q q' [] w q); [done.. | constructor | done].
  - unfold restrict. simpl. apply list_elem_of_fmap. exists q'. split; [done|].
    apply list_elem_of_filter. split; [|done].
    apply (Hkeep q q' w [] q'); [done.. | by rewrite app_nil_r | done | constructor].
  - apply restrict_path_complete; [done|]. intros u v r. by apply Hkeep.
Qed.

Lemma restrict_wf keep A : wf_nfa (restrict keep A).
Proof.
  unfold wf_nfa, restrict. simpl. split_and!.
  - apply Forall_fmap, Forall_forall. intros s [Hs _]%list_elem_of_filter.
    by apply index_of_lt.
  - apply Forall_fmap, Forall_forall. intros s [Hs _]%list_elem_of_filter.
    by apply index_of_lt.
  - apply Forall_fmap, Forall_forall.
    intros t [[Hs Ht] _]%list_elem_of_filter.
    split; simpl; by apply index_of_lt.
Qed.

Lemma useful_states_elem A s :
  s ∈ useful_states A ↔
  s < num_of_states A ∧
  (∃ q u, q ∈ initialstates A ∧ path (delta A) q u s) ∧
  (∃ q' v, q' ∈ finalstates A ∧ path (delta A) s v q').
Proof.
  unfold useful_states. rewrite list_elem_of_filter, elem_of_seq, !reach_spec.
  split.
  - intros [[Hfw (q' & v & Hq' & Hv)] Hs].
    split; [lia|]. split; [done|].
    exists q', (reverse v). split; [done|]. by apply path_revert_inv.
  - intros (Hs & Hfw & (q' & v & Hq' & Hv)).
    split; [|lia]. split; [done|].
    exists q', (reverse v). split; [done|]. by apply path_revert.
Qed.

Lemma useful_states_NoDup A : NoDup (useful_states A).
Proof. unfold useful_states. apply NoDup_filter, NoDup_seq. Qed.

Lemma trim_sound A w : accepts (trim A) w → accepts A w.
Proof. apply restrict_accepts_sound. Qed.

Lemma useful_on_accepting_path A q q' u v r :
  wf_nfa A → q ∈ initialstates A → q' ∈ finalstates A →
  path (delta A) q u r → path (delta A) r v q' → r ∈ useful_states A.
Proof.
  intros (HI & _ & Hd) Hq Hq' Hu Hv. apply useful_states_elem. split_and!.
  - eapply path_wf; [done.. |]. rewrite Forall_forall in HI. by apply HI.
  - eauto.
  - eauto.
Qed.

Lemma trim_accepts A w : wf_nfa A → accepts (trim A) w ↔ accepts A w.
Proof.
  intros Hwf. split; [apply trim_sound|].
  apply restrict_accepts_complete.
  intros q q' u v r Hq Hq' _ Hu Hv. by eapply useful_on_accepting_path.
Qed.

Lemma trim_wf A : wf_nfa (trim A).
Proof. apply restrict_wf. Qed.

Lemma trim_is_trim A : wf_nfa A → is_trim (trim A).
Proof.
  intros Hwf s' Hs'. unfold trim, restrict in Hs'. simpl in Hs'.
  destruct (lookup_lt_is_Some_2 _ _ Hs') as [s Hs].
  assert (s ∈ useful_states A) as Hin by (by eapply list_elem_of_lookup_2).
  pose proof Hin as (_ & (q & u & Hq & Hu) & (q' & v & Hq' & Hv))%useful_states_elem.
  assert (index_of s (useful_states A) = s') as Hidx.
  { apply index_of_lookup; [apply useful_states_NoDup | done]. }
  assert (∀ x, x = q ∨ x = q' → x ∈ useful_states A) as Hends.
  { intros x [-> | ->].
    - eapply (useful_on_accepting_path A q q' [] (u ++ v));
        [done.. | constructor | by eapply path_app].
    - eapply (useful_on_accepting_path A q q' (u ++ v) []);
        [done.. | by eapply path_app | constructor]. }
  exists (index_of q (useful_states A)), u, v, (index_of q' (useful_states A)).
  split_and!.
  - unfold trim, restrict. simpl. apply list_elem_of_fmap. exists q.
    split; [done|]. apply list_elem_of_filter. split; [|done]. apply Hends. by left.
  - unfold trim, restrict. simpl. apply list_elem_of_fmap. exists q'.
    split; [done|]. apply list_elem_of_filter. split; [|done]. apply Hends. by right.
  - rewrite <- Hidx. apply restrict_path_complete; [done|].
    intros u1 u2 r -> Hu1 Hu2.
    eapply (useful_on_accepting_path A q q' u1 (u2 ++ v)); [done..|].
    by eapply path_app.
  - rewrite <- Hidx. apply restrict_path_complete; [done|].
    intros v1 v2 r -> Hv1 Hv2.
    eapply (useful_on_accepting_path A q q' (u ++ v1) v2); [done.. | | done].
    by eapply path_app.
Qed.

Lemma accepts_num_of_states A w :
  wf_nfa A → accepts A w → 0 < num_of_states A.
Proof.
  intros (HI & _ & _) (q & _ & Hq & _). rewrite Forall_forall in HI.
  specialize (HI _ Hq). lia.
Qed.

Lemma trim_symbols A t : t ∈ delta (trim A) → ∃ t0, t0 ∈ delta A ∧ symb t0 = symb t.
Proof.
  intros (t0 & Hin & _ & _ & ->)%restrict_trans_elem. exists t0. done.
Qed.

(** ** [revert] *)

Lemma revert_accepts A w : accepts (revert A) w ↔ accepts A (reverse w).
Proof.
  unfold accepts, revert. simpl. split.
  - intros (q & q' & Hq & Hq' & Hp). exists q', q.
    split_and!; [done..|]. by apply path_revert_inv.
  - intros (q & q' & Hq & Hq' & Hp). exists q', q.
    split_and!; [done..|]. apply path_revert in Hp.
    by rewrite reverse_involutive in Hp.
Qed.

Lemma revert_wf A : wf_nfa A → wf_nfa (revert A).
Proof.
  intros (HI & HF & Hd). unfold wf_nfa, revert. simpl. split_and!; [done..|].
  apply Forall_fmap. eapply Forall_impl; [exact Hd|].
  intros t [? ?]. by split.
Qed.

Lemma revert_is_trim A : is_trim A → is_trim (revert A).
Proof.
  intros Htrim s Hs. destruct (Htrim s Hs) as (q & u & v & q' & Hq & Hq' & Hu & Hv).
  exists q', (reverse v), (reverse u), q. unfold revert. simpl.
  split_and!; [done.. | by apply path_revert | by apply path_revert].
Qed.

Lemma revert_revert_delta (d : list Trans) :
  revert_trans <$> (revert_trans <$> d) = d.
Proof.
  induction d as [|t d IH]; [done|]. simpl.
  rewrite revert_trans_involutive. by f_equal.
Qed.

(** ** Unification of the initial and of the final states *)

Lemma unify_initial_wf A : wf_nfa A → wf_nfa (unify_initial A).
Proof.
  intros (HI & HF & Hd). unfold wf_nfa, unify_initial. simpl. split_and!.
  - apply Forall_singleton. lia.
  - case_decide.
    + apply Forall_app. split; [|apply Forall_singleton; lia].
      eapply Forall_impl; [exact HF|]. simpl. lia.
    + eapply Forall_impl; [exact HF|]. simpl. lia.
  - apply Forall_app. split.
    + eapply Forall_impl; [exact Hd|]. unfold wf_trans. lia.
    + apply Forall_fmap, Forall_forall. intros t [_ Ht]%list_elem_of_filter.
      rewrite Forall_forall in Hd. destruct (Hd _ Ht).
      unfold wf_trans. simpl. lia.
Qed.

(** From a state of [A] the unified automaton has the paths of [A]. *)
Lemma unify_initial_path_old A q w q' :
  wf_nfa A → q < num_of_states A →
  path (delta (unify_initial A)) q w q' →
  path (delta A) q w q' ∧ q' < num_of_states A.
Proof.
  intros (_ & _ & Hd) Hq Hp. rewrite Forall_forall in Hd.
  induction Hp as [|q a r w q' Ht Hp IH]; [split; [constructor | done]|].
  unfold unify_initial in Ht. simpl in Ht.
  apply elem_of_app in Ht as [Ht | Ht].
  - destruct (Hd _ Ht) as [_ Hr]. simpl in Hr.
    destruct (IH Hr) as [Hp' Hq']. split; [by econstructor | done].
  - apply list_elem_of_fmap in Ht as (t & Heq & _). simplify_eq. lia.
Qed.

Lemma unify_initial_accepts A w :
  wf_nfa A → accepts (unify_initial A) w ↔ accepts A w.
Proof.
  intros Hwf. pose proof Hwf as (HI & HF & Hd).
  rewrite Forall_forall in HI. rewrite Forall_forall in HF.
  rewrite Forall_forall in Hd. split.
  - intros (q & q' & Hq & Hq' & Hp). unfold unify_initial in Hq, Hq'.
    simpl in Hq, Hq'. apply list_elem_of_singleton in Hq as ->.
    assert (∀ x, x < num_of_states A →
              x ∈ (if decide (Exists (λ q, q ∈ finalstates A) (initialstates A))
                   then finalstates A ++ [num_of_states A] else finalstates A) →
              x ∈ finalstates A) as Hfin.
    { intros x Hx. case_decide; [|done].
      intros [? | ->%list_elem_of_singleton]%elem_of_app; [done | lia]. }
    inversion Hp as [|? a r ? ? Ht Hp']; subst.
    + case_decide as Hex; [|by apply HF in Hq'; lia].
      apply Exists_exists in Hex as (x & Hx & Hxf).
      exists x, x. split_and!; [done..|constructor].
    + unfold unify_initial in Ht. simpl in Ht.
      apply elem_of_app in Ht as [Ht | Ht].
      { destruct (Hd _ Ht) as [Hs _]. simpl in Hs. lia. }
      apply list_elem_of_fmap in Ht as (t & Heq & [Hsrc Ht]%list_elem_of_filter).
      simplify_eq. destruct (Hd _ Ht) as [_ Hr].
      apply unify_initial_path_old in Hp' as [Hp' Hq'']; [|done..].
      exists (src t), q'. split_and!; [done | by apply Hfin |].
      econstructor; [|done]. by destruct t.
  - intros (q & q' & Hq & Hq' & Hp).
    exists (num_of_states A). unfold unify_initial. simpl.
    inversion Hp as [|? a r ? ? Ht Hp']; subst.
    + exists (num_of_states A). split_and!.
      * by apply list_elem_of_singleton.
      * rewrite decide_True.
        -- apply elem_of_app. right. by apply list_elem_of_singleton.
        -- apply Exists_exists. eauto.
      * constructor.
    + exists q'. split_and!.
      * by apply list_elem_of_singleton.
      * case_decide; [|done]. apply elem_of_app. by left.
      * econstructor.
        -- apply elem_of_app. right. apply list_elem_of_fmap.
           exists (mkTrans q a r). split; [done|].
           by apply list_elem_of_filter.
        -- eapply path_mono; [|done]. intros t0 Ht0. apply elem_of_app. by left.
Qed.

Lemma unify_final_copies (F : list nat) (n : nat) (d : list Trans) :
  (λ t, mkTrans (src t) (symb t) n) <$> filter (λ t, tgt t ∈ F) d =
  revert_trans <$>
    ((λ t, mkTrans n (symb t) (tgt t)) <$>
       filter (λ t, src t ∈ F) (revert_trans <$> d)).
Proof.
  induction d as [|t d IH]; [done|].
  rewrite fmap_cons, !filter_cons. simpl.
  destruct (decide (tgt t ∈ F)); simpl; [f_equal|]; exact IH.
Qed.

Lemma unify_final_revert A : unify_final A = revert (unify_initial (revert A)).
Proof.
  unfold unify_final, revert, unify_initial. simpl. f_equal.
  rewrite fmap_app, revert_revert_delta. f_equal.
  apply unify_final_copies.
Qed.

Lemma unify_final_wf A : wf_nfa A → wf_nfa (unify_final A).
Proof.
  intros Hwf. rewrite unify_final_revert.
  by apply revert_wf, unify_initial_wf, revert_wf.
Qed.

Lemma unify_final_accepts A w :
  wf_nfa A → accepts (unify_final A) w ↔ accepts A w.
Proof.
  intros Hwf. rewrite unify_final_revert, revert_accepts.
  rewrite unify_initial_accepts by (by apply revert_wf).
  by rewrite revert_accepts, reverse_involutive.
Qed.

(** The loop over the left side keeps every automaton well formed and
    keeps its language. *)
Lemma unify_left_spec (st : list Nfa) lhs :
  Forall wf_nfa st →
  Forall wf_nfa (unify_left st lhs) ∧
  ∀ i w, accepts (unify_left st lhs !!! i) w ↔ accepts (st !!! i) w.
Proof.
  unfold unify_left. revert st.
  induction lhs as [|r lhs IH]; intros st Hwf; simpl; [done|].
  destruct (IH (alter (λ A, unify_final (unify_initial A)) r st)) as [Hwf' Hacc].
  { apply Forall_alter; [done|]. intros A _ HA.
    by apply unify_final_wf, unify_initial_wf. }
  split; [done|]. intros i w. rewrite Hacc.
  rewrite list_lookup_total_alter. case_decide as Hi; [|done].
  destruct Hi as [-> Hlt].
  assert (wf_nfa (st !!! i)) as HA by (by apply Forall_lookup_total_1).
  rewrite unify_final_accepts by (by apply unify_initial_wf).
  by apply unify_initial_accepts.
Qed.

Lemma wf_nfa_inhabitant : wf_nfa (inhabitant : Nfa).
Proof. unfold wf_nfa. simpl. split_and!; constructor. Qed.

Lemma store_lookup_wf (st : list Nfa) i : Forall wf_nfa st → wf_nfa (st !!! i).
Proof.
  intros Hwf. destruct (decide (i < length st)) as [Hi | Hi].
  - by apply Forall_lookup_total_1.
  - rewrite list_lookup_total_alt, lookup_ge_None_2 by lia. apply wf_nfa_inhabitant.
Qed.

(** ** Concatenation over epsilon *)

Lemma concat_wf A B eps :
  wf_nfa A → wf_nfa B → wf_nfa (concatenate_over_epsilon A B eps).
Proof.
  intros (HIA & HFA & HdA) (HIB & HFB & HdB).
  rewrite Forall_forall in HIA. rewrite Forall_forall in HFA.
  rewrite Forall_forall in HIB.
  unfold wf_nfa, concatenate_over_epsilon. simpl. split_and!.
  - apply Forall_forall. intros s Hs. specialize (HIA _ Hs). lia.
  - apply Forall_fmap. eapply Forall_impl; [exact HFB|]. simpl. lia.
  - rewrite !Forall_app. split_and!.
    + eapply Forall_impl; [exact HdA|]. unfold wf_trans. lia.
    + apply Forall_fmap. eapply Forall_impl; [exact HdB|].
      unfold wf_trans. simpl. lia.
    + apply Forall_forall.
      intros t (a & (b & ->%list_elem_of_singleton & Hb)%list_elem_of_bind & Ha)%list_elem_of_bind.
      specialize (HFA _ Ha). specialize (HIB _ Hb).
      unfold wf_trans. simpl. lia.
Qed.

Lemma concat_trans_elem A B eps t :
  t ∈ delta (concatenate_over_epsilon A B eps) ↔
  t ∈ delta A
  ∨ (∃ t0, t0 ∈ delta B ∧ t = shift_trans (num_of_states A) t0)
  ∨ (∃ a b, a ∈ finalstates A ∧ b ∈ initialstates B ∧
            t = mkTrans a eps (b + num_of_states A)).
Proof.
  unfold concatenate_over_epsilon. simpl. rewrite !elem_of_app. split.
  - intros [? | [(t0 & -> & ?)%list_elem_of_fmap | H]]; [by left | right; left; eauto|].
    apply list_elem_of_bind in H as (a & H & Ha).
    apply list_elem_of_bind in H as (b & ->%list_elem_of_singleton & Hb).
    right. right. eauto.
  - intros [? | [(t0 & ? & ->) | (a & b & Ha & Hb & ->)]];
      [by left | right; left; by apply list_elem_of_fmap_2|].
    right. right. apply list_elem_of_bind. exists a. split; [|done].
    apply list_elem_of_bind. exists b. split; [|done].
    by apply list_elem_of_singleton.
Qed.

(** A path that starts in the second automaton stays there. *)
Lemma concat_path_right A B eps p w q' :
  wf_nfa A → num_of_states A ≤ p →
  path (delta (concatenate_over_epsilon A B eps)) p w q' →
  ∃ q0, q' = q0 + num_of_states A ∧ path (delta B) (p - num_of_states A) w q0.
Proof.
  intros (_ & HFA & HdA) Hp Hpath.
  rewrite Forall_forall in HFA. rewrite Forall_forall in HdA.
  induction Hpath as [p|p a r w q' Ht Hpath IH].
  - exists (p - num_of_states A). split; [lia | constructor].
  - apply concat_trans_elem in Ht
      as [Ht | [(t0 & Ht0 & Heq) | (a0 & b & Ha0 & Hb & Heq)]].
    + destruct (HdA _ Ht) as [Hs _]. simpl in Hs. lia.
    + unfold shift_trans in Heq. simplify_eq.
      destruct IH as (q0 & -> & Hq0); [lia|]. exists q0. split; [done|].
      replace (src t0 + num_of_states A - num_of_states A) with (src t0) by lia.
      replace (tgt t0 + num_of_states A - num_of_states A) with (tgt t0)
        in Hq0 by lia.
      econstructor; [|exact Hq0]. by destruct t0.
    + simplify_eq. specialize (HFA _ Ha0). lia.
Qed.

(** A path that starts in the first automaton stays there, or crosses to
    the second one over exactly one of the new epsilon-transitions. *)
Lemma concat_path_left A B eps q w q' :
  wf_nfa A → q < num_of_states A →
  path (delta (concatenate_over_epsilon A B eps)) q w q' →
  (q' < num_of_states A ∧ path (delta A) q w q')
  ∨ ∃ u v a b q0, w = u ++ eps :: v ∧ path (delta A) q u a ∧
      a ∈ finalstates A ∧ b ∈ initialstates B ∧
      q' = q0 + num_of_states A ∧ path (delta B) b v q0.
Proof.
  intros Hwf Hq Hpath. pose proof Hwf as (_ & HFA & HdA).
  rewrite Forall_forall in HdA.
  induction Hpath as [q|q a r w q' Ht Hpath IH].
  - left. split; [done | constructor].
  - apply concat_trans_elem in Ht
      as [Ht | [(t0 & Ht0 & Heq) | (a0 & b & Ha0 & Hb & Heq)]].
    + destruct (HdA _ Ht) as [_ Hr]. simpl in Hr.
      destruct (IH Hr) as [[Hq' Hp] | (u & v & a1 & b & q0 & -> & Hu & Ha1 & Hb & -> & Hv)].
      * left. split; [done | by econstructor].
      * right. exists (a :: u), v, a1, b, q0.
        split_and!; [done | by econstructor | done..].
    + unfold shift_trans in Heq. simplify_eq. lia.
    + simplify_eq. right.
      apply concat_path_right in Hpath as (q0 & -> & Hq0); [|done|lia].
      replace (b + num_of_states A - num_of_states A) with b in Hq0 by lia.
      exists [], w, a0, b, q0. split_and!; [done | constructor | done..].
Qed.

Lemma concat_path_shift A B eps p w q :
  path (delta B) p w q →
  path (delta (concatenate_over_epsilon A B eps))
       (p + num_of_states A) w (q + num_of_states A).
Proof.
  induction 1 as [|p a r w q Ht Hp IH]; [constructor|].
  econstructor; [|exact IH]. apply concat_trans_elem. right. left.
  by exists (mkTrans p a r).
Qed.

Lemma concat_accepts A B eps w :
  wf_nfa A → wf_nfa B →
  accepts (concatenate_over_epsilon A B eps) w ↔
  ∃ u v, w = u ++ eps :: v ∧ accepts A u ∧ accepts B v.
Proof.
  intros HwfA HwfB. pose proof HwfA as (HIA & _ & _).
  rewrite Forall_forall in HIA. split.
  - intros (q & q' & Hq & Hq' & Hp).
    change (initialstates (concatenate_over_epsilon A B eps))
      with (initialstates A) in Hq.
    change (finalstates (concatenate_over_epsilon A B eps))
      with ((λ s, s + num_of_states A) <$> finalstates B) in Hq'.
    apply list_elem_of_fmap in Hq' as (f & -> & Hf).
    apply concat_path_left in Hp
      as [[Hlt _] | (u & v & a & b & q0 & -> & Hu & Ha & Hb & Heq & Hv)];
      [lia | | done | by apply HIA].
    assert (q0 = f) as -> by lia.
    exists u, v. split_and!; [done | by exists q, a | by exists b, f].
  - intros (u & v & -> & (q & a & Hq & Ha & Hu) & (b & f & Hb & Hf & Hv)).
    exists q, (f + num_of_states A). split_and!.
    + done.
    + change (finalstates (concatenate_over_epsilon A B eps))
        with ((λ s, s + num_of_states A) <$> finalstates B).
      apply list_elem_of_fmap. by exists f.
    + eapply path_app.
      * eapply path_mono; [|exact Hu]. intros t Ht.
        apply concat_trans_elem. by left.
      * econstructor; [|by apply concat_path_shift].
        apply concat_trans_elem. right. right. eauto.
Qed.

(** The language of the concatenated left side. *)
Lemma concatenated_left_side_spec (st : list Nfa) first rest eps :
  Forall wf_nfa st →
  wf_nfa (concatenated_left_side st first rest eps) ∧
  ∀ w, accepts (concatenated_left_side st first rest eps) w ↔
       ∃ w0 ws, accepts (st !!! first) w0 ∧
                Forall2 (λ r v, accepts (st !!! r) v) rest ws ∧
                w = eps_join eps w0 ws.
Proof.
  intros Hst. unfold concatenated_left_side.
  assert (wf_nfa (st !!! first)) as Hwf0 by (by apply store_lookup_wf).
  generalize dependent (st !!! first). intros A0.
  revert A0. induction rest as [|r rest IH]; intros A0 Hwf0; simpl.
  - split; [done|]. intros w. split.
    + intros Hw. exists w, []. split_and!; [done | constructor |].
      unfold eps_join. simpl. by rewrite app_nil_r.
    + intros (w0 & ws & Hw0 & Hws & ->). inversion Hws; subst.
      unfold eps_join. simpl. by rewrite app_nil_r.
  - assert (wf_nfa (st !!! r)) as Hwfr by (by apply store_lookup_wf).
    destruct (IH (concatenate_over_epsilon A0 (st !!! r) eps)) as [Hwf Hacc];
      [by apply concat_wf|].
    split; [done|]. intros w. rewrite Hacc. split.
    + intros (w0 & ws & (u & v & -> & Hu & Hv)%concat_accepts & Hws & ->);
        [|done..].
      exists u, (v :: ws). split_and!; [done | by constructor |].
      unfold eps_join. simpl. by rewrite <- !app_assoc.
    + intros (w0 & ws & Hw0 & Hws & ->).
      inversion Hws as [|? v ? ws' Hv Hws']; subst.
      exists (w0 ++ eps :: v), ws'. split_and!; [|done|].
      * apply concat_accepts; [done..|]. eauto.
      * unfold eps_join. simpl. by rewrite <- !app_assoc.
Qed.

(** ** Intersection over epsilon *)

Lemma pair_state_inj nB p q p' q' :
  q < nB → q' < nB → pair_state nB p q = pair_state nB p' q' → p = p' ∧ q = q'.
Proof.
  unfold pair_state. intros Hq Hq' Heq.
  destruct (Nat.lt_trichotomy p p') as [H | [H | H]].
  - assert ((p + 1) * nB ≤ p' * nB) by (apply Nat.mul_le_mono_r; lia). lia.
  - subst. lia.
  - assert ((p' + 1) * nB ≤ p * nB) by (apply Nat.mul_le_mono_r; lia). lia.
Qed.

Lemma pair_state_lt nA nB p q : p < nA → q < nB → pair_state nB p q < nA * nB.
Proof.
  unfold pair_state. intros Hp Hq.
  assert ((p + 1) * nB ≤ nA * nB) by (apply Nat.mul_le_mono_r; lia). lia.
Qed.

Lemma product_trans_elem A B eps t :
  t ∈ product_delta A B eps ↔
  (∃ tA tB, tA ∈ delta A ∧ tB ∈ delta B ∧ symb tA ≠ eps ∧ symb tB = symb tA ∧
     t = mkTrans (pair_state (num_of_states B) (src tA) (src tB)) (symb tA)
                 (pair_state (num_of_states B) (tgt tA) (tgt tB)))
  ∨ (∃ tA q, tA ∈ delta A ∧ symb tA = eps ∧ q < num_of_states B ∧
       t = mkTrans (pair_state (num_of_states B) (src tA) q) eps
                   (pair_state (num_of_states B) (tgt tA) q))
  ∨ (∃ tB p, tB ∈ delta B ∧ symb tB = eps ∧ p < num_of_states A ∧
       t = mkTrans (pair_state (num_of_states B) p (src tB)) eps
                   (pair_state (num_of_states B) p (tgt tB))).
Proof.
  unfold product_delta. rewrite !elem_of_app. split.
  - intros [H | [H | H]].
    + apply list_elem_of_bind in H as (tA & H & [HA HinA]%list_elem_of_filter).
      apply list_elem_of_bind in H as (tB & H & [HB HinB]%list_elem_of_filter).
      apply list_elem_of_singleton in H. left. exists tA, tB. done.
    + apply list_elem_of_bind in H as (tA & H & [HA HinA]%list_elem_of_filter).
      apply list_elem_of_bind in H as (q & H & Hq%elem_of_seq).
      apply list_elem_of_singleton in H. right. left. exists tA, q.
      split_and!; [done.. | lia | done].
    + apply list_elem_of_bind in H as (tB & H & [HB HinB]%list_elem_of_filter).
      apply list_elem_of_bind in H as (p & H & Hp%elem_of_seq).
      apply list_elem_of_singleton in H. right. right. exists tB, p.
      split_and!; [done.. | lia | done].
  - intros [(tA & tB & HinA & HinB & HA & HB & ->)
           | [(tA & q & HinA & HA & Hq & ->) | (tB & p & HinB & HB & Hp & ->)]].
    + left. apply list_elem_of_bind. exists tA.
      split; [|by apply list_elem_of_filter].
      apply list_elem_of_bind. exists tB.
      split; [|by apply list_elem_of_filter]. by apply list_elem_of_singleton.
    + right. left. apply list_elem_of_bind. exists tA.
      split; [|by apply list_elem_of_filter].
      apply list_elem_of_bind. exists q.
      split; [by apply list_elem_of_singleton | apply elem_of_seq; lia].
    + right. right. apply list_elem_of_bind. exists tB.
      split; [|by apply list_elem_of_filter].
      apply list_elem_of_bind. exists p.
      split; [by apply list_elem_of_singleton | apply elem_of_seq; lia].
Qed.

Lemma strip_cons_eps eps w : strip eps (eps :: w) = strip eps w.
Proof. unfold strip. rewrite filter_cons. by rewrite decide_False by tauto. Qed.

Lemma strip_cons_ne eps a w : a ≠ eps → strip eps (a :: w) = a :: strip eps w.
Proof. intros Ha. unfold strip. rewrite filter_cons. by rewrite decide_True. Qed.

Lemma product_path_sound A B eps w p q x :
  wf_nfa B → epsilon_free eps B → q < num_of_states B →
  path (product_delta A B eps) (pair_state (num_of_states B) p q) w x →
  ∃ p' q', x = pair_state (num_of_states B) p' q' ∧ q' < num_of_states B ∧
    path (delta A) p w p' ∧ path (delta B) q (strip eps w) q'.
Proof.
  intros (_ & _ & HdB) HepsB. rewrite Forall_forall in HdB.
  revert p q. induction w as [|a w IH]; intros p q Hq Hp.
  - inversion Hp; subst. exists p, q. split_and!; [done.. | constructor | constructor].
  - inversion Hp as [|? ? r ? ? Ht Hp']; subst.
    apply product_trans_elem in Ht
      as [(tA & tB & HinA & HinB & HA & HB & Heq)
         | [(tA & q0 & HinA & HA & Hq0 & Heq) | (tB & p0 & HinB & HB & _)]].
    + destruct (HdB _ HinB) as [HsB HtB].
      injection Heq as Hsrc -> ->.
      apply pair_state_inj in Hsrc as [-> ->]; [|done..].
      destruct (IH _ _ HtB Hp') as (p' & q' & -> & Hq' & HpA & HpB).
      exists p', q'. split_and!; [done..| |].
      * econstructor; [|done]. by destruct tA.
      * rewrite strip_cons_ne by done. econstructor; [|done].
        rewrite <- HB. by destruct tB.
    + injection Heq as Hsrc -> ->.
      apply pair_state_inj in Hsrc as [-> ->]; [|done..].
      destruct (IH _ _ Hq0 Hp') as (p' & q' & -> & Hq' & HpA & HpB).
      exists p', q'. split_and!; [done..| |].
      * econstructor; [|done]. rewrite <- HA. by destruct tA.
      * by rewrite strip_cons_eps.
    + by apply HepsB in HinB.
Qed.

Lemma product_path_complete A B eps p w p' q q' :
  wf_nfa B → q < num_of_states B →
  path (delta A) p w p' → path (delta B) q (strip eps w) q' →
  path (product_delta A B eps) (pair_state (num_of_states B) p q) w
       (pair_state (num_of_states B) p' q').
Proof.
  intros (_ & _ & HdB) Hq HpA. rewrite Forall_forall in HdB.
  revert q Hq. induction HpA as [p|p a r w p' Ht HpA IH]; intros q Hq HpB.
  - inversion HpB; subst. constructor.
  - destruct (decide (a = eps)) as [-> | Ha].
    + rewrite strip_cons_eps in HpB. econstructor; [|by apply IH].
      apply product_trans_elem. right. left. exists (mkTrans p eps r), q. done.
    + rewrite strip_cons_ne in HpB by done.
      inversion HpB as [|? ? s ? ? HtB HpB']; subst.
      destruct (HdB _ HtB) as [_ Hs]. simpl in Hs.
      econstructor; [|by apply IH].
      apply product_trans_elem. left.
      exists (mkTrans p a r), (mkTrans q a s). done.
Qed.

Lemma full_product_accepts A B eps w :
  wf_nfa B → epsilon_free eps B →
  accepts (full_product A B eps) w ↔ accepts A w ∧ accepts B (strip eps w).
Proof.
  intros HwfB HepsB. pose proof HwfB as (HIB & HFB & _).
  rewrite Forall_forall in HIB. rewrite Forall_forall in HFB.
  unfold accepts at 1. unfold full_product. simpl. split.
  - intros (x & x' & Hx & Hx' & Hp).
    apply list_elem_of_bind in Hx as (p & Hx & Hp0).
    apply list_elem_of_bind in Hx as (q & ->%list_elem_of_singleton & Hq0).
    apply list_elem_of_bind in Hx' as (pf & Hx' & Hpf).
    apply list_elem_of_bind in Hx' as (qf & ->%list_elem_of_singleton & Hqf).
    apply product_path_sound in Hp as (p' & q' & Heq & Hq' & HpA & HpB);
      [|done..|by apply HIB].
    apply pair_state_inj in Heq as [-> ->]; [|by apply HFB|done].
    split; [by exists p, p' | by exists q, q'].
  - intros [(p & p' & Hp & Hp' & HpA) (q & q' & Hq & Hq' & HpB)].
    exists (pair_state (num_of_states B) p q), (pair_state (num_of_states B) p' q').
    split_and!.
    + apply list_elem_of_bind. exists p. split; [|done].
      apply list_elem_of_bind. exists q. split; [|done].
      by apply list_elem_of_singleton.
    + apply list_elem_of_bind. exists p'. split; [|done].
      apply list_elem_of_bind. exists q'. split; [|done].
      by apply list_elem_of_singleton.
    + apply product_path_complete; [done | by apply HIB | done..].
Qed.

Lemma full_product_wf A B eps :
  wf_nfa A → wf_nfa B → wf_nfa (full_product A B eps).
Proof.
  intros (HIA & HFA & HdA) (HIB & HFB & HdB).
  rewrite Forall_forall in HIA. rewrite Forall_forall in HFA.
  rewrite Forall_forall in HdA. rewrite Forall_forall in HIB.
  rewrite Forall_forall in HFB. rewrite Forall_forall in HdB.
  unfold wf_nfa, full_product. simpl. split_and!.
  - apply Forall_forall.
    intros x (p & (q & ->%list_elem_of_singleton & Hq)%list_elem_of_bind & Hp)%list_elem_of_bind.
    apply pair_state_lt; auto.
  - apply Forall_forall.
    intros x (p & (q & ->%list_elem_of_singleton & Hq)%list_elem_of_bind & Hp)%list_elem_of_bind.
    apply pair_state_lt; auto.
  - apply Forall_forall. intros t Ht.
    apply product_trans_elem in Ht
      as [(tA & tB & HinA & HinB & _ & _ & ->)
         | [(tA & q & HinA & _ & Hq & ->) | (tB & p & HinB & _ & Hp & ->)]].
    + destruct (HdA _ HinA), (HdB _ HinB).
      split; simpl; by apply pair_state_lt.
    + destruct (HdA _ HinA). split; simpl; by apply pair_state_lt.
    + destruct (HdB _ HinB). split; simpl; by apply pair_state_lt.
Qed.

Lemma reachable_states_elem A s :
  s ∈ reachable_states A ↔
  s < num_of_states A ∧ ∃ q u, q ∈ initialstates A ∧ path (delta A) q u s.
Proof.
  unfold reachable_states. rewrite list_elem_of_filter, elem_of_seq, reach_spec.
  split; [intros [? ?]; split; [lia | done] | intros [? ?]; split; [done | lia]].
Qed.

Lemma intersection_over_epsilon_accepts A B eps w :
  wf_nfa A → wf_nfa B → epsilon_free eps B →
  accepts (intersection_over_epsilon A B eps) w ↔
  accepts A w ∧ accepts B (strip eps w).
Proof.
  intros HwfA HwfB HepsB. rewrite <- full_product_accepts by done.
  unfold intersection_over_epsilon. split; [apply restrict_accepts_sound|].
  apply restrict_accepts_complete. intros q q' u v r Hq Hq' _ Hu Hv.
  pose proof (full_product_wf A B eps HwfA HwfB) as (HI & _ & Hd).
  apply reachable_states_elem. split; [|eauto].
  eapply path_wf; [done.. |]. rewrite Forall_forall in HI. by apply HI.
Qed.

(** The trimmed product of the pipeline. *)
Lemma trimmed_product_spec A B eps :
  wf_nfa A → wf_nfa B → epsilon_free eps B →
  let P := trim (intersection_over_epsilon A B eps) in
  wf_nfa P ∧ is_trim P ∧
  ∀ w, accepts P w ↔ accepts A w ∧ accepts B (strip eps w).
Proof.
  intros HwfA HwfB HepsB P.
  assert (wf_nfa (intersection_over_epsilon A B eps)) as Hwf
    by apply restrict_wf.
  split_and!.
  - apply trim_wf.
  - by apply trim_is_trim.
  - intros w. unfold P. rewrite trim_accepts by done.
    by apply intersection_over_epsilon_accepts.
Qed.

(** ** Segmentation: what every depth holds *)

Lemma compute_epsilon_depths_elem A eps fuel V L E t :
  E ∈ compute_epsilon_depths A eps fuel V L → t ∈ E →
  t ∈ delta A ∧ symb t = eps.
Proof.
  revert V L. induction fuel as [|fuel IH]; intros V L HE Ht; simpl in HE.
  - by apply elem_of_nil in HE.
  - destruct (filter _ (delta A)) as [|e es] eqn:Hf; [by apply elem_of_nil in HE|].
    apply elem_of_cons in HE as [-> | HE]; [|by eapply IH].
    rewrite <- Hf in Ht. apply list_elem_of_filter in Ht as [[? _] ?]. done.
Qed.

Lemma epsilon_depth_list_elem A eps E t :
  E ∈ epsilon_depth_list A eps → t ∈ E → t ∈ delta A ∧ symb t = eps.
Proof. apply compute_epsilon_depths_elem. Qed.

Lemma non_epsilon_delta_elem A eps t :
  t ∈ non_epsilon_delta A eps ↔ t ∈ delta A ∧ symb t ≠ eps.
Proof. unfold non_epsilon_delta. rewrite list_elem_of_filter. tauto. Qed.

Lemma segment_at_segment_of A eps i :
  wf_nfa A → segment_of A eps (segment_at A eps (epsilon_depth_list A eps) i).
Proof.
  intros (HI & HF & Hd). rewrite Forall_forall in Hd.
  unfold segment_of, segment_at. simpl. split_and!; [done..| |].
  - destruct i as [|j]; [done|].
    destruct (epsilon_depth_list A eps !! j) as [E|] eqn:HE; simpl; [|constructor].
    apply Forall_forall. intros s [t [-> Ht]]%elem_of_remove_dups%list_elem_of_fmap.
    apply list_elem_of_lookup_2 in HE.
    destruct (epsilon_depth_list_elem _ _ _ _ HE Ht) as [Hin _].
    by destruct (Hd _ Hin).
  - destruct (epsilon_depth_list A eps !! i) as [E|] eqn:HE; [|done].
    apply Forall_forall. intros s [t [-> Ht]]%elem_of_remove_dups%list_elem_of_fmap.
    apply list_elem_of_lookup_2 in HE.
    destruct (epsilon_depth_list_elem _ _ _ _ HE Ht) as [Hin _].
    by destruct (Hd _ Hin).
Qed.

(** ** The memo *)

Lemma memo_ok_insert A eps memo x y :
  memo_ok A eps memo →
  memo_ok A eps (<[(x, y) := segment_instance A eps x y]> memo).
Proof.
  intros Hok x' y' N. destruct (decide ((x, y) = (x', y'))) as [Heq | Hne].
  - simplify_eq. rewrite lookup_insert_eq. congruence.
  - rewrite lookup_insert_ne by done. apply Hok.
Qed.

Lemma memo_first_ok A eps inc S memo :
  segment_of A eps S → initialstates S = initialstates A →
  memo_ok A eps memo →
  memo_ok A eps (memo_first (num_of_states A) inc S memo).
Proof.
  intros (Hn & Hd & _ & HF) HI. unfold memo_first.
  revert memo. induction HF as [|f F Hf HF IH]; intros memo Hok; simpl; [done|].
  apply IH.
  assert (trim (set_finalstates S [f])
          = segment_instance A eps (num_of_states A) f) as ->.
  { unfold segment_instance, set_finalstates.
    rewrite decide_True by done. rewrite decide_False by lia.
    by rewrite Hn, HI, Hd. }
  destruct (keep_segment _ _); [by apply memo_ok_insert | done].
Qed.

Lemma memo_last_ok A eps inc S memo :
  segment_of A eps S → finalstates S = finalstates A →
  memo_ok A eps memo →
  memo_ok A eps (memo_last (num_of_states A) inc S memo).
Proof.
  intros (Hn & Hd & HI & _) HF. unfold memo_last.
  revert memo. induction HI as [|i I Hi HI IH]; intros memo Hok; simpl; [done|].
  apply IH.
  assert (trim (set_initialstates S [i])
          = segment_instance A eps i (num_of_states A)) as ->.
  { unfold segment_instance, set_initialstates.
    rewrite decide_False by lia. rewrite decide_True by done.
    by rewrite Hn, HF, Hd. }
  destruct (keep_segment _ _); [by apply memo_ok_insert | done].
Qed.

Lemma memo_middle_ok A eps inc S memo :
  segment_of A eps S → memo_ok A eps memo →
  memo_ok A eps (memo_middle inc S memo).
Proof.
  intros (Hn & Hd & HI & HF). unfold memo_middle.
  revert memo. induction HI as [|i I Hi HI IH]; intros memo Hok; simpl; [done|].
  apply IH. clear IH. revert memo Hok.
  induction HF as [|f F Hf HF IH]; intros memo Hok; simpl; [done|].
  apply IH.
  assert (trim (set_finalstates (set_initialstates S [i]) [f])
          = segment_instance A eps i f) as ->.
  { unfold segment_instance, set_initialstates, set_finalstates. simpl.
    rewrite !decide_False by lia. by rewrite Hn, Hd. }
  destruct (keep_segment _ _); [by apply memo_ok_insert | done].
Qed.

Lemma build_memo_ok A eps inc size i segments memo :
  (∀ j S, segments !! j = Some S →
     segment_of A eps S ∧
     (i + j = 0 → initialstates S = initialstates A) ∧
     (Datatypes.S (i + j) = size → finalstates S = finalstates A)) →
  memo_ok A eps memo →
  memo_ok A eps (build_memo (num_of_states A) inc size i segments memo).
Proof.
  revert i memo. induction segments as [|S segments IH]; intros i memo Hseg Hok;
    simpl; [done|].
  destruct (Hseg 0 S eq_refl) as (HS & Hfirst & Hlast).
  apply IH.
  - intros j S' HS'. specialize (Hseg (Datatypes.S j) S' HS').
    by replace (Datatypes.S i + j) with (i + Datatypes.S j) by lia.
  - case_decide as Hi; [apply memo_first_ok; [done | apply Hfirst; lia | done]|].
    case_decide as Hi'; [apply memo_last_ok; [done | apply Hlast; lia | done]|].
    by apply memo_middle_ok.
Qed.

Lemma segments_memo_ok A eps inc :
  wf_nfa A →
  let segments := get_untrimmed_segments (segmentation A eps) in
  memo_ok A eps
    (build_memo (num_of_states A) inc (length segments) 0 segments ∅).
Proof.
  intros Hwf segments. apply build_memo_ok; [|by intros x y N ?].
  intros j S HS. unfold segments, segmentation in HS.
  cbn [get_untrimmed_segments] in HS.
  rewrite list_lookup_fmap in HS.
  destruct (seq 0 _ !! j) as [j'|] eqn:Hj; [|done].
  apply lookup_seq in Hj as [-> Hj]. cbn [fmap option_fmap option_map] in HS.
  injection HS as <-. rewrite !Nat.add_0_l.
  split; [by apply segment_at_segment_of|]. split.
  - by intros ->.
  - intros Hlast. unfold segments, segmentation in Hlast.
    cbn [get_untrimmed_segments] in Hlast.
    rewrite length_fmap, length_seq in Hlast.
    unfold segment_at. cbn [finalstates].
    by rewrite lookup_ge_None_2 by lia.
Qed.

(** ** The noodle of an assignment *)

Lemma middle_segments_chain A eps memo e rest middle l N :
  memo_ok A eps memo →
  middle_segments memo (e :: rest) = Some middle →
  last (e :: rest) = Some l →
  memo !! (tgt l, num_of_states A) = Some N →
  middle ++ [N] =
  (λ key, segment_instance A eps key.1 key.2)
    <$> chain_keys (num_of_states A) (tgt e) rest.
Proof.
  intros Hok. revert e middle.
  induction rest as [|e' rest IH]; intros e middle Hmid Hlast HN.
  - simpl in *. simplify_eq. simpl. f_equal. by apply Hok.
  - cbn [middle_segments] in Hmid.
    apply bind_Some in Hmid as (seg & Hseg & Hmid).
    apply bind_Some in Hmid as (middle' & Hmid' & Hmid). simplify_eq.
    rewrite last_cons_cons in Hlast.
    simpl. f_equal; [by apply Hok|]. by apply IH.
Qed.

Lemma noodle_of_chain A eps memo en noodle :
  memo_ok A eps memo →
  noodle_of memo (num_of_states A) en = Some (Some noodle) →
  ∃ e rest, en = e :: rest ∧
    noodle = (λ key, segment_instance A eps key.1 key.2)
               <$> ((num_of_states A, src e)
                      :: chain_keys (num_of_states A) (tgt e) rest).
Proof.
  intros Hok. unfold noodle_of. intros H.
  apply bind_Some in H as (e0 & He0 & H).
  apply bind_Some in H as (l & Hl & H).
  destruct en as [|e rest]; [done|]. simpl in He0. simplify_eq.
  apply bind_Some in H as (first & Hfirst & H).
  apply bind_Some in H as (middle & Hmid & H).
  apply bind_Some in H as (lastseg & Hlast & H). simplify_eq.
  exists e0, rest. split; [done|]. simpl. f_equal; [by apply Hok|].
  by eapply middle_segments_chain.
Qed.

Lemma chain_keys_length n x en : length (chain_keys n x en) = S (length en).
Proof. revert x. induction en as [|e en IH]; intros x; simpl; [done | by rewrite IH]. Qed.

(** A word of a segment instance is a path of the automaton without
    epsilon. *)
Lemma segment_instance_accepts A eps x y w :
  accepts (segment_instance A eps x y) w →
  Forall (λ a, a ≠ eps) w ∧
  ∃ q q', path (delta A) q w q' ∧
    (if decide (x = num_of_states A) then q ∈ initialstates A else q = x) ∧
    (if decide (y = num_of_states A) then q' ∈ finalstates A else q' = y).
Proof.
  intros (q & q' & Hq & Hq' & Hp)%trim_sound. simpl in *. split.
  - apply path_symbols in Hp. eapply Forall_impl; [exact Hp|].
    intros a (t & [_ Ht]%non_epsilon_delta_elem & <-). done.
  - exists q, q'. split_and!.
    + eapply path_mono; [|exact Hp]. by intros t [? _]%non_epsilon_delta_elem.
    + destruct (decide (x = num_of_states A));
        [done | by apply list_elem_of_singleton in Hq].
    + destruct (decide (y = num_of_states A));
        [done | by apply list_elem_of_singleton in Hq'].
Qed.

Lemma chain_accepts A eps x en ws :
  wf_nfa A → x < num_of_states A →
  Forall (λ e, e ∈ delta A ∧ symb e = eps) en →
  Forall2 (λ key w, accepts (segment_instance A eps key.1 key.2) w)
          (chain_keys (num_of_states A) x en) ws →
  ∃ w0 ws' q', ws = w0 :: ws' ∧ q' ∈ finalstates A ∧
    path (delta A) x (eps_join eps w0 ws') q' ∧
    Forall (Forall (λ a, a ≠ eps)) ws.
Proof.
  intros Hwf. pose proof Hwf as (_ & _ & Hd). rewrite Forall_forall in Hd.
  revert x ws. induction en as [|e en IH]; intros x ws Hx Hen Hws; simpl in Hws.
  - inversion Hws as [|? w0 ? ws' Hw0 Hws']; subst. inversion Hws'; subst.
    apply segment_instance_accepts in Hw0 as (Hfree & q & q' & Hp & Hq & Hq').
    simpl in Hq, Hq'. rewrite decide_False in Hq by lia.
    rewrite decide_True in Hq' by done. subst.
    exists w0, [], q'. split_and!; [done.. | | by repeat constructor].
    unfold eps_join. simpl. by rewrite app_nil_r.
  - inversion Hws as [|? w0 ? ws' Hw0 Hws']; subst.
    apply Forall_cons in Hen as [[He Heps] Hen].
    destruct (Hd _ He) as [Hsrc Htgt].
    apply segment_instance_accepts in Hw0 as (Hfree & q & q' & Hp & Hq & Hq').
    simpl in Hq, Hq'. rewrite decide_False in Hq by lia.
    rewrite decide_False in Hq' by lia. subst.
    destruct (IH _ _ Htgt Hen Hws') as (w1 & ws1 & qf & -> & Hqf & Hp' & Hfree').
    exists w0, (w1 :: ws1), qf. split_and!; [done.. | | by constructor].
    unfold eps_join in *. simpl. eapply path_app; [exact Hp|].
    econstructor; [|exact Hp']. by destruct e.
Qed.

Lemma noodle_chain_accepts A eps e rest ws :
  wf_nfa A →
  Forall (λ e, e ∈ delta A ∧ symb e = eps) (e :: rest) →
  Forall2 (λ key w, accepts (segment_instance A eps key.1 key.2) w)
          ((num_of_states A, src e) :: chain_keys (num_of_states A) (tgt e) rest)
          ws →
  ∃ w0 ws', ws = w0 :: ws' ∧ accepts A (eps_join eps w0 ws') ∧
    Forall (Forall (λ a, a ≠ eps)) ws.
Proof.
  intros Hwf Hen Hws. pose proof Hwf as (_ & _ & Hd). rewrite Forall_forall in Hd.
  inversion Hws as [|? w0 ? ws' Hw0 Hws']; subst.
  apply Forall_cons in Hen as [[He Heps] Hen].
  destruct (Hd _ He) as [Hsrc Htgt].
  apply segment_instance_accepts in Hw0 as (Hfree & q & q' & Hp & Hq & Hq').
  simpl in Hq, Hq'. rewrite decide_True in Hq by done.
  rewrite decide_False in Hq' by lia. subst.
  destruct (chain_accepts _ _ _ _ _ Hwf Htgt Hen Hws')
    as (w1 & ws1 & qf & -> & Hqf & Hp' & Hfree').
  exists w0, (w1 :: ws1). split_and!; [done | | by constructor].
  exists q, qf. split_and!; [done..|].
  unfold eps_join in *. simpl. eapply path_app; [exact Hp|].
  econstructor; [|exact Hp']. by destruct e.
Qed.

(** ** The decoding of an index *)

Lemma decode_index_spec (m : gmap nat (list Trans)) depth count temp en :
  decode_index m depth count temp = Some en →
  length en = count ∧
  ∀ j e, en !! j = Some e → ∃ E, m !! (depth + j) = Some E ∧ e ∈ E.
Proof.
  revert depth temp en. induction count as [|count IH]; intros depth temp en H;
    simpl in H.
  - simplify_eq. split; [done|]. intros j e. by rewrite lookup_nil.
  - apply bind_Some in H as (E & HE & H).
    apply bind_Some in H as (chosen & Hch & H).
    apply bind_Some in H as (rest & Hrest & H). simplify_eq.
    destruct (IH _ _ _ Hrest) as [Hlen Hall]. split; [simpl; by rewrite Hlen|].
    intros [|j] e He; simpl in He.
    + simplify_eq. exists E. rewrite Nat.add_0_r. split; [done|].
      by eapply list_elem_of_lookup_2.
    + destruct (Hall _ _ He) as (E' & HE' & Hin). exists E'.
      by replace (depth + S j) with (S depth + j) by lia.
Qed.

Lemma map_seq_size {A : Type} start (xs : list A) :
  size (map_seq start xs : gmap nat A) = length xs.
Proof.
  revert start. induction xs as [|x xs IH]; intros start; simpl.
  - apply map_size_empty.
  - rewrite map_size_insert_None; [by rewrite IH|].
    apply lookup_map_seq_None. lia.
Qed.

(** ** Soundness of [noodlify]

    Every noodle has one automaton more than there are depths, and words of
    its automata, joined by epsilon, make a word of the automaton. *)
Lemma noodlify_sound A eps inc ns noodle :
  wf_nfa A →
  noodlify A eps inc = Some ns → noodle ∈ ns →
  length noodle = S (length (epsilon_depth_list A eps)) ∧
  ∀ ws, Forall2 accepts noodle ws →
    ∃ w0 ws', ws = w0 :: ws' ∧ accepts A (eps_join eps w0 ws') ∧
      Forall (Forall (λ a, a ≠ eps)) ws.
Proof.
  intros Hwf Hnood Hin.
  pose proof (segments_memo_ok A eps inc Hwf) as Hmemo. cbv zeta in Hmemo.
  unfold noodlify in Hnood.
  unfold segmentation in Hnood, Hmemo. cbn [get_untrimmed_segments get_epsilon_depths] in *.
  destruct (epsilon_depth_list A eps) as [|E0 depths'] eqn:Hdepths.
  - (* a single segment *)
    simpl in Hnood.
    destruct (keep_segment _ _); simplify_eq; [|by apply elem_of_nil in Hin].
    apply list_elem_of_singleton in Hin as ->. split; [done|].
    intros ws Hws. inversion Hws as [|? w0 ? ws' Hw0 Hws']; subst.
    inversion Hws'; subst.
    assert (trim (segment_at A eps [] 0)
            = segment_instance A eps (num_of_states A) (num_of_states A)) as Heq.
    { unfold segment_instance, segment_at. simpl. by rewrite !decide_True. }
    rewrite Heq in Hw0.
    apply segment_instance_accepts in Hw0 as (Hfree & q & q' & Hp & Hq & Hq').
    rewrite decide_True in Hq by done. rewrite decide_True in Hq' by done.
    exists w0, []. split_and!; [done | | by repeat constructor].
    unfold eps_join. simpl. rewrite app_nil_r. by exists q, q'.
  - (* at least two segments *)
    remember (segment_at A eps (E0 :: depths') <$> seq 0 (S (length (E0 :: depths'))))
      as segments eqn:Hsegs.
    assert (∃ s0 s1 rest, segments = s0 :: s1 :: rest) as (s0 & s1 & rest & Hshape).
    { rewrite Hsegs. simpl. eauto. }
    rewrite Hshape in Hnood. rewrite <- Hshape in Hnood.
    assert (mapM (λ index,
                    decode_index (map_seq 0 (E0 :: depths')) 0
                      (size (map_seq 0 (E0 :: depths') : gmap nat (list Trans)))
                      index
                    ≫= noodle_of
                         (build_memo (num_of_states A) inc (length segments) 0
                            segments ∅) (num_of_states A))
                 (indices (get_num_of_permutations (map_seq 0 (E0 :: depths'))))
            ≫= (λ noodles, Some (omap id noodles)) = Some ns) as Hloop.
    { rewrite Hshape. rewrite Hshape in Hnood. exact Hnood. }
    clear Hnood. apply bind_Some in Hloop as (noodles & Hmap & Hns). simplify_eq.
    apply list_elem_of_omap in Hin as (x & Hx & Hid). simpl in Hid. subst x.
    apply mapM_Some_1 in Hmap.
    apply list_elem_of_lookup_1 in Hx as [i Hi].
    destruct (Forall2_lookup_r _ _ _ _ _ Hmap Hi) as (index & _ & Hbody).
    apply bind_Some in Hbody as (en & Hdec & Hnoodle).
    apply decode_index_spec in Hdec as [Hlen Hall].
    rewrite map_seq_size in Hlen.
    apply noodle_of_chain with (A := A) (eps := eps) in Hnoodle
      as (e & en' & -> & ->); [|exact Hmemo].
    assert (Forall (λ e, e ∈ delta A ∧ symb e = eps) (e :: en')) as Hen.
    { apply Forall_lookup_2. intros j t Ht.
      destruct (Hall _ _ Ht) as (E & HE & HtE).
      rewrite lookup_map_seq_0 in HE. apply list_elem_of_lookup_2 in HE.
      eapply epsilon_depth_list_elem; [|exact HtE].
      by rewrite Hdepths. }
    split.
    + rewrite length_fmap. cbn [length]. rewrite chain_keys_length.
      simpl in Hlen. simpl. lia.
    + intros ws Hws. rewrite Forall2_fmap_l in Hws.
      by eapply noodle_chain_accepts.
Qed.
(** ** The number of epsilon-depths of a leveled automaton *)

Lemma eps_count_app eps u v :
  eps_count eps (u ++ v) = eps_count eps u + eps_count eps v.
Proof. unfold eps_count. by rewrite filter_app, length_app. Qed.

Lemma eps_count_cons_eq eps v : eps_count eps (eps :: v) = S (eps_count eps v).
Proof. unfold eps_count. by rewrite filter_cons_True. Qed.

Lemma eps_count_cons_ne eps a v :
  a ≠ eps → eps_count eps (a :: v) = eps_count eps v.
Proof. intros. unfold eps_count. by rewrite filter_cons_False. Qed.

Lemma eps_count_zero eps w : eps_count eps w = 0 ↔ Forall (λ a, a ≠ eps) w.
Proof.
  induction w as [|a w IH]; [by split; [constructor|]|].
  destruct (decide (a = eps)) as [->|Hne].
  - rewrite eps_count_cons_eq. split; [lia|].
    intros [? _]%Forall_cons. done.
  - rewrite eps_count_cons_ne, IH, Forall_cons by done. tauto.
Qed.

Lemma path_non_epsilon A eps q u x :
  path (non_epsilon_delta A eps) q u x ↔
  path (delta A) q u x ∧ eps_count eps u = 0.
Proof.
  split.
  - induction 1 as [p|p a r w q' Ht Hp [IH1 IH2]]; [by split; [constructor|]|].
    apply non_epsilon_delta_elem in Ht as [Ht Hne]. simpl in Hne.
    split; [by econstructor|]. by rewrite eps_count_cons_ne.
  - intros [Hp Hc]. induction Hp as [p|p a r w q' Ht Hp IH]; [constructor|].
    destruct (decide (a = eps)) as [->|Hne].
    { by rewrite eps_count_cons_eq in Hc. }
    rewrite eps_count_cons_ne in Hc by done.
    econstructor; [|by apply IH]. by apply non_epsilon_delta_elem.
Qed.

(** A path with more than [d] epsilons splits at its epsilon number [d]. *)
Lemma path_split_at_epsilon d0 eps d q w q' :
  path d0 q w q' → d < eps_count eps w →
  ∃ u v r r', w = u ++ eps :: v ∧ eps_count eps u = d ∧
    path d0 q u r ∧ mkTrans r eps r' ∈ d0 ∧ path d0 r' v q'.
Proof.
  intros Hp. revert d.
  induction Hp as [p|p a r w q' Ht Hp IH]; intros d Hd.
  { unfold eps_count in Hd. simpl in Hd. lia. }
  destruct (decide (a = eps)) as [->|Hne].
  - rewrite eps_count_cons_eq in Hd. destruct d as [|d].
    + exists [], w, p, r. split_and!; [done..|constructor|done|done].
    + destruct (IH d) as (u & v & s & s' & -> & Hc & Hu & Hs & Hv); [lia|].
      exists (eps :: u), v, s, s'.
      split_and!; [done| |by econstructor|done|done].
      by rewrite eps_count_cons_eq, Hc.
  - rewrite eps_count_cons_ne in Hd by done.
    destruct (IH d Hd) as (u & v & s & s' & -> & Hc & Hu & Hs & Hv).
    exists (a :: u), v, s, s'.
    split_and!; [done| |by econstructor|done|done].
    by rewrite eps_count_cons_ne.
Qed.

Section Leveled.
Variables (A : Nfa) (eps : Symbol) (k : nat).
Hypothesis HA : leveled A eps k.

Lemma at_depth_rest d s :
  at_depth A eps d s →
  ∃ v q', path (delta A) s v q' ∧ q' ∈ finalstates A ∧
    d + eps_count eps v = k.
Proof.
  destruct HA as (Hwf & Htrim & _ & Hk).
  intros (q & u & Hq & Hu & Hc).
  assert (s < num_of_states A) as Hs.
  { destruct Hwf as (HI & _ & Hd). rewrite Forall_forall in HI.
    eapply path_wf; [exact Hd | exact Hu | by apply HI]. }
  destruct (Htrim s Hs) as (q0 & u0 & v & q' & Hq0 & Hq' & Hu0 & Hv).
  exists v, q'. split_and!; [done..|].
  rewrite <- Hc, <- eps_count_app. apply Hk.
  exists q, q'. split_and!; [done..|]. by eapply path_app.
Qed.

Lemma at_depth_le d s : at_depth A eps d s → d ≤ k.
Proof. intros (v & q' & _ & _ & ?)%at_depth_rest. lia. Qed.

Lemma at_depth_unique d d' s :
  at_depth A eps d s → at_depth A eps d' s → d = d'.
Proof.
  destruct HA as (Hwf & Htrim & _ & Hk).
  intros Hd (q & u & Hq & Hu & Hc).
  destruct (at_depth_rest _ _ Hd) as (v & q' & Hv & Hq' & Hdk).
  assert (eps_count eps (u ++ v) = k) as Hsum.
  { apply Hk. exists q, q'. split_and!; [done..|]. by eapply path_app. }
  rewrite eps_count_app in Hsum. lia.
Qed.

Lemma at_depth_step d t :
  t ∈ delta A → symb t = eps → at_depth A eps d (src t) →
  at_depth A eps (S d) (tgt t).
Proof.
  intros Ht Hs (q & u & Hq & Hu & Hc). exists q, (u ++ [eps]).
  split_and!; [done| |].
  - eapply path_snoc; [done|]. destruct t; simpl in *; by subst.
  - rewrite eps_count_app, eps_count_cons_eq, Hc. unfold eps_count. simpl. lia.
Qed.

Lemma at_depth_non_epsilon d s u s' :
  at_depth A eps d s → path (non_epsilon_delta A eps) s u s' →
  at_depth A eps d s'.
Proof.
  intros (q & u0 & Hq & Hu0 & Hc) [Hu Hz]%path_non_epsilon.
  exists q, (u0 ++ u). split_and!; [done|by eapply path_app|].
  rewrite eps_count_app. lia.
Qed.

(** In every depth below [k] some epsilon-transition leaves. *)
Lemma depth_transition d :
  d < k → ∃ t, t ∈ delta A ∧ symb t = eps ∧ at_depth A eps d (src t).
Proof.
  destruct HA as (Hwf & Htrim & (w & q & q' & Hq & Hq' & Hp) & Hk).
  intros Hd.
  assert (eps_count eps w = k) as Hw by (apply Hk; by exists q, q').
  destruct (path_split_at_epsilon _ eps d _ _ _ Hp)
    as (u & v & r & r' & -> & Hc & Hu & Ht & Hv); [lia|].
  exists (mkTrans r eps r'). split_and!; [done..|]. by exists q, u.
Qed.

Lemma depth_count_le j :
  j ≤ k → ∃ l, length l = j ∧ NoDup l ∧
    ∀ t, t ∈ l → t ∈ delta A ∧ ∃ d, d < j ∧ at_depth A eps d (src t).
Proof.
  induction j as [|j IH]; intros Hj.
  - exists []. split_and!; [done|constructor|]. by intros t ?%elem_of_nil.
  - destruct IH as (l & Hlen & Hnd & Hl); [lia|].
    destruct (depth_transition j) as (t & Ht & Hs & Hd); [lia|].
    exists (t :: l). split_and!.
    + simpl. by rewrite Hlen.
    + constructor; [|done]. intros (_ & d & Hlt & Hd')%Hl.
      pose proof (at_depth_unique _ _ _ Hd Hd'). lia.
    + intros t' [->|Hin]%elem_of_cons.
      * split; [done|]. exists j. split; [lia|done].
      * destruct (Hl _ Hin) as (? & d & ? & ?). split; [done|].
        exists d. split; [lia|done].
Qed.

Lemma depths_le_delta : k ≤ length (delta A).
Proof.
  destruct (depth_count_le k) as (l & <- & Hnd & Hl); [done|].
  apply submseteq_length, NoDup_submseteq; [done|].
  intros t Ht. by apply Hl.
Qed.

Lemma compute_epsilon_depths_spec fuel d V L :
  d ≤ k → k - d < fuel →
  (∀ s, s ∈ L ↔ at_depth A eps d s) →
  (∀ s, s ∈ V → ∃ d', d' < d ∧ at_depth A eps d' s) →
  length (compute_epsilon_depths A eps fuel V L) = k - d ∧
  ∀ j E, compute_epsilon_depths A eps fuel V L !! j = Some E →
    ∀ t, t ∈ E ↔ t ∈ delta A ∧ symb t = eps ∧ at_depth A eps (d + j) (src t).
Proof.
  revert d V L. induction fuel as [|fuel IH]; intros d V L Hd Hf HL HV; [lia|].
  simpl.
  destruct (filter _ (delta A)) as [|e es] eqn:HE.
  - split; [|intros j E; by rewrite lookup_nil].
    destruct (decide (d = k)) as [->|Hne]; [simpl; lia|]. exfalso.
    destruct (depth_transition d) as (t & Ht & Hs & Hdt); [lia|].
    assert (t ∈ filter (λ t, symb t = eps ∧ src t ∈ L) (delta A)) as Hin.
    { apply list_elem_of_filter. split; [|done]. split; [done|]. by apply HL. }
    rewrite HE in Hin. by apply elem_of_nil in Hin.
  - assert (∀ t, t ∈ e :: es ↔
              t ∈ delta A ∧ symb t = eps ∧ at_depth A eps d (src t)) as HEs.
    { intros t. rewrite <- HE, list_elem_of_filter, HL. tauto. }
    assert (d < k) as Hlt.
    { destruct (HEs e) as [(Ht & Hs & Hd') _]; [left|].
      pose proof (at_depth_le _ _ (at_depth_step _ _ Ht Hs Hd')). lia. }
    destruct (IH (S d) (L ++ V)
                (filter (λ s, s ∉ L ++ V)
                   (reach (non_epsilon_delta A eps) (tgt <$> e :: es))))
      as [IHlen IHlookup]; [lia|lia| | |].
    + intros s. rewrite list_elem_of_filter, reach_spec. split.
      * intros (_ & q & w & Hq & Hp).
        apply list_elem_of_fmap in Hq as (t & -> & Ht).
        apply HEs in Ht as (Ht & Hs & Hd').
        eapply at_depth_non_epsilon; [|done]. by apply at_depth_step.
      * intros Hs. split.
        { intros [Hin|Hin]%elem_of_app.
          - apply HL in Hin. pose proof (at_depth_unique _ _ _ Hs Hin). lia.
          - apply HV in Hin as (d' & ? & Hd').
            pose proof (at_depth_unique _ _ _ Hs Hd'). lia. }
        destruct Hs as (q & u & Hq & Hu & Hc).
        destruct (path_split_at_epsilon _ eps d _ _ _ Hu)
          as (u1 & u2 & r & r' & -> & Hc1 & Hu1 & Ht & Hu2); [lia|].
        rewrite eps_count_app, eps_count_cons_eq in Hc.
        exists r', u2. split.
        { apply list_elem_of_fmap. exists (mkTrans r eps r'). split; [done|].
          apply HEs. split_and!; [done..|]. by exists q, u1. }
        apply path_non_epsilon. split; [done|lia].
    + intros s [Hin|Hin]%elem_of_app.
      * exists d. split; [lia|]. by apply HL.
      * destruct (HV _ Hin) as (d' & ? & ?). exists d'. split; [lia|done].
    + split.
      * cbn [length]. cbn [fmap list_fmap] in IHlen |- *.
        etrans; [apply f_equal, IHlen|]. lia.
      * intros [|j] E Hj t.
        { injection Hj as <-. rewrite Nat.add_0_r. apply HEs. }
        rewrite Nat.add_succ_r. by apply (IHlookup j E).
Qed.

Lemma epsilon_depth_list_spec :
  length (epsilon_depth_list A eps) = k ∧
  ∀ j E, epsilon_depth_list A eps !! j = Some E →
    ∀ t, t ∈ E ↔ t ∈ delta A ∧ symb t = eps ∧ at_depth A eps j (src t).
Proof.
  unfold epsilon_depth_list.
  destruct (compute_epsilon_depths_spec (S (length (delta A))) 0 []
              (reach (non_epsilon_delta A eps) (initialstates A)))
    as [Hlen Hlookup]; [lia| | | |].
  - pose proof depths_le_delta. lia.
  - intros s. rewrite reach_spec. split.
    + intros (q & w & Hq & [Hp Hc]%path_non_epsilon). by exists q, w.
    + intros (q & w & Hq & Hp & Hc). exists q, w. split; [done|].
      by apply path_non_epsilon.
  - by intros s ?%elem_of_nil.
  - split; [lia|done].
Qed.

Lemma epsilon_depth_list_length : length (epsilon_depth_list A eps) = k.
Proof. apply epsilon_depth_list_spec. Qed.
End Leveled.
(** ** Soundness of the noodles of an equation *)

Lemma lang_concat_fmap {X} (f : X → list Symbol → Prop) (l : list X) w :
  lang_concat (f <$> l) w ↔ ∃ ws, Forall2 f l ws ∧ w = concat ws.
Proof.
  revert w. induction l as [|x l IH]; intros w; simpl.
  - split.
    + intros ->. exists []. by split; [constructor|].
    + intros (ws & Hws & ->). by apply Forall2_nil_inv_l in Hws as ->.
  - split.
    + intros (u & v & -> & Hu & (ws & Hws & ->)%IH).
      exists (u :: ws). by split; [constructor|].
    + intros (ws & Hws & ->).
      apply Forall2_cons_inv_l in Hws as (u & ws' & Hu & Hws' & ->).
      exists u, (concat ws'). split_and!; [done..|].
      apply IH. by exists ws'.
Qed.

Lemma get_next_value_gt alphabet a : a ∈ alphabet → a < get_next_value alphabet.
Proof.
  induction alphabet as [|b l IH]; [by intros ?%elem_of_nil|].
  intros [->|Hin]%elem_of_cons; simpl; [lia|].
  specialize (IH Hin). lia.
Qed.

Lemma fresh_epsilon_free (st : list Nfa) lhs rhs r :
  r ∈ lhs ∨ r = rhs → epsilon_free (fresh_epsilon st lhs rhs) (st !!! r).
Proof.
  intros Hr t Ht. unfold fresh_epsilon.
  enough (symb t < get_next_value
            (add_symbols_from (from_nfas ((λ r, st !!! r) <$> lhs)) (st !!! rhs)))
    by lia.
  apply get_next_value_gt. unfold add_symbols_from, from_nfas.
  apply elem_of_app. destruct Hr as [Hr | ->].
  - left. apply list_elem_of_bind. exists (st !!! r). split.
    + unfold symbols_of. apply list_elem_of_fmap. by exists t.
    + apply list_elem_of_fmap. by exists r.
  - right. unfold symbols_of. apply list_elem_of_fmap. by exists t.
Qed.

Lemma epsilon_free_accepts eps A w :
  epsilon_free eps A → accepts A w → Forall (λ a, a ≠ eps) w.
Proof.
  intros Hfree (q & q' & _ & _ & Hp).
  apply path_symbols in Hp. eapply Forall_impl; [exact Hp|].
  intros a (t & Ht & <-). by apply Hfree.
Qed.

Lemma strip_app eps u v : strip eps (u ++ v) = strip eps u ++ strip eps v.
Proof. apply filter_app. Qed.

Lemma strip_free eps w : Forall (λ a, a ≠ eps) w → strip eps w = w.
Proof.
  induction 1 as [|a w Ha Hw IH]; [done|].
  by rewrite strip_cons_ne, IH.
Qed.

Lemma strip_eps_join eps w0 ws :
  Forall (λ a, a ≠ eps) w0 → Forall (Forall (λ a, a ≠ eps)) ws →
  strip eps (eps_join eps w0 ws) = concat (w0 :: ws).
Proof.
  intros H0 Hws. unfold eps_join. rewrite strip_app, strip_free by done.
  cbn [concat]. f_equal. induction Hws as [|w ws Hw Hws IH]; [done|].
  rewrite bind_cons, strip_app, strip_cons_eps, strip_free by done.
  cbn [concat]. by f_equal.
Qed.

Lemma eps_count_eps_join eps w0 ws :
  Forall (λ a, a ≠ eps) w0 → Forall (Forall (λ a, a ≠ eps)) ws →
  eps_count eps (eps_join eps w0 ws) = length ws.
Proof.
  intros H0 Hws. unfold eps_join.
  apply eps_count_zero in H0. rewrite eps_count_app, H0. cbn [Nat.add].
  induction Hws as [|w ws Hw Hws IH]; [done|].
  rewrite bind_cons, eps_count_app, eps_count_cons_eq, IH.
  apply eps_count_zero in Hw. cbn [length]. lia.
Qed.

Lemma split_at_first_epsilon eps (u v x y : list Symbol) :
  Forall (λ a, a ≠ eps) u → Forall (λ a, a ≠ eps) v →
  u ++ eps :: x = v ++ eps :: y → u = v ∧ x = y.
Proof.
  intros Hu. revert v. induction Hu as [|a u Ha Hu IH]; intros v Hv Heq.
  - destruct Hv as [|b v Hb Hv]; simpl in Heq; [by simplify_eq|].
    by simplify_eq.
  - destruct Hv as [|b v Hb Hv]; simpl in Heq; [by simplify_eq|].
    injection Heq as -> Heq. destruct (IH _ Hv Heq) as [-> ->]. done.
Qed.

Lemma eps_join_inj eps w0 ws v0 vs :
  Forall (λ a, a ≠ eps) w0 → Forall (Forall (λ a, a ≠ eps)) ws →
  Forall (λ a, a ≠ eps) v0 → Forall (Forall (λ a, a ≠ eps)) vs →
  eps_join eps w0 ws = eps_join eps v0 vs → w0 = v0 ∧ ws = vs.
Proof.
  intros Hw0 Hws. revert w0 Hw0 v0 vs.
  induction Hws as [|w ws Hw Hws IH]; intros w0 Hw0 v0 vs Hv0 Hvs Heq.
  - destruct Hvs as [|v vs Hv Hvs]; unfold eps_join in Heq; simpl in Heq.
    + rewrite !app_nil_r in Heq. done.
    + exfalso. rewrite app_nil_r in Heq. subst w0.
      apply Forall_app in Hw0 as [_ Hw0]. by apply Forall_cons in Hw0 as [? _].
  - destruct Hvs as [|v vs Hv Hvs]; unfold eps_join in Heq; simpl in Heq.
    + exfalso. rewrite app_nil_r in Heq. subst v0.
      apply Forall_app in Hv0 as [_ Hv0]. by apply Forall_cons in Hv0 as [? _].
    + apply split_at_first_epsilon in Heq as [-> Heq]; [|done..].
      destruct (IH w Hw v vs Hv Hvs Heq) as [-> ->]. done.
Qed.

Section Soundness.

Variable reduce : Nfa → Nfa.

(** The contract of [reduce]: a well-formed automaton of the same language,
    trimmed when its argument is. *)
Hypothesis reduce_wf : ∀ A, wf_nfa A → wf_nfa (reduce A).
Hypothesis reduce_accepts :
  ∀ A w, wf_nfa A → accepts (reduce A) w ↔ accepts A w.
Hypothesis reduce_is_trim : ∀ A, wf_nfa A → is_trim A → is_trim (reduce A).

Lemma reduce_by_spec_spec rv P :
  wf_nfa P → is_trim P →
  wf_nfa (reduce_by_spec reduce rv P) ∧ is_trim (reduce_by_spec reduce rv P) ∧
  ∀ w, accepts (reduce_by_spec reduce rv P) w ↔ accepts P w.
Proof.
  intros Hwf Htrim.
  assert (wf_nfa (revert (reduce (revert P))) ∧
          is_trim (revert (reduce (revert P))) ∧
          ∀ w, accepts (revert (reduce (revert P))) w ↔ accepts P w) as Hback.
  { pose proof (revert_wf _ Hwf) as Hwf'. split_and!.
    - by apply revert_wf, reduce_wf.
    - apply revert_is_trim, reduce_is_trim; [done|]. by apply revert_is_trim.
    - intros w. rewrite revert_accepts, reduce_accepts, revert_accepts by done.
      by rewrite reverse_involutive. }
  unfold reduce_by_spec. destruct rv as [v|]; [|done].
  destruct (decide (v = "forward")); [by split_and!; auto|].
  destruct (decide (v = "backward")); [done|].
  destruct (decide (v = "bidirectional")); [|done].
  pose proof (reduce_wf _ Hwf) as Hwf1.
  pose proof (reduce_is_trim _ Hwf Htrim) as Htrim1.
  pose proof (revert_wf _ Hwf1) as Hwf2. split_and!.
  - by apply revert_wf, reduce_wf.
  - apply revert_is_trim, reduce_is_trim; [done|]. by apply revert_is_trim.
  - intros w.
    rewrite revert_accepts, reduce_accepts, revert_accepts by done.
    rewrite reverse_involutive. by apply reduce_accepts.
Qed.

(** The words of the trimmed product: the words [w0 ε w1 ... ε wk] with
    [wi] in the language of the automaton number [i] of the left side and
    [w0 w1 ... wk] in the language of the right side. *)
Lemma product_pres_eps_trans_spec (st : list Nfa) first rest rhs :
  Forall wf_nfa st →
  let eps := fresh_epsilon st (first :: rest) rhs in
  let P := product_pres_eps_trans st first rest rhs eps in
  wf_nfa P ∧ is_trim P ∧
  ∀ w, accepts P w ↔
    ∃ w0 ws, w = eps_join eps w0 ws ∧
      Forall (λ a, a ≠ eps) w0 ∧ Forall (Forall (λ a, a ≠ eps)) ws ∧
      Forall2 (λ r v, accepts (st !!! r) v) (first :: rest) (w0 :: ws) ∧
      accepts (st !!! rhs) (concat (w0 :: ws)).
Proof.
  intros Hst eps P.
  destruct (concatenated_left_side_spec st first rest eps Hst) as [HwfC HC].
  assert (epsilon_free eps (st !!! rhs)) as Hrhs
    by (apply fresh_epsilon_free; by right).
  destruct (trimmed_product_spec (concatenated_left_side st first rest eps)
              (st !!! rhs) eps HwfC (store_lookup_wf _ _ Hst) Hrhs)
    as (HwfP & HtrimP & HP).
  split_and!; [done..|]. intros w. unfold P, product_pres_eps_trans.
  rewrite HP, HC. split.
  - intros ((w0 & ws & H0 & Hws & ->) & HR).
    assert (Forall (λ a, a ≠ eps) w0) as Hf0.
    { eapply epsilon_free_accepts; [|exact H0].
      apply fresh_epsilon_free. left. by left. }
    assert (Forall (Forall (λ a, a ≠ eps)) ws) as Hfs.
    { apply Forall_lookup_2. intros i v Hv.
      destruct (Forall2_lookup_r _ _ _ _ _ Hws Hv) as (r & Hr & Hacc).
      eapply epsilon_free_accepts; [|exact Hacc].
      apply fresh_epsilon_free. left. right. by eapply list_elem_of_lookup_2. }
    exists w0, ws. split_and!; [done..|by constructor|].
    by rewrite <- (strip_eps_join eps).
  - intros (w0 & ws & -> & Hf0 & Hfs & Hall & HR).
    apply Forall2_cons in Hall as [H0 Hws]. split.
    + by exists w0, ws.
    + by rewrite strip_eps_join.
Qed.

Lemma product_pres_eps_trans_leveled (st : list Nfa) first rest rhs :
  Forall wf_nfa st →
  let eps := fresh_epsilon st (first :: rest) rhs in
  let P := product_pres_eps_trans st first rest rhs eps in
  (∃ w, accepts P w) → leveled P eps (length rest).
Proof.
  intros Hst eps P Hne.
  destruct (product_pres_eps_trans_spec st first rest rhs Hst)
    as (Hwf & Htrim & HP).
  split_and!; [done..|]. intros w Hw.
  apply HP in Hw as (w0 & ws & -> & Hf0 & Hfs & Hall & _).
  fold eps. rewrite eps_count_eps_join by done.
  apply Forall2_cons in Hall as [_ Hall]. symmetry. by eapply Forall2_length.
Qed.

Lemma pipeline_after_unify_sound (st : list Nfa) lhs rhs inc rv ns noodle :
  Forall wf_nfa st →
  pipeline_after_unify reduce st lhs rhs inc rv = Some ns → noodle ∈ ns →
  length noodle = length lhs ∧
  ∀ w, lang_concat (accepts <$> noodle) w →
    accepts (st !!! rhs) w ∧
    lang_concat ((λ r, accepts (st !!! r)) <$> lhs) w.
Proof.
  intros Hst Hrun Hin.
  destruct lhs as [|first rest].
  { simpl in Hrun. simplify_eq. by apply elem_of_nil in Hin. }
  destruct (is_lang_empty (st !!! rhs)) eqn:Hrhs.
  { unfold pipeline_after_unify in Hrun. rewrite Hrhs in Hrun.
    simplify_eq. by apply elem_of_nil in Hin. }
  set (eps := fresh_epsilon st (first :: rest) rhs) in *.
  destruct (is_lang_empty (product_pres_eps_trans st first rest rhs eps))
    eqn:Hprod.
  { unfold pipeline_after_unify in Hrun. fold eps in Hrun.
    rewrite Hrhs, Hprod in Hrun. simplify_eq. by apply elem_of_nil in Hin. }
  apply is_lang_empty_false in Hrhs, Hprod.
  rewrite pipeline_after_unify_reduce in Hrun by done. fold eps in Hrun.
  destruct (product_pres_eps_trans_spec st first rest rhs Hst)
    as (Hwf & Htrim & HP). fold eps in Hwf, Htrim, HP.
  pose proof (product_pres_eps_trans_leveled st first rest rhs Hst Hprod)
    as Hlev. fold eps in Hlev.
  destruct (reduce_by_spec_spec rv _ Hwf Htrim) as (Hwf' & Htrim' & HP').
  assert (leveled (reduce_by_spec reduce rv
                     (product_pres_eps_trans st first rest rhs eps))
                  eps (length rest)) as Hlev'.
  { destruct Hlev as (_ & _ & (w & Hw) & Hk). split_and!; [done..| |].
    - exists w. by apply HP'.
    - intros w' Hw'. by apply Hk, HP'. }
  destruct (noodlify_sound _ _ _ _ _ Hwf' Hrun Hin) as [Hlen Hsound].
  split.
  { rewrite Hlen, (epsilon_depth_list_length _ _ _ Hlev'). done. }
  intros w (ws & Hws & ->)%lang_concat_fmap.
  destruct (Hsound ws Hws) as (w0 & ws' & -> & Hacc & Hfree).
  apply HP', HP in Hacc as (v0 & vs & Heq & Hf0 & Hfs & Hall & HR).
  apply Forall_cons in Hfree as [Hw0 Hws'].
  apply eps_join_inj in Heq as [-> ->]; [|done..].
  split; [done|]. apply lang_concat_fmap. by exists (v0 :: vs).
Qed.

End Soundness.
(** ** Soundness of [noodlify_for_equation] *)

Lemma ptr_store_spec (st : list Nfa) lhs params :
  Forall wf_nfa st →
  Forall wf_nfa (ptr_store st lhs params) ∧
  ∀ i w, accepts (ptr_store st lhs params !!! i) w ↔ accepts (st !!! i) w.
Proof.
  intros Hst. unfold ptr_store.
  destruct (decide (recognized_reduce params)); [by apply unify_left_spec|done].
Qed.

Lemma lang_concat_ext {X} (f g : X → list Symbol → Prop) (l : list X) w :
  (∀ x v, f x v ↔ g x v) → lang_concat (f <$> l) w ↔ lang_concat (g <$> l) w.
Proof.
  intros Hfg. revert w. induction l as [|x l IH]; intros w; simpl; [done|].
  split; intros (u & v & -> & Hu & Hv); exists u, v;
    (split_and!; [done|by apply Hfg|by apply IH]).
Qed.

(** C1. Noodle soundness. The automata of the store are well formed, and
    [reduce] keeps its contract (a well-formed automaton of the same
    language, trimmed when its argument is). Then every noodle that either
    overload returns for the left side [lhs] and the right side [rhs] has as
    many automata as [lhs], and every word of the concatenation of the
    languages of its automata is a word of the right side and of the
    concatenation of the languages of the left side. *)
Theorem noodle_soundness (reduce : Nfa → Nfa) (kind : LeftSide)
    (st : list Nfa) (lhs : list nat) (rhs : nat) (inc : bool)
    (params : gmap string string) (ns : list (list Nfa)) (noodle : list Nfa) :
  (∀ A, wf_nfa A → wf_nfa (reduce A)) →
  (∀ A w, wf_nfa A → accepts (reduce A) w ↔ accepts A w) →
  (∀ A, wf_nfa A → is_trim A → is_trim (reduce A)) →
  Forall wf_nfa st →
  (noodlify_for_equation reduce kind st lhs rhs inc params).2 = Some ns →
  noodle ∈ ns →
  length noodle = length lhs ∧
  ∀ w, lang_concat (accepts <$> noodle) w →
    accepts (st !!! rhs) w ∧
    lang_concat ((λ r, accepts (st !!! r)) <$> lhs) w.
Proof.
  intros Hrwf Hracc Hrtrim Hst Hrun Hin.
  assert (∃ st', Forall wf_nfa st' ∧
            (∀ i w, accepts (st' !!! i) w ↔ accepts (st !!! i) w) ∧
            pipeline_after_unify reduce st' lhs rhs inc (params !! "reduce")
            = Some ns) as (st' & Hst' & Hsame & Hpipe).
  { destruct kind; unfold noodlify_for_equation in Hrun.
    - rewrite noodlify_for_equation_ref_shape in Hrun. cbn [snd] in Hrun.
      exists (unify_left st lhs).
      destruct (unify_left_spec st lhs Hst). done.
    - rewrite noodlify_for_equation_ptr_shape in Hrun. cbn [snd] in Hrun.
      exists (ptr_store st lhs params).
      destruct (ptr_store_spec st lhs params Hst). done. }
  destruct (pipeline_after_unify_sound reduce Hrwf Hracc Hrtrim
              st' lhs rhs inc _ ns noodle Hst' Hpipe Hin) as [Hlen Hsound].
  split; [done|]. intros w Hw. destruct (Hsound w Hw) as [HR HL].
  split; [by apply Hsame|].
  eapply lang_concat_ext; [|exact HL]. intros r v. symmetry. apply Hsame.
Qed.

Lemma noodle_soundness_witness :
  length ex_noodle = length [0; 1] ∧
  ∀ w, lang_concat (accepts <$> ex_noodle) w →
    accepts (ex_store !!! 2) w ∧
    lang_concat ((λ r, accepts (ex_store !!! r)) <$> [0; 1]) w.
Proof.
  assert (Forall wf_nfa ex_store) as Hst.
  { repeat constructor; vm_compute; lia. }
  assert ((noodlify_for_equation reduce_id AutRefSequence ex_store [0; 1] 2
             false {[ "reduce" := "forward" ]}).2 = Some [ex_noodle]) as Hrun.
  { vm_compute. reflexivity. }
  assert (ex_noodle ∈ [ex_noodle]) as Hin by left.
  exact (noodle_soundness reduce_id AutRefSequence ex_store [0; 1] 2 false
           {[ "reduce" := "forward" ]} [ex_noodle] ex_noodle
           (λ A H, H) (λ A w _, reflexivity _) (λ A _ H, H) Hst Hrun Hin).
Defined.
(** ** The number of permutations in [size_t] *)

(** C2. Noodle completeness breaks where the number of permutations
    wraps around. The left side has 65 automata that accept the empty word,
    the right side accepts the empty word: the words [w1 = ... = w65 = []]
    satisfy the equation. The product has 64 depths of two
    epsilon-transitions, so [get_num_of_permutations] returns
    [2^64 mod 2^64 = 0], the loop over the indices does not run, and either
    overload returns no noodle. *)
Theorem noodle_completeness_wraps (kind : LeftSide) :
  Forall (λ r, accepts (ex_long_store 65 !!! r) []) (ex_long_lhs 65) ∧
  accepts (ex_long_store 65 !!! 65) (concat (replicate 65 [])) ∧
  (noodlify_for_equation reduce_id kind (ex_long_store 65) (ex_long_lhs 65) 65
     false ∅).2 = Some [].
Proof.
  split_and!.
  - eapply Forall_impl; [|intros r Hr; apply acceptsb_spec; exact Hr].
    apply (bool_decide_unpack _). vm_compute. exact I.
  - apply acceptsb_spec. vm_compute. reflexivity.
  - destruct kind; vm_compute; reflexivity.
Qed.

(** The same equation with three automata on the left side: both
    overloads return noodles. *)
Lemma noodle_completeness_short (kind : LeftSide) :
  ∃ noodle ns,
    (noodlify_for_equation reduce_id kind (ex_long_store 3) (ex_long_lhs 3) 3
       false ∅).2 = Some (noodle :: ns) ∧
    Forall2 accepts noodle (replicate 3 []).
Proof.
  destruct kind.
  - eexists _, _. split; [vm_compute; reflexivity|].
    repeat constructor; apply acceptsb_spec; vm_compute; reflexivity.
  - eexists _, _. split; [vm_compute; reflexivity|].
    repeat constructor; apply acceptsb_spec; vm_compute; reflexivity.
Qed.

(** C8. The enumeration of the indices breaks where the number of
    permutations wraps around. The automaton [ex_tracks 64] has 64 depths
    of two epsilon-transitions each, a product of [2^64] assignments;
    [get_num_of_permutations] returns [0] and [noodlify] enumerates no
    index: it returns no noodle, also when it is asked to keep the empty
    segments. *)
Theorem mixed_radix_enumeration_wraps :
  length <$> epsilon_depth_list (ex_tracks 64) 0 = replicate 64 2 ∧
  get_num_of_permutations (get_epsilon_depths (segmentation (ex_tracks 64) 0))
  = 0%N ∧
  noodlify (ex_tracks 64) 0 true = Some [] ∧
  noodlify (ex_tracks 64) 0 false = Some [].
Proof. split_and!; vm_compute; reflexivity. Qed.

(** With three depths the eight indices are enumerated. *)
Lemma mixed_radix_enumeration_short :
  get_num_of_permutations (get_epsilon_depths (segmentation (ex_tracks 3) 0))
  = 8%N ∧
  length <$> noodlify (ex_tracks 3) 0 true = Some 8 ∧
  length <$> noodlify (ex_tracks 3) 0 false = Some 2.
Proof. split_and!; vm_compute; reflexivity. Qed.
(** ** The loop over the indices *)

Lemma get_num_of_permutations_map_seq start depths :
  get_num_of_permutations (map_seq start depths)
  = (radix_product depths mod size_t_modulus)%N.
Proof.
  unfold get_num_of_permutations. revert start.
  induction depths as [|E depths IH]; intros start.
  - simpl. rewrite map_fold_empty. done.
  - rewrite map_seq_cons, map_fold_insert_L.
    + rewrite IH. cbn [radix_product foldr].
      rewrite N.Div0.mul_mod_idemp_l. fold (radix_product depths).
      f_equal. apply N.mul_comm.
    + intros j1 j2 z1 z2 y _ _ _.
      rewrite !N.Div0.mul_mod_idemp_l. f_equal.
      rewrite <- !N.mul_assoc. f_equal. apply N.mul_comm.
    + apply map_seq_cons_disjoint.
Qed.

Lemma compute_epsilon_depths_nonempty A eps fuel V L E :
  E ∈ compute_epsilon_depths A eps fuel V L → E ≠ [].
Proof.
  revert V L. induction fuel as [|fuel IH]; intros V L HE; simpl in HE.
  - by apply elem_of_nil in HE.
  - destruct (filter _ (delta A)) as [|e es] eqn:Hf; [by apply elem_of_nil in HE|].
    apply elem_of_cons in HE as [-> | HE]; [done|by eapply IH].
Qed.

Lemma epsilon_depth_list_nonempty A eps :
  Forall (λ E, E ≠ []) (epsilon_depth_list A eps).
Proof.
  apply Forall_forall. intros E HE.
  by eapply compute_epsilon_depths_nonempty.
Qed.

Lemma radix_product_pos depths :
  Forall (λ E, E ≠ []) depths → (0 < radix_product depths)%N.
Proof.
  induction 1 as [|E depths HE _ IH]; simpl; [lia|].
  destruct E; [done|]. simpl. lia.
Qed.

Lemma lookup_shift {X} (m : gmap nat X) depth x (xs : list X) :
  (∀ j, m !! (depth + j) = (x :: xs) !! j) →
  ∀ j, m !! (S depth + j) = xs !! j.
Proof.
  intros Hm j. specialize (Hm (S j)). simpl in Hm. rewrite <- Hm.
  f_equal. lia.
Qed.

(** The inner loop does not fail, and its digits are the mixed-radix digits
    of the index. *)
Lemma decode_index_total (m : gmap nat (list Trans)) depths depth temp :
  (∀ j, m !! (depth + j) = depths !! j) → Forall (λ E, E ≠ []) depths →
  is_Some (decode_index m depth (length depths) temp).
Proof.
  intros Hm Hne. revert depth temp Hm.
  induction Hne as [|E depths HE _ IH]; intros depth temp Hm; simpl; [done|].
  pose proof (Hm 0) as H0. rewrite Nat.add_0_r in H0. simpl in H0.
  rewrite H0. simpl.
  destruct (lookup_lt_is_Some_2 E
              (N.to_nat (temp mod N.of_nat (length E)))) as [e He].
  { assert (temp mod N.of_nat (length E) < N.of_nat (length E))%N; [|lia].
    apply N.mod_lt. destruct E; [done|]. simpl. lia. }
  rewrite He. simpl.
  destruct (IH (S depth) (temp / N.of_nat (length E))%N) as [en Hen].
  { by eapply lookup_shift. }
  rewrite Hen. simpl. done.
Qed.

Lemma decode_index_digits (m : gmap nat (list Trans)) depths depth temp en :
  (∀ j, m !! (depth + j) = depths !! j) →
  decode_index m depth (length depths) temp = Some en →
  length en = length depths ∧
  ∀ j E, depths !! j = Some E →
    en !! j = E !! N.to_nat (radix_digit depths temp j).
Proof.
  revert depth temp en.
  induction depths as [|E0 depths IH]; intros depth temp en Hm Hdec;
    simpl in Hdec.
  - simplify_eq. split; [done|]. intros j E. by rewrite lookup_nil.
  - pose proof (Hm 0) as H0. rewrite Nat.add_0_r in H0. simpl in H0.
    rewrite H0 in Hdec. simpl in Hdec.
    apply bind_Some in Hdec as (e & He & Hdec).
    apply bind_Some in Hdec as (rest & Hrest & Hdec). simplify_eq.
    apply IH in Hrest as [Hlen Hdigits].
    2:{ by eapply lookup_shift. }
    split; [simpl; by rewrite Hlen|].
    intros [|j] E HE; simpl in HE.
    + simplify_eq. unfold radix_digit. simpl.
      rewrite N.div_1_r. done.
    + simpl. rewrite (Hdigits j E HE). unfold radix_digit. simpl.
      rewrite HE. simpl. rewrite N.Div0.div_div. done.
Qed.

(** Every assignment has its index below the product. *)
Lemma decode_index_complete (m : gmap nat (list Trans)) depths depth en :
  (∀ j, m !! (depth + j) = depths !! j) →
  Forall2 (λ E e, e ∈ E) depths en →
  ∃ i, (i < radix_product depths)%N ∧
    decode_index m depth (length depths) i = Some en.
Proof.
  intros Hm Hall. revert depth Hm.
  induction Hall as [|E e depths en He Hall IH]; intros depth Hm.
  - exists 0%N. split; [simpl; lia|done].
  - destruct (IH (S depth)) as (i' & Hlt & Hdec).
    { by eapply lookup_shift. }
    apply list_elem_of_lookup_1 in He as [p Hp].
    pose proof (lookup_lt_Some _ _ _ Hp) as Hplt.
    exists (N.of_nat p + N.of_nat (length E) * i')%N. split.
    { cbn [radix_product foldr]. fold (radix_product depths). nia. }
    simpl. pose proof (Hm 0) as H0. rewrite Nat.add_0_r in H0. simpl in H0.
    rewrite H0. simpl.
    assert ((N.of_nat p + N.of_nat (length E) * i') mod N.of_nat (length E)
            = N.of_nat p)%N as ->.
    { rewrite N.mul_comm, N.Div0.mod_add. apply N.mod_small. lia. }
    assert ((N.of_nat p + N.of_nat (length E) * i') / N.of_nat (length E)
            = i')%N as ->.
    { rewrite N.mul_comm, N.div_add by lia.
      rewrite N.div_small by lia. lia. }
    rewrite Nat2N.id, Hp. simpl. rewrite Hdec. done.
Qed.

Lemma noodle_of_total memo unused_state e en :
  is_Some (noodle_of memo unused_state (e :: en)).
Proof.
  unfold noodle_of. simpl.
  destruct (last_is_Some (e :: en)) as [_ [l Hl]]; [done|].
  rewrite Hl. simpl. done.
Qed.

(** [noodlify] on at least two segments: the loop over the indices. *)
Lemma noodlify_loop A eps inc E0 depths' :
  epsilon_depth_list A eps = E0 :: depths' →
  let depths := E0 :: depths' in
  let segments := segment_at A eps depths <$> seq 0 (S (length depths)) in
  let memo := build_memo (num_of_states A) inc (length segments) 0 segments ∅ in
  noodlify A eps inc =
  (noodles ← mapM (λ index,
                     decode_index (map_seq 0 depths) 0 (length depths) index
                       ≫= noodle_of memo (num_of_states A))
                  (indices (get_num_of_permutations (map_seq 0 depths)));
   Some (omap id noodles)).
Proof.
  intros Hdepths depths segments memo.
  unfold noodlify, segmentation.
  cbn [get_untrimmed_segments get_epsilon_depths]. rewrite Hdepths.
  fold depths. fold segments. rewrite map_seq_size.
  assert (∃ s0 s1 rest, segments = s0 :: s1 :: rest) as (s0 & s1 & rest & Hshape).
  { unfold segments, depths. simpl. eauto. }
  fold memo. clearbody memo. rewrite Hshape. done.
Qed.

Lemma noodlify_single A eps inc :
  epsilon_depth_list A eps = [] →
  noodlify A eps inc =
  if keep_segment (segment_instance A eps (num_of_states A) (num_of_states A)) inc
  then Some [[segment_instance A eps (num_of_states A) (num_of_states A)]]
  else Some [].
Proof.
  intros Hdepths. unfold noodlify, segmentation.
  cbn [get_untrimmed_segments get_epsilon_depths]. rewrite Hdepths. simpl.
  assert (trim (segment_at A eps [] 0)
          = segment_instance A eps (num_of_states A) (num_of_states A)) as ->.
  { unfold segment_instance, segment_at. simpl. by rewrite !decide_True. }
  done.
Qed.

(** [noodlify] raises no exception. *)
Lemma noodlify_total A eps inc : is_Some (noodlify A eps inc).
Proof.
  destruct (epsilon_depth_list A eps) as [|E0 depths'] eqn:Hdepths.
  - rewrite noodlify_single by done. by destruct (keep_segment _ _).
  - rewrite (noodlify_loop _ _ _ _ _ Hdepths). cbv zeta.
    match goal with |- is_Some (mapM ?f ?l ≫= _) =>
      destruct (mapM_is_Some_2 f l) as [noodles Hn] end.
    2:{ rewrite Hn. simpl. done. }
    apply Forall_forall. intros index _. unfold compose.
    destruct (decode_index_total (map_seq 0 (E0 :: depths')) (E0 :: depths')
                0 index) as [en Hen].
    { intros j. by rewrite lookup_map_seq_0. }
    { rewrite <- Hdepths. apply epsilon_depth_list_nonempty. }
    rewrite Hen. simpl.
    destruct en as [|e en]; [|apply noodle_of_total].
    apply decode_index_spec in Hen as [Hlen _]. simpl in Hlen. lia.
Qed.
(** ** The memo holds every kept segment instance *)

Lemma foldl_memo_mono {X} (step : gmap (State * State) Nfa → X → gmap (State * State) Nfa)
    (l : list X) memo key :
  (∀ memo x, is_Some (memo !! key) → is_Some (step memo x !! key)) →
  is_Some (memo !! key) → is_Some (foldl step memo l !! key).
Proof.
  intros Hstep. revert memo. induction l as [|x l IH]; intros memo H; [done|].
  simpl. by apply IH, Hstep.
Qed.

Lemma foldl_memo_has {X} (step : gmap (State * State) Nfa → X → gmap (State * State) Nfa)
    (l : list X) memo key x :
  (∀ memo x, is_Some (memo !! key) → is_Some (step memo x !! key)) →
  x ∈ l → (∀ memo, is_Some (step memo x !! key)) →
  is_Some (foldl step memo l !! key).
Proof.
  intros Hmono Hin Hx. revert memo.
  induction l as [|y l IH]; intros memo; [by apply elem_of_nil in Hin|].
  simpl. apply elem_of_cons in Hin as [<-|Hin].
  - by apply foldl_memo_mono.
  - by apply IH.
Qed.

Lemma cond_insert_mono (c : bool) (k key : State * State) (v : Nfa)
    (memo : gmap (State * State) Nfa) :
  is_Some (memo !! key) →
  is_Some ((if c then <[k := v]> memo else memo) !! key).
Proof.
  intros H. destruct c; [|done].
  destruct (decide (k = key)) as [->|Hne].
  - by rewrite lookup_insert_eq.
  - by rewrite lookup_insert_ne.
Qed.

Lemma memo_first_mono n inc S memo key :
  is_Some (memo !! key) → is_Some (memo_first n inc S memo !! key).
Proof.
  unfold memo_first. apply foldl_memo_mono.
  intros memo' f. apply cond_insert_mono.
Qed.

Lemma memo_last_mono n inc S memo key :
  is_Some (memo !! key) → is_Some (memo_last n inc S memo !! key).
Proof.
  unfold memo_last. apply foldl_memo_mono.
  intros memo' f. apply cond_insert_mono.
Qed.

Lemma memo_middle_mono inc S memo key :
  is_Some (memo !! key) → is_Some (memo_middle inc S memo !! key).
Proof.
  unfold memo_middle. apply foldl_memo_mono.
  intros memo' i. apply foldl_memo_mono.
  intros memo'' f. apply cond_insert_mono.
Qed.

Lemma memo_first_has A eps inc S memo f :
  segment_of A eps S → initialstates S = initialstates A →
  f ∈ finalstates S →
  keep_segment (segment_instance A eps (num_of_states A) f) inc = true →
  is_Some (memo_first (num_of_states A) inc S memo !! (num_of_states A, f)).
Proof.
  intros (Hn & Hd & _ & HF) HI Hf Hkeep. unfold memo_first.
  eapply foldl_memo_has; [|exact Hf|].
  { intros memo' f'. apply cond_insert_mono. }
  intros memo'. cbv zeta.
  rewrite Forall_forall in HF. specialize (HF _ Hf).
  assert (trim (set_finalstates S [f])
          = segment_instance A eps (num_of_states A) f) as ->.
  { unfold segment_instance, set_finalstates.
    rewrite decide_True by done. rewrite decide_False by lia.
    by rewrite Hn, HI, Hd. }
  rewrite Hkeep. by rewrite lookup_insert_eq.
Qed.

Lemma memo_last_has A eps inc S memo i :
  segment_of A eps S → finalstates S = finalstates A →
  i ∈ initialstates S →
  keep_segment (segment_instance A eps i (num_of_states A)) inc = true →
  is_Some (memo_last (num_of_states A) inc S memo !! (i, num_of_states A)).
Proof.
  intros (Hn & Hd & HI & _) HF Hi Hkeep. unfold memo_last.
  eapply foldl_memo_has; [|exact Hi|].
  { intros memo' i'. apply cond_insert_mono. }
  intros memo'. cbv zeta.
  rewrite Forall_forall in HI. specialize (HI _ Hi).
  assert (trim (set_initialstates S [i])
          = segment_instance A eps i (num_of_states A)) as ->.
  { unfold segment_instance, set_initialstates.
    rewrite decide_False by lia. rewrite decide_True by done.
    by rewrite Hn, HF, Hd. }
  rewrite Hkeep. by rewrite lookup_insert_eq.
Qed.

Lemma memo_middle_has A eps inc S memo i f :
  segment_of A eps S → i ∈ initialstates S → f ∈ finalstates S →
  keep_segment (segment_instance A eps i f) inc = true →
  is_Some (memo_middle inc S memo !! (i, f)).
Proof.
  intros (Hn & Hd & HI & HF) Hi Hf Hkeep. unfold memo_middle.
  eapply foldl_memo_has; [|exact Hi|].
  { intros memo' i'. apply foldl_memo_mono.
    intros memo'' f'. apply cond_insert_mono. }
  intros memo'. eapply foldl_memo_has; [|exact Hf|].
  { intros memo'' f'. apply cond_insert_mono. }
  intros memo''. cbv zeta.
  rewrite Forall_forall in HI, HF.
  specialize (HI _ Hi). specialize (HF _ Hf).
  assert (trim (set_finalstates (set_initialstates S [i]) [f])
          = segment_instance A eps i f) as ->.
  { unfold segment_instance, set_initialstates, set_finalstates. simpl.
    rewrite !decide_False by lia. by rewrite Hn, Hd. }
  rewrite Hkeep. by rewrite lookup_insert_eq.
Qed.

Lemma build_memo_mono n inc size i segments memo key :
  is_Some (memo !! key) →
  is_Some (build_memo n inc size i segments memo !! key).
Proof.
  revert i memo. induction segments as [|S segments IH]; intros i memo H; [done|].
  simpl. apply IH.
  destruct (decide (i = 0)); [by apply memo_first_mono|].
  destruct (decide (Datatypes.S i = size));
    [by apply memo_last_mono | by apply memo_middle_mono].
Qed.

Lemma build_memo_has n inc size i segments memo j S key :
  segments !! j = Some S →
  (∀ memo',
     is_Some ((if decide (i + j = 0) then memo_first n inc S memo'
               else if decide (Datatypes.S (i + j) = size)
                    then memo_last n inc S memo'
                    else memo_middle inc S memo') !! key)) →
  is_Some (build_memo n inc size i segments memo !! key).
Proof.
  revert i j memo.
  induction segments as [|S' segments IH]; intros i j memo HS Hstep;
    [by rewrite lookup_nil in HS|].
  destruct j as [|j]; simpl in HS.
  - simplify_eq. simpl. apply build_memo_mono.
    specialize (Hstep memo). by rewrite Nat.add_0_r in Hstep.
  - simpl. apply (IH (Datatypes.S i) j); [done|].
    intros memo'. specialize (Hstep memo').
    by replace (i + Datatypes.S j) with (Datatypes.S i + j) in Hstep by lia.
Qed.
(** ** Completeness of [noodlify] below the wrap-around *)

Lemma noodlify_loop_memo A eps inc :
  epsilon_depth_list A eps ≠ [] →
  let depths := epsilon_depth_list A eps in
  noodlify A eps inc =
  (noodles ← mapM (λ index,
                     decode_index (map_seq 0 depths) 0 (length depths) index
                       ≫= noodle_of (segments_memo A eps inc) (num_of_states A))
                  (indices (get_num_of_permutations (map_seq 0 depths)));
   Some (omap id noodles)).
Proof.
  intros Hne depths. unfold depths, segments_memo, segmentation.
  cbn [get_untrimmed_segments].
  destruct (epsilon_depth_list A eps) as [|E0 depths'] eqn:Hdepths; [done|].
  by rewrite (noodlify_loop _ _ _ _ _ Hdepths).
Qed.

Lemma segments_memo_lookup A eps inc x y :
  wf_nfa A → is_Some (segments_memo A eps inc !! (x, y)) →
  segments_memo A eps inc !! (x, y) = Some (segment_instance A eps x y).
Proof.
  intros Hwf [N HN]. rewrite HN. f_equal.
  by apply (segments_memo_ok A eps inc Hwf).
Qed.

Lemma segment_lookup A eps j :
  j ≤ length (epsilon_depth_list A eps) →
  get_untrimmed_segments (segmentation A eps) !! j
  = Some (segment_at A eps (epsilon_depth_list A eps) j).
Proof.
  intros Hj. unfold segmentation. cbn [get_untrimmed_segments].
  rewrite list_lookup_fmap, lookup_seq_lt by lia. done.
Qed.

Lemma segments_length A eps :
  length (get_untrimmed_segments (segmentation A eps))
  = S (length (epsilon_depth_list A eps)).
Proof.
  unfold segmentation. cbn [get_untrimmed_segments].
  by rewrite length_fmap, length_seq.
Qed.

Lemma keep_of_accepts A eps x y inc w :
  accepts (segment_instance A eps x y) w →
  keep_segment (segment_instance A eps x y) inc = true.
Proof.
  intros Hacc. unfold keep_segment.
  apply accepts_num_of_states in Hacc; [|apply trim_wf].
  by rewrite bool_decide_eq_true_2.
Qed.

Lemma memo_lookup_first A eps inc E e w :
  wf_nfa A → epsilon_depth_list A eps !! 0 = Some E → e ∈ E →
  accepts (segment_instance A eps (num_of_states A) (src e)) w →
  segments_memo A eps inc !! (num_of_states A, src e)
  = Some (segment_instance A eps (num_of_states A) (src e)).
Proof.
  intros Hwf HE He Hacc. apply segments_memo_lookup; [done|].
  unfold segments_memo. cbv zeta.
  eapply (build_memo_has _ _ _ 0 _ _ 0); [apply segment_lookup; lia|].
  intros memo'. rewrite decide_True by done.
  apply (memo_first_has A eps).
  - by apply segment_at_segment_of.
  - done.
  - unfold segment_at. cbn [finalstates]. rewrite HE.
    apply elem_of_remove_dups, list_elem_of_fmap. by exists e.
  - by eapply keep_of_accepts.
Qed.

Lemma memo_lookup_middle A eps inc j E E' e e' w :
  wf_nfa A →
  epsilon_depth_list A eps !! j = Some E →
  epsilon_depth_list A eps !! S j = Some E' →
  e ∈ E → e' ∈ E' →
  accepts (segment_instance A eps (tgt e) (src e')) w →
  segments_memo A eps inc !! (tgt e, src e')
  = Some (segment_instance A eps (tgt e) (src e')).
Proof.
  intros Hwf HE HE' He He' Hacc. apply segments_memo_lookup; [done|].
  pose proof (lookup_lt_Some _ _ _ HE') as Hlt.
  unfold segments_memo. cbv zeta.
  eapply (build_memo_has _ _ _ 0 _ _ (S j)); [apply segment_lookup; lia|].
  intros memo'. rewrite decide_False by lia.
  rewrite segments_length. rewrite decide_False by lia.
  apply (memo_middle_has A eps).
  - by apply segment_at_segment_of.
  - unfold segment_at. cbn [initialstates]. rewrite HE.
    apply elem_of_remove_dups, list_elem_of_fmap. by exists e.
  - unfold segment_at. cbn [finalstates]. rewrite HE'.
    apply elem_of_remove_dups, list_elem_of_fmap. by exists e'.
  - by eapply keep_of_accepts.
Qed.

Lemma memo_lookup_last A eps inc j E e w :
  wf_nfa A →
  epsilon_depth_list A eps !! j = Some E →
  S j = length (epsilon_depth_list A eps) →
  e ∈ E →
  accepts (segment_instance A eps (tgt e) (num_of_states A)) w →
  segments_memo A eps inc !! (tgt e, num_of_states A)
  = Some (segment_instance A eps (tgt e) (num_of_states A)).
Proof.
  intros Hwf HE Hlast He Hacc. apply segments_memo_lookup; [done|].
  unfold segments_memo. cbv zeta.
  eapply (build_memo_has _ _ _ 0 _ _ (S j)); [apply segment_lookup; lia|].
  intros memo'. rewrite decide_False by lia.
  rewrite segments_length. rewrite decide_True by lia.
  apply (memo_last_has A eps).
  - by apply segment_at_segment_of.
  - unfold segment_at. cbn [finalstates].
    by rewrite lookup_ge_None_2 by lia.
  - unfold segment_at. cbn [initialstates]. rewrite HE.
    apply elem_of_remove_dups, list_elem_of_fmap. by exists e.
  - by eapply keep_of_accepts.
Qed.

Lemma Forall2_drop_cons {X Y} (P : X → Y → Prop) (l : list X) i y ys :
  Forall2 P (drop i l) (y :: ys) →
  ∃ x, l !! i = Some x ∧ P x y ∧ Forall2 P (drop (S i) l) ys.
Proof.
  intros H. destruct (l !! i) as [x|] eqn:Hx.
  - rewrite (drop_S _ _ _ Hx) in H.
    apply Forall2_cons in H as [HP H]. eauto.
  - rewrite drop_ge in H by by apply lookup_ge_None. inversion H.
Qed.

Lemma middle_segments_cons memo e e' rest :
  middle_segments memo (e :: e' :: rest)
  = (segment ← memo !! (tgt e, src e');
     noodle ← middle_segments memo (e' :: rest);
     Some (segment :: noodle)).
Proof. done. Qed.

(** The segments of an assignment whose segment instances all have a word
    are in the memo. *)
Lemma middle_segments_complete A eps inc j E e rest ws :
  wf_nfa A →
  epsilon_depth_list A eps !! j = Some E → e ∈ E →
  Forall2 (λ E e, e ∈ E) (drop (S j) (epsilon_depth_list A eps)) rest →
  Forall2 (λ key w, accepts (segment_instance A eps key.1 key.2) w)
          (chain_keys (num_of_states A) (tgt e) rest) ws →
  ∃ middle l,
    middle_segments (segments_memo A eps inc) (e :: rest) = Some middle ∧
    last (e :: rest) = Some l ∧
    segments_memo A eps inc !! (tgt l, num_of_states A)
    = Some (segment_instance A eps (tgt l) (num_of_states A)) ∧
    middle ++ [segment_instance A eps (tgt l) (num_of_states A)]
    = (λ key, segment_instance A eps key.1 key.2)
        <$> chain_keys (num_of_states A) (tgt e) rest.
Proof.
  intros Hwf. revert j E e ws.
  induction rest as [|e' rest IH]; intros j E e ws HE He Hrest Hws.
  - apply Forall2_nil_inv_r in Hrest.
    assert (S j = length (epsilon_depth_list A eps)) as Hlast.
    { pose proof (lookup_lt_Some _ _ _ HE).
      apply (f_equal length) in Hrest. rewrite length_drop in Hrest.
      simpl in Hrest. lia. }
    simpl in Hws. apply Forall2_cons_inv_l in Hws as (w & ws' & Hw & _ & ->).
    exists [], e. split_and!; [done..| |done].
    by eapply memo_lookup_last.
  - apply Forall2_drop_cons in Hrest as (E' & HE' & He' & Hrest).
    simpl in Hws. apply Forall2_cons_inv_l in Hws as (w & ws' & Hw & Hws' & ->).
    destruct (IH (S j) E' e' ws' HE' He' Hrest Hws')
      as (middle & l & Hmid & Hl & Hlast & Heq).
    exists (segment_instance A eps (tgt e) (src e') :: middle), l.
    split_and!; [|done|done|].
    + rewrite middle_segments_cons.
      rewrite (memo_lookup_middle A eps inc j E E' e e' w) by done.
      cbn [mbind option_bind]. rewrite Hmid. done.
    + cbn [chain_keys fmap list_fmap]. cbn [fst snd].
      rewrite <- app_comm_cons. f_equal. exact Heq.
Qed.

Lemma noodle_of_complete A eps inc e rest ws :
  wf_nfa A →
  Forall2 (λ E e, e ∈ E) (epsilon_depth_list A eps) (e :: rest) →
  Forall2 (λ key w, accepts (segment_instance A eps key.1 key.2) w)
          (chain_keys (num_of_states A) (num_of_states A) (e :: rest)) ws →
  noodle_of (segments_memo A eps inc) (num_of_states A) (e :: rest)
  = Some (Some ((λ key, segment_instance A eps key.1 key.2)
                  <$> chain_keys (num_of_states A) (num_of_states A)
                        (e :: rest))).
Proof.
  intros Hwf Hall Hws.
  assert (∃ E, epsilon_depth_list A eps !! 0 = Some E ∧ e ∈ E ∧
            Forall2 (λ E e, e ∈ E) (drop 1 (epsilon_depth_list A eps)) rest)
    as (E & HE & He & Hrest).
  { inversion Hall as [|E ? depths' ? He Hrest Heq]; subst.
    exists E. split_and!; [done..|]. exact Hrest. }
  cbn [chain_keys] in Hws.
  apply Forall2_cons_inv_l in Hws as (w & ws' & Hw & Hws' & ->).
  cbn [fst snd] in Hw.
  destruct (middle_segments_complete A eps inc 0 E e rest ws' Hwf HE He
              Hrest Hws') as (middle & l & Hmid & Hl & Hlast & Heq).
  unfold noodle_of. cbn [head]. rewrite Hl. cbn [mbind option_bind].
  rewrite (memo_lookup_first A eps inc E e w) by done.
  cbn [mbind option_bind]. rewrite Hmid. cbn [mbind option_bind].
  rewrite Hlast. cbn [mbind option_bind chain_keys fmap list_fmap fst snd].
  do 3 f_equal. exact Heq.
Qed.
(** ** Every word of the automaton has its noodle *)

Lemma segment_instance_wf A eps x y :
  wf_nfa A → x ≤ num_of_states A → y ≤ num_of_states A →
  wf_nfa (mkNfa (num_of_states A)
            (if decide (x = num_of_states A) then initialstates A else [x])
            (if decide (y = num_of_states A) then finalstates A else [y])
            (non_epsilon_delta A eps)).
Proof.
  intros (HI & HF & Hd) Hx Hy. split_and!; simpl.
  - destruct (decide (x = num_of_states A)); [done|].
    apply Forall_singleton. lia.
  - destruct (decide (y = num_of_states A)); [done|].
    apply Forall_singleton. lia.
  - rewrite Forall_forall in Hd. apply Forall_forall.
    intros t [Ht _]%non_epsilon_delta_elem. by apply Hd.
Qed.

Lemma segment_instance_accepts_path A eps x y w q q' :
  wf_nfa A → q < num_of_states A → q' < num_of_states A →
  path (delta A) q w q' → Forall (λ a, a ≠ eps) w →
  (if decide (x = num_of_states A) then q ∈ initialstates A else q = x) →
  (if decide (y = num_of_states A) then q' ∈ finalstates A else q' = y) →
  accepts (segment_instance A eps x y) w.
Proof.
  intros Hwf Hq Hq' Hp Hfree Hx Hy. unfold segment_instance.
  apply trim_accepts.
  { apply segment_instance_wf; [done| |].
    - destruct (decide (x = num_of_states A)); lia.
    - destruct (decide (y = num_of_states A)); lia. }
  exists q, q'. simpl. split_and!.
  - destruct (decide (x = num_of_states A)); [done|].
    apply list_elem_of_singleton. done.
  - destruct (decide (y = num_of_states A)); [done|].
    apply list_elem_of_singleton. done.
  - apply path_non_epsilon. split; [done|]. by apply eps_count_zero.
Qed.

Lemma eps_join_cons eps w0 w1 ws :
  eps_join eps w0 (w1 :: ws) = w0 ++ eps :: eps_join eps w1 ws.
Proof. unfold eps_join. by rewrite bind_cons. Qed.

Lemma at_depth_path A eps d x w r :
  at_depth A eps d x → path (delta A) x w r → Forall (λ a, a ≠ eps) w →
  at_depth A eps d r.
Proof.
  intros Hd Hp Hfree. eapply at_depth_non_epsilon; [exact Hd|].
  apply path_non_epsilon. split; [done|]. by apply eps_count_zero.
Qed.

(** An accepting path over [w0 ε w1 ... ε wk] chooses one
    epsilon-transition per depth, and each [wi] is a word of the segment
    instance between two consecutive choices. *)
Lemma chain_complete A eps d kx x w0 ws q' :
  wf_nfa A → x < num_of_states A →
  (if decide (kx = num_of_states A) then x ∈ initialstates A else x = kx) →
  at_depth A eps d x → q' ∈ finalstates A →
  path (delta A) x (eps_join eps w0 ws) q' →
  Forall (λ a, a ≠ eps) w0 → Forall (Forall (λ a, a ≠ eps)) ws →
  ∃ en, length en = length ws ∧
    (∀ j e, en !! j = Some e →
       e ∈ delta A ∧ symb e = eps ∧ at_depth A eps (d + j) (src e)) ∧
    Forall2 (λ key w, accepts (segment_instance A eps key.1 key.2) w)
            (chain_keys (num_of_states A) kx en) (w0 :: ws).
Proof.
  intros Hwf Hx Hkx Hd Hq' Hp Hw0 Hws.
  assert (q' < num_of_states A) as Hq'lt.
  { destruct Hwf as (_ & HF & _). rewrite Forall_forall in HF. by apply HF. }
  revert d kx x w0 Hx Hkx Hd Hp Hw0.
  induction Hws as [|w1 ws Hw1 Hws IH]; intros d kx x w0 Hx Hkx Hd Hp Hw0.
  - unfold eps_join in Hp. simpl in Hp. rewrite app_nil_r in Hp.
    exists []. split_and!; [done| |].
    { intros j e. by rewrite lookup_nil. }
    simpl. constructor; [|constructor]. cbn [fst snd].
    eapply segment_instance_accepts_path; [done|exact Hx|exact Hq'lt|done..|].
    by rewrite decide_True.
  - rewrite eps_join_cons in Hp.
    apply path_app_inv in Hp as (r & Hp0 & Hp).
    inversion Hp as [|? ? r' ? ? Ht Hp']; subst.
    assert (at_depth A eps d r) as Hdr by by eapply at_depth_path.
    assert (r < num_of_states A ∧ r' < num_of_states A) as [Hr Hr'].
    { destruct Hwf as (_ & _ & Hdelta). rewrite Forall_forall in Hdelta.
      by destruct (Hdelta _ Ht). }
    destruct (IH (S d) r' r' w1) as (en & Hlen & Hen & Hchain);
      [done| | |done|done|].
    { rewrite decide_False by lia. done. }
    { by apply (at_depth_step A eps d (mkTrans r eps r')). }
    exists (mkTrans r eps r' :: en). split_and!.
    + simpl. by rewrite Hlen.
    + intros [|j] e He; simpl in He.
      * simplify_eq. rewrite Nat.add_0_r. done.
      * rewrite Nat.add_succ_r. by apply Hen.
    + cbn [chain_keys src tgt]. constructor; [|exact Hchain]. cbn [fst snd].
      eapply segment_instance_accepts_path; [done|exact Hx|exact Hr|done..|].
      rewrite decide_False by lia. done.
Qed.

Lemma indices_lookup num i :
  (i < num)%N → indices num !! N.to_nat i = Some i.
Proof.
  intros Hi. unfold indices.
  rewrite list_lookup_fmap, lookup_seq_lt by lia. simpl.
  by rewrite N2Nat.id.
Qed.

(** Completeness of [noodlify]: below the wrap-around of the number of
    permutations, every word [w0 ε w1 ... ε wk] of a leveled automaton has a
    noodle whose automata accept [w0], [w1], ..., [wk]. *)
Lemma noodlify_complete A eps inc k w0 ws :
  leveled A eps k →
  (radix_product (epsilon_depth_list A eps) < size_t_modulus)%N →
  accepts A (eps_join eps w0 ws) →
  Forall (λ a, a ≠ eps) w0 → Forall (Forall (λ a, a ≠ eps)) ws →
  ∃ ns noodle, noodlify A eps inc = Some ns ∧ noodle ∈ ns ∧
    Forall2 accepts noodle (w0 :: ws).
Proof.
  intros Hlev Hwrap Hacc Hw0 Hws.
  pose proof Hlev as (Hwf & _ & _ & Hk).
  destruct (epsilon_depth_list_spec A eps k Hlev) as [Hdepth Hlayers].
  assert (length ws = k) as Hlen.
  { rewrite <- (Hk _ Hacc). by rewrite eps_count_eps_join. }
  destruct Hacc as (q & q' & Hq & Hq' & Hp).
  assert (q < num_of_states A) as Hqlt.
  { destruct Hwf as (HI & _ & _). rewrite Forall_forall in HI. by apply HI. }
  destruct (chain_complete A eps 0 (num_of_states A) q w0 ws q')
    as (en & Hen_len & Hen & Hchain); [done|done| | |done|done|done|done|].
  { by rewrite decide_True. }
  { exists q, []. split_and!; [done|constructor|done]. }
  destruct (epsilon_depth_list A eps) as [|E0 depths'] eqn:Hdepths.
  - (* a single segment *)
    simpl in Hdepth. subst k. destruct ws; [|done]. destruct en; [|done].
    simpl in Hchain. apply Forall2_cons in Hchain as [Hw _]. cbn [fst snd] in Hw.
    rewrite noodlify_single by done.
    rewrite (keep_of_accepts _ _ _ _ _ _ Hw).
    eexists _, _. split_and!; [done|by left|].
    by repeat constructor.
  - (* at least two segments *)
    assert (Forall2 (λ E e, e ∈ E) (E0 :: depths') en) as Hall.
    { apply Forall2_same_length_lookup_2; [lia|].
      intros j E e HE He. apply (Hlayers j E HE).
      by destruct (Hen j e He) as (? & ? & ?). }
    destruct en as [|e rest]; [by inversion Hall|].
    destruct (decode_index_complete (map_seq 0 (E0 :: depths')) (E0 :: depths')
                0 (e :: rest)) as (i & Hi & Hdec); [|done|].
    { intros j. by rewrite lookup_map_seq_0. }
    destruct (noodlify_total A eps inc) as [ns Hns0]. exists ns.
    pose proof Hns0 as Hns.
    assert (epsilon_depth_list A eps ≠ []) as Hne
      by (rewrite Hdepths; discriminate).
    rewrite (noodlify_loop_memo A eps inc Hne) in Hns.
    cbv zeta in Hns. rewrite Hdepths in Hns.
    apply bind_Some in Hns as (noodles & Hmap & Hns).
    injection Hns as Hns. apply mapM_Some_1 in Hmap.
    rewrite get_num_of_permutations_map_seq in Hmap.
    rewrite N.mod_small in Hmap by done.
    destruct (Forall2_lookup_l _ _ _ _ _ Hmap (indices_lookup _ _ Hi))
      as (noodle & Hnoodle & Hbody).
    rewrite Hdec in Hbody. cbn [mbind option_bind] in Hbody.
    rewrite (noodle_of_complete A eps inc e rest (w0 :: ws)) in Hbody;
      [|done|by rewrite Hdepths|done].
    injection Hbody as <-. eexists. split_and!; [done| |].
    + rewrite <- Hns. apply list_elem_of_omap. eexists. split; [|done].
      by eapply list_elem_of_lookup_2.
    + change (Forall2 accepts
                ((λ key, segment_instance A eps key.1 key.2)
                   <$> chain_keys (num_of_states A) (num_of_states A)
                         (e :: rest)) (w0 :: ws)).
      apply Forall2_fmap_l. exact Hchain.
Qed.
(** ** Completeness of [noodlify_for_equation] below the wrap-around *)

Section Completeness.

Variable reduce : Nfa → Nfa.

Hypothesis reduce_wf : ∀ A, wf_nfa A → wf_nfa (reduce A).
Hypothesis reduce_accepts :
  ∀ A w, wf_nfa A → accepts (reduce A) w ↔ accepts A w.
Hypothesis reduce_is_trim : ∀ A, wf_nfa A → is_trim A → is_trim (reduce A).

Lemma reduce_by_spec_leveled rv P eps k :
  leveled P eps k → leveled (reduce_by_spec reduce rv P) eps k.
Proof.
  intros (Hwf & Htrim & (w & Hw) & Hk).
  destruct (reduce_by_spec_spec reduce reduce_wf reduce_accepts reduce_is_trim
              rv P Hwf Htrim) as (Hwf' & Htrim' & HP').
  split_and!; [done..| |].
  - exists w. by apply HP'.
  - intros w' Hw'. by apply Hk, HP'.
Qed.

Lemma pipeline_after_unify_complete (st : list Nfa) first rest rhs inc rv ws :
  Forall wf_nfa st →
  Forall2 (λ r w, accepts (st !!! r) w) (first :: rest) ws →
  accepts (st !!! rhs) (concat ws) →
  (radix_product
     (epsilon_depth_list
        (reduce_by_spec reduce rv
           (product_pres_eps_trans st first rest rhs
              (fresh_epsilon st (first :: rest) rhs)))
        (fresh_epsilon st (first :: rest) rhs)) < size_t_modulus)%N →
  ∃ ns noodle,
    pipeline_after_unify reduce st (first :: rest) rhs inc rv = Some ns ∧
    noodle ∈ ns ∧ Forall2 accepts noodle ws.
Proof.
  intros Hst Hws Hrhs Hwrap.
  set (eps := fresh_epsilon st (first :: rest) rhs) in *.
  destruct (product_pres_eps_trans_spec st first rest rhs Hst)
    as (Hwf & Htrim & HP). fold eps in Hwf, Htrim, HP.
  pose proof Hws as Hws0.
  apply Forall2_cons_inv_l in Hws as (w0 & ws' & Hw0 & Hws' & ->).
  assert (Forall (λ a, a ≠ eps) w0) as Hf0.
  { eapply epsilon_free_accepts; [|exact Hw0].
    apply fresh_epsilon_free. left. by left. }
  assert (Forall (Forall (λ a, a ≠ eps)) ws') as Hfs.
  { apply Forall_lookup_2. intros i v Hv.
    destruct (Forall2_lookup_r _ _ _ _ _ Hws' Hv) as (r & Hr & Hacc).
    eapply epsilon_free_accepts; [|exact Hacc].
    apply fresh_epsilon_free. left. right. by eapply list_elem_of_lookup_2. }
  assert (accepts (product_pres_eps_trans st first rest rhs eps)
            (eps_join eps w0 ws')) as Hprod.
  { apply HP. exists w0, ws'. done. }
  rewrite pipeline_after_unify_reduce; [|by eauto..]. fold eps.
  assert (leveled (product_pres_eps_trans st first rest rhs eps) eps
            (length rest)) as Hlev.
  { apply product_pres_eps_trans_leveled; [done|]. by eauto. }
  apply (reduce_by_spec_leveled rv) in Hlev.
  destruct (reduce_by_spec_spec reduce reduce_wf reduce_accepts reduce_is_trim
              rv _ Hwf Htrim) as (_ & _ & HP').
  eapply noodlify_complete; [exact Hlev|exact Hwrap| |done|done].
  by apply HP'.
Qed.

End Completeness.

(** X7. Noodle completeness below the wrap-around. With [P] the reduced product
    that the call hands to [noodlify]: when the product of the numbers of
    epsilon-transitions of the depths of [P] is below [2^64], words
    [w1 ... wm] of the automata of the left side whose concatenation is a
    word of the right side have a noodle [N1 ... Nm] in the result with
    [wi] in the language of [Ni]. *)
Lemma noodle_completeness_below_wrap (reduce : Nfa → Nfa) (kind : LeftSide)
    (st : list Nfa) (first : nat) (rest : list nat) (rhs : nat) (inc : bool)
    (params : gmap string string) (ws : list (list Symbol)) :
  (∀ A, wf_nfa A → wf_nfa (reduce A)) →
  (∀ A w, wf_nfa A → accepts (reduce A) w ↔ accepts A w) →
  (∀ A, wf_nfa A → is_trim A → is_trim (reduce A)) →
  Forall wf_nfa st →
  Forall2 (λ r w, accepts (st !!! r) w) (first :: rest) ws →
  accepts (st !!! rhs) (concat ws) →
  let st' := (noodlify_for_equation reduce kind st (first :: rest) rhs inc
                params).1 in
  let epsilon := fresh_epsilon st' (first :: rest) rhs in
  let P := reduce_by_spec reduce (params !! "reduce")
             (product_pres_eps_trans st' first rest rhs epsilon) in
  (radix_product (epsilon_depth_list P epsilon) < size_t_modulus)%N →
  ∃ ns noodle,
    (noodlify_for_equation reduce kind st (first :: rest) rhs inc params).2
    = Some ns ∧
    noodle ∈ ns ∧ Forall2 accepts noodle ws.
Proof.
  intros Hrwf Hracc Hrtrim Hst Hws Hrhs. cbv zeta.
  assert (∀ st', Forall wf_nfa st' →
            (∀ i w, accepts (st' !!! i) w ↔ accepts (st !!! i) w) →
            (radix_product
               (epsilon_depth_list
                  (reduce_by_spec reduce (params !! "reduce")
                     (product_pres_eps_trans st' first rest rhs
                        (fresh_epsilon st' (first :: rest) rhs)))
                  (fresh_epsilon st' (first :: rest) rhs))
             < size_t_modulus)%N →
            ∃ ns noodle,
              pipeline_after_unify reduce st' (first :: rest) rhs inc
                (params !! "reduce") = Some ns ∧
              noodle ∈ ns ∧ Forall2 accepts noodle ws) as Hpipe.
  { intros st' Hst' Hsame Hwrap.
    apply (pipeline_after_unify_complete reduce Hrwf Hracc Hrtrim);
      [done| |by apply Hsame|done].
    eapply Forall2_impl; [exact Hws|]. intros r w Hw. by apply Hsame. }
  destruct kind; unfold noodlify_for_equation.
  - rewrite noodlify_for_equation_ref_shape. cbn [fst snd].
    destruct (unify_left_spec st (first :: rest) Hst). by apply Hpipe.
  - rewrite noodlify_for_equation_ptr_shape. cbn [fst snd].
    destruct (ptr_store_spec st (first :: rest) params Hst). by apply Hpipe.
Qed.

(** ** The enumeration of the assignments *)

(** X6. On at least two segments, [noodlify] runs through the indices below the
    product of the sizes of the depths taken modulo [2^64], in their order;
    the assignment of the index [i] takes at depth [j] the transition number
    [(i / (|E0| * ... * |Ej-1|)) mod |Ej|] of the depth, and its noodle, when
    all its segments are in the memo, is emitted at the place of [i]. *)
Lemma mixed_radix_enumeration_modulo A eps inc :
  epsilon_depth_list A eps ≠ [] →
  let depths := epsilon_depth_list A eps in
  let num := (radix_product depths mod size_t_modulus)%N in
  ∃ noodles,
    noodlify A eps inc = Some (omap id noodles) ∧
    length noodles = N.to_nat num ∧
    ∀ i, (i < num)%N →
      ∃ en, length en = length depths ∧
        (∀ j E, depths !! j = Some E →
           en !! j = E !! N.to_nat (radix_digit depths i j)) ∧
        noodle_of (segments_memo A eps inc) (num_of_states A) en
        = noodles !! N.to_nat i.
Proof.
  intros Hne depths num.
  destruct (noodlify_total A eps inc) as [ns Hns0]. pose proof Hns0 as Hns.
  rewrite (noodlify_loop_memo A eps inc Hne) in Hns. cbv zeta in Hns.
  fold depths in Hns.
  apply bind_Some in Hns as (noodles & Hmap & Hns). injection Hns as Hns.
  rewrite get_num_of_permutations_map_seq in Hmap. fold num in Hmap.
  exists noodles. split_and!.
  - by rewrite Hns.
  - apply length_mapM in Hmap. rewrite <- Hmap. unfold indices.
    by rewrite length_fmap, length_seq.
  - intros i Hi. apply mapM_Some_1 in Hmap.
    destruct (Forall2_lookup_l _ _ _ _ _ Hmap (indices_lookup _ _ Hi))
      as (y & Hy & Hbody).
    apply bind_Some in Hbody as (en & Hdec & Hnoodle).
    apply decode_index_digits in Hdec as [Hlen Hdigits].
    2:{ intros j. by rewrite lookup_map_seq_0. }
    exists en. split_and!; [done..|]. by rewrite Hy.
Qed.
(** ** What the memo holds, for either value of [include_empty] *)

Lemma foldl_memo_kept {X} (inc : bool)
    (step : gmap (State * State) Nfa → X → gmap (State * State) Nfa)
    (l : list X) memo :
  (∀ memo x, memo_kept inc memo → memo_kept inc (step memo x)) →
  memo_kept inc memo → memo_kept inc (foldl step memo l).
Proof.
  intros Hstep. revert memo. induction l as [|x l IH]; intros memo H; [done|].
  simpl. by apply IH, Hstep.
Qed.

Lemma cond_insert_kept (inc : bool) (k : State * State) (v : Nfa) memo :
  memo_kept inc memo →
  memo_kept inc (if keep_segment v inc then <[k := v]> memo else memo).
Proof.
  intros Hk. destruct (keep_segment v inc) eqn:Hv; [|done].
  intros key N. destruct (decide (k = key)) as [->|Hne].
  - rewrite lookup_insert_eq. by intros [= <-].
  - rewrite lookup_insert_ne by done. apply Hk.
Qed.

Lemma build_memo_kept n inc size i segments memo :
  memo_kept inc memo → memo_kept inc (build_memo n inc size i segments memo).
Proof.
  revert i memo. induction segments as [|S segments IH]; intros i memo H; [done|].
  simpl. apply IH.
  destruct (decide (i = 0)); [|destruct (decide (Datatypes.S i = size))].
  - unfold memo_first. apply foldl_memo_kept; [|done].
    intros memo' f. apply cond_insert_kept.
  - unfold memo_last. apply foldl_memo_kept; [|done].
    intros memo' f. apply cond_insert_kept.
  - unfold memo_middle. apply foldl_memo_kept; [|done].
    intros memo' x Hk. apply foldl_memo_kept; [|done].
    intros memo'' f. apply cond_insert_kept.
Qed.

Lemma segments_memo_kept A eps inc : memo_kept inc (segments_memo A eps inc).
Proof. apply build_memo_kept. by intros key N. Qed.

(** An entry of the memo: the segment instance of its key, present exactly
    when it passes the test on empty segments. *)
Lemma segments_memo_decide A eps inc x y :
  wf_nfa A →
  (keep_segment (segment_instance A eps x y) inc = true →
   is_Some (segments_memo A eps inc !! (x, y))) →
  segments_memo A eps inc !! (x, y)
  = if keep_segment (segment_instance A eps x y) inc
    then Some (segment_instance A eps x y) else None.
Proof.
  intros Hwf Hhas.
  destruct (keep_segment (segment_instance A eps x y) inc) eqn:Hkeep.
  - apply segments_memo_lookup; [done|]. by apply Hhas.
  - destruct (segments_memo A eps inc !! (x, y)) as [N|] eqn:HN; [|done].
    pose proof (segments_memo_kept A eps inc _ _ HN) as Hk.
    apply (segments_memo_ok A eps inc Hwf) in HN. subst N. congruence.
Qed.

Lemma memo_decide_first A eps inc E e :
  wf_nfa A → epsilon_depth_list A eps !! 0 = Some E → e ∈ E →
  segments_memo A eps inc !! (num_of_states A, src e)
  = if keep_segment (segment_instance A eps (num_of_states A) (src e)) inc
    then Some (segment_instance A eps (num_of_states A) (src e)) else None.
Proof.
  intros Hwf HE He. apply segments_memo_decide; [done|]. intros Hkeep.
  unfold segments_memo. cbv zeta.
  eapply (build_memo_has _ _ _ 0 _ _ 0); [apply segment_lookup; lia|].
  intros memo'. rewrite decide_True by done.
  apply (memo_first_has A eps); [by apply segment_at_segment_of|done| |done].
  unfold segment_at. cbn [finalstates]. rewrite HE.
  apply elem_of_remove_dups, list_elem_of_fmap. by exists e.
Qed.

Lemma memo_decide_middle A eps inc j E E' e e' :
  wf_nfa A →
  epsilon_depth_list A eps !! j = Some E →
  epsilon_depth_list A eps !! S j = Some E' →
  e ∈ E → e' ∈ E' →
  segments_memo A eps inc !! (tgt e, src e')
  = if keep_segment (segment_instance A eps (tgt e) (src e')) inc
    then Some (segment_instance A eps (tgt e) (src e')) else None.
Proof.
  intros Hwf HE HE' He He'. apply segments_memo_decide; [done|]. intros Hkeep.
  pose proof (lookup_lt_Some _ _ _ HE') as Hlt.
  unfold segments_memo. cbv zeta.
  eapply (build_memo_has _ _ _ 0 _ _ (S j)); [apply segment_lookup; lia|].
  intros memo'. rewrite decide_False by lia.
  rewrite segments_length. rewrite decide_False by lia.
  apply (memo_middle_has A eps); [by apply segment_at_segment_of| | |done].
  - unfold segment_at. cbn [initialstates]. rewrite HE.
    apply elem_of_remove_dups, list_elem_of_fmap. by exists e.
  - unfold segment_at. cbn [finalstates]. rewrite HE'.
    apply elem_of_remove_dups, list_elem_of_fmap. by exists e'.
Qed.

Lemma memo_decide_last A eps inc j E e :
  wf_nfa A →
  epsilon_depth_list A eps !! j = Some E →
  S j = length (epsilon_depth_list A eps) →
  e ∈ E →
  segments_memo A eps inc !! (tgt e, num_of_states A)
  = if keep_segment (segment_instance A eps (tgt e) (num_of_states A)) inc
    then Some (segment_instance A eps (tgt e) (num_of_states A)) else None.
Proof.
  intros Hwf HE Hlast He. apply segments_memo_decide; [done|]. intros Hkeep.
  unfold segments_memo. cbv zeta.
  eapply (build_memo_has _ _ _ 0 _ _ (S j)); [apply segment_lookup; lia|].
  intros memo'. rewrite decide_False by lia.
  rewrite segments_length. rewrite decide_True by lia.
  apply (memo_last_has A eps); [by apply segment_at_segment_of| | |done].
  - unfold segment_at. cbn [finalstates].
    by rewrite lookup_ge_None_2 by lia.
  - unfold segment_at. cbn [initialstates]. rewrite HE.
    apply elem_of_remove_dups, list_elem_of_fmap. by exists e.
Qed.

(** The middle and the last segments of an assignment. *)
Lemma middle_last_spec A eps inc j E e rest l :
  wf_nfa A →
  epsilon_depth_list A eps !! j = Some E → e ∈ E →
  Forall2 (λ E e, e ∈ E) (drop (S j) (epsilon_depth_list A eps)) rest →
  last (e :: rest) = Some l →
  (middle ← middle_segments (segments_memo A eps inc) (e :: rest);
   last_segment ← segments_memo A eps inc !! (tgt l, num_of_states A);
   Some (middle ++ [last_segment]))
  = if forallb (λ key, keep_segment (segment_instance A eps key.1 key.2) inc)
               (chain_keys (num_of_states A) (tgt e) rest)
    then Some ((λ key, segment_instance A eps key.1 key.2)
                 <$> chain_keys (num_of_states A) (tgt e) rest)
    else None.
Proof.
  intros Hwf. revert j E e.
  induction rest as [|e' rest IH]; intros j E e HE He Hrest Hl.
  - apply Forall2_nil_inv_r in Hrest.
    assert (S j = length (epsilon_depth_list A eps)) as Hlast.
    { pose proof (lookup_lt_Some _ _ _ HE).
      apply (f_equal length) in Hrest. rewrite length_drop in Hrest.
      simpl in Hrest. lia. }
    simpl in Hl. injection Hl as <-.
    cbn [middle_segments mbind option_bind chain_keys forallb fst snd].
    rewrite (memo_decide_last A eps inc j E e) by done.
    destruct (keep_segment _ _); done.
  - apply Forall2_drop_cons in Hrest as (E' & HE' & He' & Hrest).
    assert (last (e' :: rest) = Some l) as Hl' by exact Hl.
    specialize (IH (S j) E' e' HE' He' Hrest Hl').
    rewrite middle_segments_cons.
    rewrite (memo_decide_middle A eps inc j E E' e e') by done.
    cbn [chain_keys forallb fst snd fmap list_fmap].
    destruct (keep_segment (segment_instance A eps (tgt e) (src e')) inc);
      [|done].
    cbn [mbind option_bind andb].
    destruct (middle_segments (segments_memo A eps inc) (e' :: rest))
      as [middle|]; cbn [mbind option_bind] in IH |- *.
    + destruct (segments_memo A eps inc !! (tgt l, num_of_states A))
        as [last_segment|]; cbn [mbind option_bind] in IH |- *.
      * destruct (forallb _ _); [|done]. injection IH as IH.
        by rewrite <- app_comm_cons, IH.
      * by destruct (forallb _ _).
    + by destruct (forallb _ _).
Qed.

(** The noodle that the loop builds for an assignment of one transition of
    each depth. *)
Lemma noodle_of_spec A eps inc e rest :
  wf_nfa A →
  Forall2 (λ E e, e ∈ E) (epsilon_depth_list A eps) (e :: rest) →
  noodle_of (segments_memo A eps inc) (num_of_states A) (e :: rest)
  = Some (assignment_noodle A eps inc (e :: rest)).
Proof.
  intros Hwf Hall.
  assert (∃ E, epsilon_depth_list A eps !! 0 = Some E ∧ e ∈ E ∧
            Forall2 (λ E e, e ∈ E) (drop 1 (epsilon_depth_list A eps)) rest)
    as (E & HE & He & Hrest).
  { inversion Hall as [|E ? depths' ? He Hrest Heq]; subst.
    exists E. split_and!; [done..|]. exact Hrest. }
  destruct (last_is_Some (e :: rest)) as [_ [l Hl]]; [done|].
  pose proof (middle_last_spec A eps inc 0 E e rest l Hwf HE He Hrest Hl)
    as Hmid.
  unfold noodle_of, assignment_noodle. cbn [head]. rewrite Hl.
  cbn [mbind option_bind chain_keys forallb fst snd fmap list_fmap].
  f_equal.
  rewrite (memo_decide_first A eps inc E e) by done.
  destruct (keep_segment (segment_instance A eps (num_of_states A) (src e)) inc);
    [|done].
  cbn [mbind option_bind andb].
  destruct (middle_segments (segments_memo A eps inc) (e :: rest))
    as [middle|]; cbn [mbind option_bind] in Hmid |- *.
  - destruct (segments_memo A eps inc !! (tgt l, num_of_states A))
      as [last_segment|]; cbn [mbind option_bind] in Hmid |- *.
    + destruct (forallb _ _); [|done]. injection Hmid as Hmid.
      by rewrite Hmid.
    + by destruct (forallb _ _).
  - by destruct (forallb _ _).
Qed.

Lemma decode_index_assignment depths index en :
  decode_index (map_seq 0 depths) 0 (length depths) index = Some en →
  Forall2 (λ E e, e ∈ E) depths en.
Proof.
  intros Hdec. apply decode_index_spec in Hdec as [Hlen Hall].
  apply Forall2_same_length_lookup_2; [done|].
  intros j E e HE He. destruct (Hall j e He) as (E' & HE' & HeE').
  simpl in HE'. rewrite lookup_map_seq_0 in HE'.
  assert (E' = E) as -> by congruence. done.
Qed.

Lemma omap_id_fmap {X Y} (g : X → option Y) (l : list X) :
  omap id (g <$> l) = omap g l.
Proof.
  induction l as [|x l IH]; [done|].
  csimpl. unfold id at 1. destruct (g x); [f_equal|]; exact IH.
Qed.

(** On at least two segments [noodlify] returns, in the order of the
    indices, the noodles of the assignments whose segment instances all pass
    the test on empty segments. *)
Lemma noodlify_enumerated A eps inc :
  wf_nfa A → epsilon_depth_list A eps ≠ [] →
  let depths := epsilon_depth_list A eps in
  noodlify A eps inc
  = Some (omap (λ index,
                  decode_index (map_seq 0 depths) 0 (length depths) index
                    ≫= assignment_noodle A eps inc)
               (indices (get_num_of_permutations (map_seq 0 depths)))).
Proof.
  intros Hwf Hne depths.
  rewrite (noodlify_loop_memo A eps inc Hne). cbv zeta. fold depths.
  rewrite <- omap_id_fmap.
  match goal with |- mapM ?f ?l ≫= _ = Some (omap id (?g <$> _)) =>
    assert (mapM f l = Some (g <$> l)) as -> end; [|done].
  apply mapM_Some_2, Forall2_fmap_r, Forall_Forall2_diag, Forall_forall.
  intros index _. unfold compose.
  destruct (decode_index_total (map_seq 0 depths) depths 0 index) as [en Hen].
  { intros j. by rewrite lookup_map_seq_0. }
  { apply epsilon_depth_list_nonempty. }
  rewrite Hen. cbn [mbind option_bind].
  pose proof (decode_index_assignment _ _ _ Hen) as Hall.
  destruct en as [|e rest].
  { apply Forall2_nil_inv_r in Hall. done. }
  by apply noodle_of_spec.
Qed.
(** * Further properties of the code *)

(** ** [noodlify] and [noodlify_for_equation] ([src/nfa/noodlify.cc]) *)

(** X1. [noodlify] raises no exception, whatever the automaton, the symbol
    taken as epsilon and the flag: every depth that the loop looks up
    exists, every computed index is inside its depth, and the first and the
    last transition of an assignment exist. *)
Theorem noodlify_raises_no_exception (aut : Nfa) (epsilon : Symbol)
    (include_empty : bool) :
  ∃ noodles, noodlify aut epsilon include_empty = Some noodles.
Proof. apply noodlify_total. Qed.

(** Neither overload of [noodlify_for_equation] raises an exception,
    whatever the automata, the parameters and the reductions. *)
Theorem noodlify_for_equation_raises_no_exception (reduce : Nfa → Nfa)
    (kind : LeftSide) (st : list Nfa) (lhs : list nat) (rhs : nat)
    (inc : bool) (params : gmap string string) :
  ∃ noodles,
    (noodlify_for_equation reduce kind st lhs rhs inc params).2 = Some noodles.
Proof.
  assert (∀ st' rv, is_Some (pipeline_after_unify reduce st' lhs rhs inc rv))
    as Hpipe.
  { intros st' rv. unfold pipeline_after_unify.
    destruct lhs as [|first rest]; [done|].
    destruct (is_lang_empty _); [done|].
    destruct (is_lang_empty _); [done|]. apply noodlify_total. }
  destruct kind; unfold noodlify_for_equation.
  - rewrite noodlify_for_equation_ref_shape. apply Hpipe.
  - rewrite noodlify_for_equation_ptr_shape. apply Hpipe.
Qed.

(** X2. Soundness of [noodlify] on any well-formed automaton: a noodle has
    one automaton more than the automaton has depths of epsilon-transitions,
    and words [w0, ..., wk] of the automata of a noodle contain no epsilon
    and give a word [w0 ε w1 ... ε wk] of the automaton. *)
Theorem noodlify_noodles_are_sound (aut : Nfa) (epsilon : Symbol)
    (include_empty : bool) (noodles : list (list Nfa)) (noodle : list Nfa) :
  wf_nfa aut →
  noodlify aut epsilon include_empty = Some noodles → noodle ∈ noodles →
  length noodle = S (length (epsilon_depth_list aut epsilon)) ∧
  ∀ ws, Forall2 accepts noodle ws →
    ∃ w0 ws', ws = w0 :: ws' ∧ accepts aut (eps_join epsilon w0 ws') ∧
      Forall (Forall (λ a, a ≠ epsilon)) ws.
Proof. apply noodlify_sound. Qed.

Lemma noodlify_noodles_are_sound_witness :
  length ex_a_then_c = S (length (epsilon_depth_list ex_two_segments 500)) ∧
  ∀ ws, Forall2 accepts ex_a_then_c ws →
    ∃ w0 ws', ws = w0 :: ws' ∧
      accepts ex_two_segments (eps_join 500 w0 ws') ∧
      Forall (Forall (λ a, a ≠ 500)) ws.
Proof.
  assert (wf_nfa ex_two_segments) as Hwf.
  { repeat constructor; vm_compute; lia. }
  assert (noodlify ex_two_segments 500 false = Some [ex_a_then_c]) as Hrun.
  { vm_compute. reflexivity. }
  assert (ex_a_then_c ∈ [ex_a_then_c]) as Hin by left.
  exact (noodlify_noodles_are_sound ex_two_segments 500 false [ex_a_then_c]
           ex_a_then_c Hwf Hrun Hin).
Defined.

Lemma length_omap_total {X Y} (g : X → option Y) (l : list X) :
  Forall (λ x, is_Some (g x)) l → length (omap g l) = length l.
Proof.
  induction 1 as [|x l [y Hy] _ IH]; [done|]. csimpl. rewrite Hy. simpl.
  by rewrite IH.
Qed.

Lemma assignment_noodle_include_empty A eps en :
  is_Some (assignment_noodle A eps true en).
Proof.
  unfold assignment_noodle.
  assert (∀ keys, forallb
            (λ key, keep_segment (segment_instance A eps key.1 key.2) true)
            keys = true) as ->; [|done].
  intros keys. induction keys as [|key keys IHk]; [done|]. simpl.
  rewrite IHk. unfold keep_segment. by rewrite orb_true_r.
Qed.

(** X3. With [include_empty] set and at least two segments, [noodlify]
    returns one noodle for every index of the loop: as many noodles as the
    product of the sizes of the depths, taken modulo [2^64]. *)
Theorem noodlify_include_empty_count (aut : Nfa) (epsilon : Symbol) :
  wf_nfa aut → epsilon_depth_list aut epsilon ≠ [] →
  ∃ noodles,
    noodlify aut epsilon true = Some noodles ∧
    length noodles
    = N.to_nat (radix_product (epsilon_depth_list aut epsilon)
                  mod size_t_modulus).
Proof.
  intros Hwf Hne. eexists. split; [by apply noodlify_enumerated|].
  cbv zeta. rewrite get_num_of_permutations_map_seq.
  rewrite length_omap_total.
  { unfold indices. by rewrite length_fmap, length_seq. }
  apply Forall_forall. intros index _.
  destruct (decode_index_total (map_seq 0 (epsilon_depth_list aut epsilon))
              (epsilon_depth_list aut epsilon) 0 index) as [en Hen].
  { intros j. by rewrite lookup_map_seq_0. }
  { apply epsilon_depth_list_nonempty. }
  rewrite Hen. cbn [mbind option_bind].
  apply assignment_noodle_include_empty.
Qed.

Lemma noodlify_include_empty_count_witness :
  ∃ noodles,
    noodlify (ex_tracks 3) 0 true = Some noodles ∧
    length noodles
    = N.to_nat (radix_product (epsilon_depth_list (ex_tracks 3) 0)
                  mod size_t_modulus).
Proof.
  assert (wf_nfa (ex_tracks 3)) as Hwf.
  { apply (bool_decide_unpack _). vm_compute. exact I. }
  assert (epsilon_depth_list (ex_tracks 3) 0 ≠ []) as Hne.
  { vm_compute. discriminate. }
  exact (noodlify_include_empty_count (ex_tracks 3) 0 Hwf Hne).
Defined.

Lemma omap_filter {X Y} (P : Y → Prop) `{!∀ y, Decision (P y)}
    (g1 g2 : X → option Y) (l : list X) :
  (∀ x, g1 x = g2 x ≫= λ y, if decide (P y) then Some y else None) →
  omap g1 l = filter P (omap g2 l).
Proof.
  intros Hg. induction l as [|x l IH]; [done|]. csimpl. rewrite Hg.
  destruct (g2 x) as [y|]; cbn [mbind option_bind]; [|exact IH].
  destruct (decide (P y)).
  - rewrite filter_cons_True by done. by rewrite IH.
  - rewrite filter_cons_False by done. exact IH.
Qed.

Lemma assignment_noodle_without_empty A eps en :
  assignment_noodle A eps false en
  = assignment_noodle A eps true en
      ≫= λ noodle, if decide (Forall (λ N, 0 < num_of_states N) noodle)
                    then Some noodle else None.
Proof.
  destruct (assignment_noodle_include_empty A eps en) as [noodle Hn].
  rewrite Hn. cbn [mbind option_bind]. revert Hn. unfold assignment_noodle.
  destruct (forallb _ _) at 1; [|done]. intros [= <-].
  generalize (chain_keys (num_of_states A) (num_of_states A) en) as keys.
  intros keys.
  assert (forallb
            (λ key, keep_segment (segment_instance A eps key.1 key.2) false) keys
          = bool_decide (Forall (λ N, 0 < num_of_states N)
                           ((λ key, segment_instance A eps key.1 key.2)
                              <$> keys))) as ->.
  { induction keys as [|key keys IH]; [done|]. cbn [forallb].
    rewrite IH. unfold keep_segment. rewrite orb_false_r.
    rewrite fmap_cons.
    destruct (decide (0 < num_of_states (segment_instance A eps key.1 key.2)))
      as [Hpos|Hpos].
    - rewrite (bool_decide_eq_true_2 _ Hpos). cbn [andb].
      apply bool_decide_ext. rewrite Forall_cons. tauto.
    - rewrite (bool_decide_eq_false_2 _ Hpos). cbn [andb].
      symmetry. apply bool_decide_eq_false_2.
      intros [? _]%Forall_cons. done. }
  by destruct (decide _) as [H|H];
    [rewrite (bool_decide_eq_true_2 _ H)|rewrite (bool_decide_eq_false_2 _ H)].
Qed.

(** X4. Without [include_empty], [noodlify] returns the noodles it returns
    with [include_empty] set that have no automaton without states, in the
    same order. *)
Theorem noodlify_without_empty_segments (aut : Nfa) (epsilon : Symbol) :
  wf_nfa aut →
  noodlify aut epsilon false
  = filter (Forall (λ N, 0 < num_of_states N)) <$> noodlify aut epsilon true.
Proof.
  intros Hwf.
  destruct (epsilon_depth_list aut epsilon) as [|E0 depths'] eqn:Hdepths.
  - rewrite !noodlify_single by done. unfold keep_segment.
    rewrite orb_true_r, orb_false_r. cbn [fmap option_fmap option_map].
    f_equal.
    destruct (decide (0 < num_of_states
                (segment_instance aut epsilon (num_of_states aut)
                   (num_of_states aut)))) as [Hpos|Hpos].
    + rewrite (bool_decide_eq_true_2 _ Hpos).
      rewrite filter_cons_True; [done|]. by repeat constructor.
    + rewrite (bool_decide_eq_false_2 _ Hpos).
      rewrite filter_cons_False; [done|].
      intros [? _]%Forall_cons. done.
  - assert (epsilon_depth_list aut epsilon ≠ []) as Hne
      by (rewrite Hdepths; discriminate).
    rewrite !(noodlify_enumerated aut epsilon _ Hwf Hne). cbv zeta.
    cbn [fmap option_fmap option_map]. f_equal.
    apply omap_filter. intros index.
    destruct (decode_index _ _ _ index) as [en|]; [|done].
    cbn [mbind option_bind]. apply assignment_noodle_without_empty.
Qed.

Lemma noodlify_without_empty_segments_witness :
  noodlify (ex_tracks 3) 0 false
  = filter (Forall (λ N, 0 < num_of_states N)) <$> noodlify (ex_tracks 3) 0 true.
Proof.
  assert (wf_nfa (ex_tracks 3)) as Hwf.
  { apply (bool_decide_unpack _). vm_compute. exact I. }
  exact (noodlify_without_empty_segments (ex_tracks 3) 0 Hwf).
Defined.

Lemma filter_all {X} (P : X → Prop) `{!∀ x, Decision (P x)} (l : list X) :
  Forall P l → filter P l = l.
Proof.
  induction 1 as [|x l Hx _ IH]; [done|].
  rewrite filter_cons_True by done. by rewrite IH.
Qed.

Lemma epsilon_free_depths A eps :
  epsilon_free eps A → epsilon_depth_list A eps = [].
Proof.
  intros Hfree. unfold epsilon_depth_list. simpl.
  destruct (filter _ (delta A)) as [|e es] eqn:Hf; [done|].
  assert (e ∈ e :: es) as He by left. rewrite <- Hf in He.
  apply list_elem_of_filter in He as [[He _] Hin]. by apply Hfree in Hin.
Qed.

(** X5. On an automaton that has no transition over the symbol taken as
    epsilon, [noodlify] returns the trimmed automaton as its only noodle, of
    one segment; it returns no noodle when the trimmed automaton has no
    state and [include_empty] is not set. *)
Theorem noodlify_epsilon_free (aut : Nfa) (epsilon : Symbol)
    (include_empty : bool) :
  epsilon_free epsilon aut →
  noodlify aut epsilon include_empty
  = Some (if bool_decide (0 < num_of_states (trim aut)) || include_empty
          then [[trim aut]] else []).
Proof.
  intros Hfree. rewrite noodlify_single by by apply epsilon_free_depths.
  assert (segment_instance aut epsilon (num_of_states aut) (num_of_states aut)
          = trim aut) as ->.
  { unfold segment_instance, non_epsilon_delta. rewrite !decide_True by done.
    rewrite filter_all by (apply Forall_forall; exact Hfree).
    by destruct aut. }
  unfold keep_segment. by destruct (_ || _).
Qed.

Lemma noodlify_epsilon_free_witness :
  noodlify ex_ac_or_bc 500 false
  = Some (if bool_decide (0 < num_of_states (trim ex_ac_or_bc)) || false
          then [[trim ex_ac_or_bc]] else []).
Proof.
  assert (epsilon_free 500 ex_ac_or_bc) as Hfree.
  { intros t Ht. apply (Forall_forall (λ t, symb t ≠ 500) (delta ex_ac_or_bc));
      [|exact Ht].
    apply (bool_decide_unpack _). vm_compute. exact I. }
  exact (noodlify_epsilon_free ex_ac_or_bc 500 false Hfree).
Defined.

Lemma mixed_radix_enumeration_modulo_witness :
  ∃ noodles,
    noodlify (ex_tracks 3) 0 true = Some (omap id noodles) ∧
    length noodles
    = N.to_nat (radix_product (epsilon_depth_list (ex_tracks 3) 0)
                  mod size_t_modulus) ∧
    ∀ i, (i < radix_product (epsilon_depth_list (ex_tracks 3) 0)
              mod size_t_modulus)%N →
      ∃ en, length en = length (epsilon_depth_list (ex_tracks 3) 0) ∧
        (∀ j E, epsilon_depth_list (ex_tracks 3) 0 !! j = Some E →
           en !! j
           = E !! N.to_nat
                    (radix_digit (epsilon_depth_list (ex_tracks 3) 0) i j)) ∧
        noodle_of (segments_memo (ex_tracks 3) 0 true)
          (num_of_states (ex_tracks 3)) en
        = noodles !! N.to_nat i.
Proof.
  assert (epsilon_depth_list (ex_tracks 3) 0 ≠ []) as Hne.
  { vm_compute. discriminate. }
  exact (mixed_radix_enumeration_modulo (ex_tracks 3) 0 true Hne).
Defined.

Lemma noodle_completeness_below_wrap_witness :
  ∃ ns noodle,
    (noodlify_for_equation reduce_id AutPtrSequence ex_store [0; 1] 2 false
       ∅).2 = Some ns ∧
    noodle ∈ ns ∧ Forall2 accepts noodle [[97]; [99]].
Proof.
  assert (Forall wf_nfa ex_store) as Hst.
  { repeat constructor; vm_compute; lia. }
  assert (Forall2 (λ r w, accepts (ex_store !!! r) w) [0; 1] [[97]; [99]])
    as Hws.
  { repeat constructor; apply acceptsb_spec; vm_compute; reflexivity. }
  assert (accepts (ex_store !!! 2) (concat [[97]; [99]])) as Hrhs.
  { apply acceptsb_spec. vm_compute. reflexivity. }
  refine (noodle_completeness_below_wrap reduce_id AutPtrSequence ex_store
            0 [1] 2 false ∅ [[97]; [99]]
            (λ A H, H) (λ A w _, reflexivity _) (λ A _ H, H) Hst Hws Hrhs _).
  vm_compute. reflexivity.
Defined.

(** X8. [get_num_of_permutations] returns the product of the numbers of
    transitions of the depths modulo [2^64], whatever the depths. *)
Theorem get_num_of_permutations_product (epsilon_depths : gmap nat (list Trans)) :
  get_num_of_permutations epsilon_depths
  = (foldr (λ depth product, N.of_nat (length depth.2) * product) 1
       (map_to_list epsilon_depths) mod size_t_modulus)%N.
Proof.
  unfold get_num_of_permutations. rewrite map_fold_foldr.
  induction (map_to_list epsilon_depths) as [|[depth segment] l IH]; [done|].
  cbn [foldr uncurry fst snd]. rewrite IH.
  rewrite N.Div0.mul_mod_idemp_l. f_equal. apply N.mul_comm.
Qed.
(** ** [renumber_states] ([src/re2parser.cc]) *)

Lemma foldlM_inv_each {A B : Type} (P : B → Prop) (R : B → B → Prop)
    (Q : A → B → Prop) (f : B → A → option B) l b b' :
  foldlM f b l = Some b' → P b →
  (∀ b, R b b) → (∀ b1 b2 b3, R b1 b2 → R b2 b3 → R b1 b3) →
  (∀ x b1 b2, Q x b1 → R b1 b2 → Q x b2) →
  (∀ b x b', x ∈ l → P b → f b x = Some b' → P b' ∧ R b b' ∧ Q x b') →
  P b' ∧ R b b' ∧ ∀ x, x ∈ l → Q x b'.
Proof.
  intros Hfold Hb Hrefl Htrans Hmono Hstep. revert b Hfold Hb.
  induction l as [|x l IH]; intros b Hfold Hb; simpl in Hfold.
  - simplify_eq. split_and!; [done..|]. by intros x ?%elem_of_nil.
  - destruct (f b x) as [b1|] eqn:Hf; simpl in Hfold; [|done].
    destruct (Hstep b x b1) as (Hb1 & HR1 & HQ1); [by left|done..|].
    assert (∀ b2 y b3, y ∈ l → P b2 → f b2 y = Some b3 →
              P b3 ∧ R b2 b3 ∧ Q y b3) as Hstep'.
    { intros b2 y b3 Hy. apply Hstep. by right. }
    destruct (IH Hstep' b1 Hfold Hb1) as (Hb' & HR' & HQ').
    split_and!; [done|by eapply Htrans|].
    intros y [->|Hy]%elem_of_cons; [by eapply Hmono|by apply HQ'].
Qed.

Lemma make_final_spec A s A' :
  make_final A s = Some A' →
  s < num_of_states A ∧ num_of_states A' = num_of_states A ∧
  delta A' = delta A ∧ initialstates A' = initialstates A ∧
  ∀ q, q ∈ finalstates A' ↔ q ∈ finalstates A ∨ q = s.
Proof.
  unfold make_final. destruct (decide (s < num_of_states A)); [|done].
  intros [= <-]. simpl. split_and!; [done..|]. intros q.
  destruct (decide (s ∈ finalstates A)).
  - split; [by left|]. by intros [?| ->].
  - rewrite elem_of_app, list_elem_of_singleton. done.
Qed.

Lemma make_initial_spec A s A' :
  make_initial A s = Some A' →
  s < num_of_states A ∧ num_of_states A' = num_of_states A ∧
  delta A' = delta A ∧ finalstates A' = finalstates A ∧
  ∀ q, q ∈ initialstates A' ↔ q ∈ initialstates A ∨ q = s.
Proof.
  unfold make_initial. destruct (decide (s < num_of_states A)); [|done].
  intros [= <-]. simpl. split_and!; [done..|]. intros q.
  destruct (decide (s ∈ initialstates A)).
  - split; [by left|]. by intros [?| ->].
  - rewrite elem_of_app, list_elem_of_singleton. done.
Qed.

Lemma add_trans_spec A s a t A' :
  add_trans A s a t = Some A' →
  s < num_of_states A ∧ t < num_of_states A ∧
  num_of_states A' = num_of_states A ∧
  initialstates A' = initialstates A ∧ finalstates A' = finalstates A ∧
  ∀ x, x ∈ delta A' ↔ x ∈ delta A ∨ x = mkTrans s a t.
Proof.
  unfold add_trans.
  destruct (decide (s < num_of_states A ∧ t < num_of_states A)) as [[??]|];
    [|done].
  intros [= <-]. simpl. split_and!; [done..|]. intros x.
  destruct (decide (mkTrans s a t ∈ delta A)).
  - split; [by left|]. by intros [?| ->].
  - rewrite elem_of_app, list_elem_of_singleton. done.
Qed.

Lemma state_of_Some A x s :
  state_of A x = Some s → x = Z.of_nat s ∧ s < num_of_states A.
Proof.
  unfold state_of. case_decide as Hx; [|done]. intros [= <-]. lia.
Qed.

Lemma filter_insert_length {X} (P : X → Prop) `{!∀ x, Decision (P x)}
    (l : list X) i x y :
  l !! i = Some x → ¬ P x → P y →
  length (filter P (<[i := y]> l)) = S (length (filter P l)).
Proof.
  intros Hi Hx Hy. pose proof (lookup_lt_Some _ _ _ Hi) as Hlt.
  rewrite insert_take_drop by done.
  rewrite <- (take_drop_middle l i x Hi) at 3.
  rewrite !filter_app, !length_app.
  rewrite filter_cons_True, filter_cons_False by done. simpl. lia.
Qed.

Lemma renumber_extends_refl acc : renumber_extends acc acc.
Proof. by split_and!. Qed.

Lemma renumber_extends_trans acc1 acc2 acc3 :
  renumber_extends acc1 acc2 → renumber_extends acc2 acc3 →
  renumber_extends acc1 acc3.
Proof.
  intros (H1 & H2 & H3 & H4) (H1' & H2' & H3' & H4').
  split_and!; eauto.
Qed.

Lemma renumbered_same_num rs nfa nfa' s k :
  num_of_states nfa' = num_of_states nfa →
  renumbered (rs, nfa) s k ↔ renumbered (rs, nfa') s k.
Proof. intros Hn. unfold renumbered. simpl. by rewrite Hn. Qed.

Lemma renumbered_functional acc s k k' :
  renumbered acc s k → renumbered acc s k' → k = k'.
Proof. intros [H1 _] [H2 _]. rewrite H1 in H2. injection H2. lia. Qed.

Lemma filter_unset_replicate n :
  filter (λ x, x ≠ unset_state) (replicate n unset_state) = [].
Proof.
  induction n as [|n IH]; [done|]. simpl.
  rewrite filter_cons_False by (by intros ?). exact IH.
Qed.

Section Renumber.

Variables (output_nfa input_nfa : Nfa) (program_size : nat).

(** The numbers of the states stay below [2^32 - 1], the entry that the
    cast to [int] takes for unset. *)
Hypothesis Hbound :
  (Z.of_nat (num_of_states output_nfa + program_size) < 2 ^ 32 - 1)%Z.

Lemma renumber_inv_num acc :
  renumber_inv output_nfa input_nfa program_size acc →
  num_of_states output_nfa ≤ num_of_states acc.2 ∧
  num_of_states acc.2 ≤ num_of_states output_nfa + program_size.
Proof.
  intros (Hlen & _ & _ & Hnum & _).
  pose proof (length_filter (λ x, x ≠ unset_state) acc.1). lia.
Qed.

Lemma is_unset_small k :
  k ≤ num_of_states output_nfa + program_size →
  is_unset (Z.of_nat k) = false ∧ Z.of_nat k ≠ unset_state.
Proof.
  intros Hk. unfold is_unset, unset_state.
  assert (2 ^ 32 = 4294967296)%Z as H32 by reflexivity.
  assert (2 ^ 64 = 18446744073709551616)%Z as H64 by reflexivity.
  split; [|lia].
  rewrite Z.mod_small by lia. apply Z.eqb_neq. lia.
Qed.

Lemma is_unset_unset_state : is_unset unset_state = true.
Proof. reflexivity. Qed.

Lemma renumber_inv_is_unset acc s x :
  renumber_inv output_nfa input_nfa program_size acc →
  acc.1 !! s = Some x →
  (is_unset x = true ∧ x = unset_state) ∨
  (is_unset x = false ∧ ∃ k, renumbered acc s k ∧ x = Z.of_nat k).
Proof.
  intros Hinv Hx. pose proof (renumber_inv_num _ Hinv) as [_ Hnum].
  destruct Hinv as (_ & Hrange & _).
  destruct (Hrange s x Hx) as [->|(k & -> & Hk)].
  { left. split; reflexivity. }
  right. destruct (is_unset_small k) as [Hu _]; [lia|].
  split; [exact Hu|]. exists k. split; [|done]. split; [done|lia].
Qed.

(** A state that has no number yet receives the next one. *)
Lemma renumber_assign_fresh rs nfa s :
  renumber_inv output_nfa input_nfa program_size (rs, nfa) →
  rs !! s = Some unset_state → used_state input_nfa program_size s →
  let acc' := (<[s := Z.of_nat (num_of_states nfa)]> rs,
               (add_new_state nfa).1) in
  renumber_inv output_nfa input_nfa program_size acc' ∧
  renumber_extends (rs, nfa) acc' ∧
  renumbered acc' s (num_of_states nfa).
Proof.
  intros Hinv Hs Hus acc'.
  pose proof (renumber_inv_num _ Hinv) as [Hlow Hhigh]. simpl in Hlow, Hhigh.
  destruct Hinv as
    (Hlen & Hrange & Hsurj & Hnum & Hdelta & Hfin & Hini & Hinj & Hused).
  simpl in *.
  pose proof (lookup_lt_Some _ _ _ Hs) as Hslt.
  assert (num_of_states nfa < num_of_states output_nfa + program_size)
    as Hroom.
  { assert (length (filter (λ x, x ≠ unset_state) rs) < length rs) as Hlt.
    { apply (length_filter_lt _ rs unset_state);
        [by eapply list_elem_of_lookup_2|by intros ?]. }
    lia. }
  assert (∀ s' k, renumbered (rs, nfa) s' k → renumbered acc' s' k) as Hkeep.
  { intros s' k [Hs' Hk]. simpl in *. split; simpl; [|lia].
    rewrite list_lookup_insert_ne; [done|]. intros ->.
    rewrite Hs in Hs'. injection Hs' as Hs'.
    destruct (is_unset_small k) as [_ Hne]; [lia|]. congruence. }
  assert (renumbered acc' s (num_of_states nfa)) as Hnew.
  { split; simpl; [|lia]. by rewrite list_lookup_insert_eq. }
  split_and!; [| |done]; [split_and!|split_and!]; simpl; try done.
  - by rewrite length_insert.
  - intros s' x Hx. destruct (decide (s' = s)) as [->|Hne].
    + rewrite list_lookup_insert_eq in Hx by done. injection Hx as <-.
      right. exists (num_of_states nfa). split; [done|lia].
    + rewrite list_lookup_insert_ne in Hx by done.
      destruct (Hrange s' x Hx) as [->|(k & -> & Hk)]; [by left|].
      right. exists k. split; [done|lia].
  - intros k Hk. destruct (decide (k = num_of_states nfa)) as [->|Hne].
    + by exists s.
    + destruct (Hsurj k) as [s' Hs']; [lia|]. exists s'. by apply Hkeep.
  - rewrite (filter_insert_length _ rs s unset_state); [lia|done|by intros ?|].
    destruct (is_unset_small (num_of_states nfa)) as [_ Hne]; [lia|done].
  - intros t' Ht'. destruct (Hdelta t' Ht') as [?|(t & ? & ? & ? & ? & ?)];
      [by left|]. right. exists t. split_and!; [done..| | |done]; by apply Hkeep.
  - intros q' Hq'. destruct (Hfin q' Hq') as [?|(q & ? & ?)]; [by left|].
    right. exists q. split; [done|]. by apply Hkeep.
  - intros s1 s2 k [H1 Hk1] [H2 Hk2]. simpl in *.
    destruct (decide (s1 = s)) as [->|Hne1];
      destruct (decide (s2 = s)) as [->|Hne2]; [done|..].
    + rewrite list_lookup_insert_eq in H1 by done. injection H1 as H1.
      rewrite list_lookup_insert_ne in H2 by done.
      destruct (Hrange s2 _ H2) as [Hu|(k' & Hk' & ?)]; [|lia].
      destruct (is_unset_small k) as [_ Hne]; [lia|]. done.
    + rewrite list_lookup_insert_ne in H1 by done.
      rewrite list_lookup_insert_eq in H2 by done. injection H2 as H2.
      destruct (Hrange s1 _ H1) as [Hu|(k' & Hk' & ?)]; [|lia].
      destruct (is_unset_small k) as [_ Hne]; [lia|]. done.
    + rewrite list_lookup_insert_ne in H1, H2 by done.
      destruct (Hrange s1 _ H1) as [Hu|(k' & Hk' & ?)].
      { destruct (is_unset_small k) as [_ Hne]; [lia|]. done. }
      apply (Hinj s1 s2 k); split; simpl; try done; lia.
  - intros s' k [Hs' Hk]. simpl in *.
    destruct (decide (s' = s)) as [->|Hne]; [done|].
    rewrite list_lookup_insert_ne in Hs' by done.
    destruct (Hrange s' _ Hs') as [Hu|(k' & Hk' & ?)].
    { destruct (is_unset_small k) as [_ Hne']; [lia|]. done. }
    apply (Hused s' k). split; simpl; [done|lia].
Qed.

Lemma renumber_if_unset_spec acc state acc' :
  renumber_inv output_nfa input_nfa program_size acc →
  used_state input_nfa program_size state →
  renumber_if_unset acc state = Some acc' →
  renumber_inv output_nfa input_nfa program_size acc' ∧
  renumber_extends acc acc' ∧
  ∃ k, renumbered acc' state k.
Proof.
  destruct acc as [rs nfa]. intros Hinv Hus H. unfold renumber_if_unset in H.
  apply bind_Some in H as (x & Hx & H).
  destruct (renumber_inv_is_unset _ _ _ Hinv Hx)
    as [[Hu ->]|[Hu (k & Hk & ->)]]; rewrite Hu in H.
  - cbn [add_new_state] in H.
    apply bind_Some in H as (rs' & Hrs & H).
    apply vec_set_Some in Hrs as [_ ->]. injection H as <-.
    destruct (renumber_assign_fresh rs nfa state Hinv Hx Hus) as (? & ? & ?).
    split_and!; [done..|]. by eexists.
  - injection H as <-. split_and!; [done|apply renumber_extends_refl|].
    by exists k.
Qed.

(** The first loop: the states with an outgoing transition. *)
Lemma renumber_used_loop n a rs nfa acc' :
  foldlM (renumber_used_step input_nfa) (rs, nfa) (seq a n) = Some acc' →
  renumber_inv output_nfa input_nfa program_size (rs, nfa) →
  (∀ s, a ≤ s → s < program_size → rs !! s = Some unset_state) →
  a + n ≤ program_size →
  renumber_inv output_nfa input_nfa program_size acc' ∧
  renumber_extends (rs, nfa) acc'.
Proof.
  revert a rs nfa. induction n as [|n IH]; intros a rs nfa Hfold Hinv Hunset Han.
  - simpl in Hfold. simplify_eq. split; [done|apply renumber_extends_refl].
  - cbn [seq foldlM] in Hfold.
    apply bind_Some in Hfold as ([rs1 nfa1] & Hstep & Hfold).
    assert (renumber_inv output_nfa input_nfa program_size (rs1, nfa1) ∧
            renumber_extends (rs, nfa) (rs1, nfa1) ∧
            ∀ s, S a ≤ s → s < program_size → rs1 !! s = Some unset_state)
      as (Hinv1 & Hext1 & Hunset1).
    { unfold renumber_used_step in Hstep.
      destruct (get_transitions_from_state input_nfa a) as [|t ts] eqn:Hts.
      - simplify_eq. split_and!; [done|apply renumber_extends_refl|].
        intros s ??. apply Hunset; lia.
      - cbn [add_new_state] in Hstep.
        apply bind_Some in Hstep as (rs' & Hrs & Hstep).
        apply vec_set_Some in Hrs as [_ ->]. simplify_eq.
        destruct (renumber_assign_fresh rs nfa a) as (? & ? & ?);
          [done|apply Hunset; lia| |].
        { left. split; [lia|]. by rewrite Hts. }
        split_and!; [done..|]. intros s ??.
        rewrite list_lookup_insert_ne by lia. apply Hunset; lia. }
    destruct (IH (S a) rs1 nfa1 Hfold Hinv1 Hunset1) as [Hinv' Hext']; [lia|].
    split; [done|]. by eapply renumber_extends_trans.
Qed.

(** The second loop: the final states. *)
Lemma renumber_final_step_spec acc q acc' :
  renumber_inv output_nfa input_nfa program_size acc →
  q ∈ finalstates input_nfa →
  renumber_final_step acc q = Some acc' →
  renumber_inv output_nfa input_nfa program_size acc' ∧
  renumber_extends acc acc' ∧
  ∃ k, renumbered acc' q k ∧ k ∈ finalstates acc'.2.
Proof.
  intros Hinv Hq H. unfold renumber_final_step in H.
  apply bind_Some in H as ([rs1 nfa1] & Hif & H).
  apply bind_Some in H as (x & Hx & H).
  apply bind_Some in H as (s & Hs & H).
  apply bind_Some in H as (nfa' & Hfin & H). injection H as <-.
  destruct (renumber_if_unset_spec acc q (rs1, nfa1) Hinv) as (Hinv1 & Hext1 & k & Hk);
    [by right; left|done|].
  apply state_of_Some in Hs as [-> Hslt].
  assert (s = k) as ->.
  { destruct Hk as [Hk _]. simpl in Hk. rewrite Hk in Hx. injection Hx. lia. }
  apply make_final_spec in Hfin as (_ & Hnum & Hdelta & Hini & Hfin).
  assert (∀ s' k', renumbered (rs1, nfa1) s' k' ↔ renumbered (rs1, nfa') s' k')
    as Hren by (intros; by apply renumbered_same_num).
  split_and!.
  - destruct Hinv1 as
      (Hlen & Hrange & Hsurj & Hn & Hd & Hf & Hi & Hinj & Hused).
    simpl in *. split_and!; simpl; rewrite ?Hnum, ?Hdelta, ?Hini; try done.
    + intros k' Hk'. destruct (Hsurj k' Hk') as [s' Hs']. exists s'.
      by apply Hren.
    + intros t' Ht'. destruct (Hd t' Ht') as [?|(t & ? & ? & ? & ? & ?)];
        [by left|]. right. exists t. split_and!; [done..| | |done]; by apply Hren.
    + intros q' [Hq'| ->]%Hfin.
      * destruct (Hf q' Hq') as [?|(q0 & ? & ?)]; [by left|].
        right. exists q0. split; [done|]. by apply Hren.
      * right. exists q. split; [done|]. by apply Hren.
    + intros s1 s2 k' H1%Hren H2%Hren. by eapply Hinj.
    + intros s' k' H1%Hren. by eapply Hused.
  - eapply renumber_extends_trans; [exact Hext1|].
    split_and!; simpl; [by intros s' k' ?%Hren|by rewrite Hdelta| |by rewrite Hini].
    intros q' ?. apply Hfin. by left.
  - exists k. split; [by apply Hren|]. simpl. apply Hfin. by right.
Qed.

(** The third loop: the transitions. *)
Lemma renumber_trans_step_spec acc t acc' :
  renumber_inv output_nfa input_nfa program_size acc →
  t ∈ delta input_nfa → src t < program_size →
  renumber_trans_step acc t = Some acc' →
  renumber_inv output_nfa input_nfa program_size acc' ∧
  renumber_extends acc acc' ∧
  ∃ s' t', renumbered acc' (src t) s' ∧ renumbered acc' (tgt t) t' ∧
    mkTrans s' (symb t) t' ∈ delta acc'.2.
Proof.
  intros Hinv Ht Hsrc H. unfold renumber_trans_step in H.
  apply bind_Some in H as ([rs1 nfa1] & Hif & H).
  apply bind_Some in H as (x & Hx & H).
  apply bind_Some in H as (y & Hy & H).
  apply bind_Some in H as (s & Hs & H).
  apply bind_Some in H as (t' & Ht' & H).
  apply bind_Some in H as (nfa' & Hadd & H). injection H as <-.
  destruct (renumber_if_unset_spec acc (tgt t) (rs1, nfa1) Hinv)
    as (Hinv1 & Hext1 & _); [|done|].
  { right. right. by exists t. }
  apply state_of_Some in Hs as [-> Hslt].
  apply state_of_Some in Ht' as [-> Htlt].
  assert (renumbered (rs1, nfa1) (src t) s) as Hrs by done.
  assert (renumbered (rs1, nfa1) (tgt t) t') as Hrt by done.
  apply add_trans_spec in Hadd as (_ & _ & Hnum & Hini & Hfin & Hdelta).
  assert (∀ s' k', renumbered (rs1, nfa1) s' k' ↔ renumbered (rs1, nfa') s' k')
    as Hren by (intros; by apply renumbered_same_num).
  split_and!.
  - destruct Hinv1 as
      (Hlen & Hrange & Hsurj & Hn & Hd & Hf & Hi & Hinj & Hused).
    simpl in *. split_and!; simpl; rewrite ?Hnum, ?Hfin, ?Hini; try done.
    + intros k' Hk'. destruct (Hsurj k' Hk') as [s' Hs']. exists s'.
      by apply Hren.
    + intros t0 [Ht0| ->]%Hdelta.
      * destruct (Hd t0 Ht0) as [?|(t1 & ? & ? & ? & ? & ?)];
          [by left|]. right. exists t1.
        split_and!; [done..| | |done]; by apply Hren.
      * right. exists t. split_and!; [done..| | |done]; by apply Hren.
    + intros q' Hq'. destruct (Hf q' Hq') as [?|(q0 & ? & ?)]; [by left|].
      right. exists q0. split; [done|]. by apply Hren.
    + intros s1 s2 k' H1%Hren H2%Hren. by eapply Hinj.
    + intros s' k' H1%Hren. by eapply Hused.
  - eapply renumber_extends_trans; [exact Hext1|].
    split_and!; simpl; [by intros s' k' ?%Hren| |by rewrite Hfin|by rewrite Hini].
    intros t0 ?. apply Hdelta. by left.
  - exists s, t'. split_and!; [by apply Hren..|]. simpl. apply Hdelta. by right.
Qed.

(** The last loop: the initial states. *)
Lemma renumber_initial_loop rs l nfa nfa' :
  foldlM (renumber_initial_step rs) nfa l = Some nfa' →
  num_of_states nfa' = num_of_states nfa ∧ delta nfa' = delta nfa ∧
  finalstates nfa' = finalstates nfa ∧
  (∀ q', q' ∈ initialstates nfa' ↔
     q' ∈ initialstates nfa ∨ ∃ q, q ∈ l ∧ renumbered (rs, nfa) q q') ∧
  ∀ q, q ∈ l → ∃ k, renumbered (rs, nfa) q k.
Proof.
  revert nfa. induction l as [|q l IH]; intros nfa Hfold; simpl in Hfold.
  - simplify_eq. split_and!; [done..| |by intros q ?%elem_of_nil].
    intros q'. split; [by left|]. intros [?|(q & ?%elem_of_nil & _)]; done.
  - apply bind_Some in Hfold as (nfa1 & Hstep & Hfold).
    unfold renumber_initial_step in Hstep.
    apply bind_Some in Hstep as (x & Hx & Hstep).
    apply bind_Some in Hstep as (s & Hs & Hstep).
    apply state_of_Some in Hs as [-> Hslt].
    assert (renumbered (rs, nfa) q s) as Hqs by done.
    apply make_initial_spec in Hstep as (_ & Hnum & Hdelta & Hfin & Hini).
    destruct (IH nfa1 Hfold) as (Hnum' & Hdelta' & Hfin' & Hini' & Hall).
    assert (∀ s' k', renumbered (rs, nfa) s' k' ↔ renumbered (rs, nfa1) s' k')
      as Hren by (intros; by apply renumbered_same_num).
    split_and!; [congruence..| |].
    + intros q'. rewrite Hini', Hini. split.
      * intros [[?| ->]|(q0 & Hq0 & Hr)]; [by left| |].
        -- right. exists q. split; [by left|done].
        -- right. exists q0. split; [by right|by apply Hren].
      * intros [?|(q0 & [->|Hq0]%elem_of_cons & Hr)]; [by left; left| |].
        -- left. right. by eapply renumbered_functional.
        -- right. exists q0. split; [done|by apply Hren].
    + intros q0 [->|Hq0]%elem_of_cons; [by exists s|].
      destruct (Hall q0 Hq0) as [k Hk]. exists k. by apply Hren.
Qed.

Lemma renumber_inv_start :
  renumber_inv output_nfa input_nfa program_size
    (replicate program_size unset_state, output_nfa).
Proof.
  assert (∀ s k, ¬ renumbered (replicate program_size unset_state, output_nfa)
                     s k) as Hnone.
  { intros s k [Hs Hk]. simpl in *. apply lookup_replicate in Hs as [Hs _].
    destruct (is_unset_small k) as [_ Hne]; [lia|]. done. }
  split_and!; simpl.
  - apply length_replicate.
  - intros s x [-> _]%lookup_replicate. by left.
  - intros k ?. lia.
  - rewrite filter_unset_replicate. simpl. lia.
  - intros t' ?. by left.
  - intros q' ?. by left.
  - done.
  - intros s s' k H. by apply Hnone in H.
  - intros s k H. by apply Hnone in H.
Qed.

Lemma elem_of_transitions t :
  t ∈ seq 0 program_size ≫= get_transitions_from_state input_nfa ↔
  t ∈ delta input_nfa ∧ src t < program_size.
Proof.
  rewrite list_elem_of_bind. unfold get_transitions_from_state. split.
  - intros (s & [<- Ht]%list_elem_of_filter & Hs%elem_of_seq). split; [done|lia].
  - intros [Ht Hs]. exists (src t). split.
    + by apply list_elem_of_filter.
    + apply elem_of_seq. lia.
Qed.

(** The outcome of [renumber_states]: the numbers are an injection of the
    used states of the input onto the new states of the output, and the
    output has the images of the initial states, of the final states and of
    the transitions of the input, beside what it had. *)
Lemma renumber_states_full_spec rs out :
  renumber_states_full output_nfa program_size input_nfa = Some (rs, out) →
  (∀ s s' k, renumbered (rs, out) s k → renumbered (rs, out) s' k → s = s') ∧
  (∀ s k, renumbered (rs, out) s k →
     num_of_states output_nfa ≤ k ∧ used_state input_nfa program_size s) ∧
  (∀ k, num_of_states output_nfa ≤ k < num_of_states out →
     ∃ s, renumbered (rs, out) s k) ∧
  num_of_states out ≤ num_of_states output_nfa + program_size ∧
  (∀ t', t' ∈ delta out ↔
     t' ∈ delta output_nfa ∨
     ∃ t, t ∈ delta input_nfa ∧ src t < program_size ∧
       renumbered (rs, out) (src t) (src t') ∧
       renumbered (rs, out) (tgt t) (tgt t') ∧ symb t' = symb t) ∧
  (∀ t, t ∈ delta input_nfa → src t < program_size →
     ∃ s' t', renumbered (rs, out) (src t) s' ∧
       renumbered (rs, out) (tgt t) t') ∧
  (∀ q', q' ∈ finalstates out ↔
     q' ∈ finalstates output_nfa ∨
     ∃ q, q ∈ finalstates input_nfa ∧ renumbered (rs, out) q q') ∧
  (∀ q, q ∈ finalstates input_nfa → ∃ k, renumbered (rs, out) q k) ∧
  (∀ q', q' ∈ initialstates out ↔
     q' ∈ initialstates output_nfa ∨
     ∃ q, q ∈ initialstates input_nfa ∧ renumbered (rs, out) q q') ∧
  (∀ q, q ∈ initialstates input_nfa → ∃ k, renumbered (rs, out) q k).
Proof.
  unfold renumber_states_full. intros H.
  apply bind_Some in H as ([rs1 nfa1] & H1 & H).
  apply bind_Some in H as (acc2 & H2 & H).
  apply bind_Some in H as ([rs3 nfa3] & H3 & H).
  apply bind_Some in H as (nfa4 & H4 & H). simpl in H4, H.
  injection H as <- <-.
  destruct (renumber_used_loop _ _ _ _ _ H1 renumber_inv_start)
    as [Hinv1 Hext1]; [|lia|].
  { intros s _ Hs. by apply lookup_replicate_2. }
  destruct (foldlM_inv_each
              (renumber_inv output_nfa input_nfa program_size)
              renumber_extends
              (λ q acc, ∃ k, renumbered acc q k ∧ k ∈ finalstates acc.2)
              _ _ _ _ H2 Hinv1 renumber_extends_refl renumber_extends_trans)
    as (Hinv2 & Hext2 & Hfinals).
  { intros q b1 b2 (k & Hk & Hin) (Hr & _ & Hf & _). exists k. split; auto. }
  { intros b q b' Hq Hb Hstep. by apply renumber_final_step_spec. }
  destruct (foldlM_inv_each
              (renumber_inv output_nfa input_nfa program_size)
              renumber_extends
              (λ t acc, ∃ s' t', renumbered acc (src t) s' ∧
                  renumbered acc (tgt t) t' ∧
                  mkTrans s' (symb t) t' ∈ delta acc.2)
              _ _ _ _ H3 Hinv2 renumber_extends_refl renumber_extends_trans)
    as (Hinv3 & Hext3 & Htrans).
  { intros t b1 b2 (s' & t' & Hs' & Ht' & Hin) (Hr & Hd & _).
    exists s', t'. split_and!; auto. }
  { intros b t b' [Ht Hsrc]%elem_of_transitions Hb Hstep.
    by apply renumber_trans_step_spec. }
  destruct (renumber_initial_loop _ _ _ _ H4)
    as (Hnum4 & Hdelta4 & Hfin4 & Hini4 & Hall4).
  assert (∀ s k, renumbered (rs3, nfa3) s k ↔ renumbered (rs3, nfa4) s k)
    as Hren by (intros; by apply renumbered_same_num).
  pose proof (renumber_inv_num _ Hinv3) as [_ Hhigh]. simpl in Hhigh.
  pose proof (renumber_extends_trans _ _ _ Hext1
                (renumber_extends_trans _ _ _ Hext2 Hext3)) as Hext.
  destruct Hext as (_ & Hext_d & Hext_f & _). simpl in Hext_d, Hext_f.
  destruct Hext3 as (Hext3_r & _ & Hext3_f & _).
  destruct Hinv3 as
    (Hlen & Hrange & Hsurj & Hn & Hd & Hf & Hi & Hinj & Hused).
  simpl in *.
  split_and!.
  - intros s s' k H5%Hren H6%Hren. by eapply Hinj.
  - intros s k H5%Hren. split; [|by eapply Hused].
    destruct H5 as [H5 H6]. simpl in *.
    destruct (Hrange s _ H5) as [Hu|(k' & Hk' & ?)]; [|lia].
    destruct (is_unset_small k) as [_ Hne]; [lia|]. done.
  - intros k Hk. rewrite Hnum4 in Hk. destruct (Hsurj k Hk) as [s Hs].
    exists s. by apply Hren.
  - lia.
  - intros t'. rewrite Hdelta4. split.
    + intros Ht'. destruct (Hd t' Ht') as [?|(t & ? & ? & ? & ? & ?)];
        [by left|]. right. exists t.
      split_and!; [done..| | |done]; by apply Hren.
    + intros [Ht'|(t & Ht & Hsrc & Hs & Htg & Hsy)]; [by apply Hext_d|].
      destruct (Htrans t) as (s'' & t'' & Hs'' & Ht'' & Hin);
        [by apply elem_of_transitions|].
      apply Hren in Hs, Htg.
      pose proof (renumbered_functional _ _ _ _ Hs Hs'') as Heq1.
      pose proof (renumbered_functional _ _ _ _ Htg Ht'') as Heq2.
      destruct t' as [a b c]. simpl in *. by subst.
  - intros t Ht Hsrc.
    destruct (Htrans t) as (s'' & t'' & Hs'' & Ht'' & Hin);
      [by apply elem_of_transitions|].
    exists s'', t''. split; by apply Hren.
  - intros q'. rewrite Hfin4. split.
    + intros Hq'. destruct (Hf q' Hq') as [?|(q & ? & ?)]; [by left|].
      right. exists q. split; [done|]. by apply Hren.
    + intros [Hq'|(q & Hq & Hr)]; [by apply Hext_f|].
      destruct (Hfinals q Hq) as (k & Hk & Hin).
      apply Hext3_f in Hin. apply Hext3_r in Hk. apply Hren in Hr.
      simpl in Hin. by rewrite (renumbered_functional _ _ _ _ Hr Hk).
  - intros q Hq. destruct (Hfinals q Hq) as (k & Hk & _).
    exists k. by apply Hren, Hext3_r.
  - intros q'. rewrite Hini4, Hi. split.
    + intros [?|(q & ? & ?)]; [by left|]. right. exists q.
      split; [done|]. by apply Hren.
    + intros [?|(q & ? & ?)]; [by left|]. right. exists q.
      split; [done|]. by apply Hren.
  - intros q Hq. destruct (Hall4 q Hq) as [k Hk]. exists k. by apply Hren.
Qed.

End Renumber.
(** ** What [renumber_states] returns *)

Lemma renumber_states_accepts (program_size : nat) (input_nfa out : Nfa) :
  (Z.of_nat program_size < 2 ^ 32 - 1)%Z →
  Forall (λ t, src t < program_size) (delta input_nfa) →
  renumber_states (mkNfa 0 [] [] []) program_size input_nfa = Some out →
  ∀ w, accepts out w ↔ accepts input_nfa w.
Proof.
  intros Hbound Hsrc Hrun. rewrite Forall_forall in Hsrc.
  unfold renumber_states in Hrun.
  apply fmap_Some in Hrun as ([rs out'] & Hrun & ->). simpl.
  destruct (renumber_states_full_spec (mkNfa 0 [] [] []) input_nfa program_size
              Hbound rs out' Hrun)
    as (Hinj & _ & _ & _ & Hdelta & Htr & Hfin & _ & Hini & _).
  simpl in Hdelta, Hfin, Hini.
  assert (∀ p' w q', path (delta out') p' w q' →
            ∀ p, renumbered (rs, out') p p' →
            ∃ q, renumbered (rs, out') q q' ∧ path (delta input_nfa) p w q)
    as Hback.
  { induction 1 as [p'|p' a r' w q' Ht' Hp IH]; intros p Hp'.
    - exists p. split; [done|constructor].
    - apply Hdelta in Ht' as [?%elem_of_nil|(t & Ht & _ & Hs & Htg & Hsy)];
        [done|]. simpl in Hs, Htg, Hsy.
      pose proof (Hinj _ _ _ Hs Hp') as Heq.
      destruct (IH (tgt t) Htg) as (q & Hq & Hpath). exists q.
      split; [done|]. econstructor; [|exact Hpath].
      destruct t as [s b c]. simpl in *. by subst. }
  assert (∀ p w q, path (delta input_nfa) p w q →
            ∀ p', renumbered (rs, out') p p' →
            ∃ q', renumbered (rs, out') q q' ∧ path (delta out') p' w q')
    as Hforth.
  { induction 1 as [p|p a r w q Ht Hp IH]; intros p' Hp'.
    - exists p'. split; [done|constructor].
    - destruct (Htr _ Ht (Hsrc _ Ht)) as (s' & r' & Hs' & Hr').
      simpl in Hs', Hr'.
      pose proof (renumbered_functional _ _ _ _ Hs' Hp') as ->.
      destruct (IH r' Hr') as (q' & Hq' & Hpath). exists q'.
      split; [done|]. econstructor; [|exact Hpath].
      apply Hdelta. right. exists (mkTrans p a r).
      split_and!; [done|by apply (Hsrc _ Ht)|done..]. }
  intros w. split.
  - intros (q0' & qf' & Hq0' & Hqf' & Hp).
    apply Hini in Hq0' as [?%elem_of_nil|(q0 & Hq0 & Hr0)]; [done|].
    apply Hfin in Hqf' as [?%elem_of_nil|(qf & Hqf & Hrf)]; [done|].
    destruct (Hback _ _ _ Hp q0 Hr0) as (q & Hq & Hpath).
    rewrite (Hinj _ _ _ Hq Hrf) in Hpath. by exists q0, qf.
  - intros (q0 & qf & Hq0 & Hqf & Hp).
    assert (∃ q0', renumbered (rs, out') q0 q0' ∧ q0' ∈ initialstates out')
      as (q0' & Hr0 & Hq0').
    { destruct (renumber_states_full_spec (mkNfa 0 [] [] []) input_nfa
                  program_size Hbound rs out' Hrun)
        as (_ & _ & _ & _ & _ & _ & _ & _ & _ & Hini').
      destruct (Hini' q0 Hq0) as [k Hk]. exists k. split; [done|].
      apply Hini. right. by exists q0. }
    destruct (Hforth _ _ _ Hp q0' Hr0) as (qf' & Hrf & Hpath).
    exists q0', qf'. split_and!; [done| |done].
    apply Hfin. right. by exists qf.
Qed.

(** X9. Renumbering keeps the language: when it starts from the empty
    automaton, on an input whose transitions leave states below
    [program_size], and the program is small enough for the numbers of the
    states to stay away from the entry [-1], the automaton that
    [renumber_states] returns accepts the words of its input. *)
Theorem renumber_states_preserves_language (program_size : nat)
    (input_nfa out : Nfa) :
  (Z.of_nat program_size < 2 ^ 32 - 1)%Z →
  Forall (λ t, src t < program_size) (delta input_nfa) →
  renumber_states (mkNfa 0 [] [] []) program_size input_nfa = Some out →
  ∀ w, accepts out w ↔ accepts input_nfa w.
Proof. apply renumber_states_accepts. Qed.

Lemma renumber_states_preserves_language_witness :
  accepts ex_renumbered [97; 99; 98] ↔ accepts ex_sparse [97; 99; 98].
Proof.
  assert (Z.of_nat 6 < 2 ^ 32 - 1)%Z as Hbound by (vm_compute; reflexivity).
  assert (Forall (λ t, src t < 6) (delta ex_sparse)) as Hsrc.
  { apply (bool_decide_unpack _). vm_compute. exact I. }
  assert (renumber_states (mkNfa 0 [] [] []) 6 ex_sparse = Some ex_renumbered)
    as Hrun by (vm_compute; reflexivity).
  exact (renumber_states_preserves_language 6 ex_sparse ex_renumbered
           Hbound Hsrc Hrun [97; 99; 98]).
Defined.

(** X10. Renumbering compacts the states: started from the empty automaton
    it returns at most [program_size] states, and each of them is final or
    is the source or the target of a transition of the output. *)
Theorem renumber_states_compacts (program_size : nat) (input_nfa out : Nfa) :
  (Z.of_nat program_size < 2 ^ 32 - 1)%Z →
  renumber_states (mkNfa 0 [] [] []) program_size input_nfa = Some out →
  num_of_states out ≤ program_size ∧
  ∀ k, k < num_of_states out →
    k ∈ finalstates out ∨ ∃ t, t ∈ delta out ∧ (src t = k ∨ tgt t = k).
Proof.
  intros Hbound Hrun. unfold renumber_states in Hrun.
  apply fmap_Some in Hrun as ([rs out'] & Hrun & ->). simpl.
  destruct (renumber_states_full_spec (mkNfa 0 [] [] []) input_nfa program_size
              Hbound rs out' Hrun)
    as (Hinj & Hrange & Hsurj & Hnum & Hdelta & Htr & Hfin & _).
  simpl in *. split; [done|]. intros k Hk.
  destruct (Hsurj k) as [s Hs]; [lia|].
  destruct (Hrange s k Hs) as [_ [[Hlt Hts]|[Hf|(t & Ht & Hsrc & <-)]]].
  - right. unfold get_transitions_from_state in Hts.
    destruct (filter _ (delta input_nfa)) as [|t ts] eqn:Hfilter; [done|].
    assert (t ∈ t :: ts) as Hin by left. rewrite <- Hfilter in Hin.
    apply list_elem_of_filter in Hin as [<- Hin].
    destruct (Htr t Hin Hlt) as (s' & t' & Hs' & Ht').
    exists (mkTrans s' (symb t) t'). split; [|by left; eapply renumbered_functional].
    apply Hdelta. right. exists t. by split_and!.
  - left. apply Hfin. right. by exists s.
  - right. destruct (Htr t Ht Hsrc) as (s' & t' & Hs' & Ht').
    exists (mkTrans s' (symb t) t').
    split; [|by right; eapply renumbered_functional].
    apply Hdelta. right. exists t. by split_and!.
Qed.

Lemma renumber_states_compacts_witness :
  num_of_states ex_renumbered ≤ 6 ∧
  ∀ k, k < num_of_states ex_renumbered →
    k ∈ finalstates ex_renumbered ∨
    ∃ t, t ∈ delta ex_renumbered ∧ (src t = k ∨ tgt t = k).
Proof.
  assert (Z.of_nat 6 < 2 ^ 32 - 1)%Z as Hbound by (vm_compute; reflexivity).
  assert (renumber_states (mkNfa 0 [] [] []) 6 ex_sparse = Some ex_renumbered)
    as Hrun by (vm_compute; reflexivity).
  exact (renumber_states_compacts 6 ex_sparse ex_renumbered Hbound Hrun).
Defined.
(** ** The conversion with epsilon ([convert_pro_to_nfa]) *)

Lemma state_cache_eta (c : StateCache) :
  set_has_state_incoming_edge c (has_state_incoming_edge c) = c.
Proof. by destruct c. Qed.

Lemma cache_with_epsilon_is_last prog pc inst :
  re2.inst prog pc = Some inst →
  is_last (create_state_cache_with_epsilon prog) !! pc = Some (re2.last inst).
Proof.
  intros Hinst. unfold create_state_cache_with_epsilon. simpl.
  rewrite list_lookup_fmap. unfold re2.inst in Hinst. by rewrite Hinst.
Qed.

Lemma cache_with_epsilon_is_final prog pc inst :
  re2.inst prog pc = Some inst →
  is_final_state (create_state_cache_with_epsilon prog) !! pc
  = Some (bool_decide (re2.opcode inst = re2.kInstMatch)).
Proof.
  intros Hinst. unfold create_state_cache_with_epsilon. simpl.
  rewrite list_lookup_fmap. unfold re2.inst in Hinst. by rewrite Hinst.
Qed.

Lemma cache_with_epsilon_mapping prog pc targets :
  state_mapping (create_state_cache_with_epsilon prog) !! pc = Some targets →
  pc < re2.size prog ∧ targets = [pc].
Proof.
  unfold create_state_cache_with_epsilon. simpl. rewrite list_lookup_fmap.
  destruct (seq 0 (re2.size prog) !! pc) as [pc'|] eqn:Hpc; [|done].
  apply lookup_seq in Hpc as [-> Hpc]. simpl. by intros [= <-].
Qed.

Lemma cache_with_epsilon_incoming prog pc b :
  has_state_incoming_edge (create_state_cache_with_epsilon prog) !! pc = Some b →
  b = true.
Proof.
  unfold create_state_cache_with_epsilon. simpl.
  by intros [-> _]%lookup_replicate.
Qed.

(** With epsilon, the transitions of one instruction leave the cache as it
    is and add its edges toward [out]. *)
Lemma explicit_steps_with_epsilon prog l parser nfa parser' nfa' :
  foldlM (explicit_transition_step true) (parser, nfa) l = Some (parser', nfa') →
  state_cache parser = create_state_cache_with_epsilon prog →
  parser' = parser ∧ num_of_states nfa' = num_of_states nfa ∧
  initialstates nfa' = initialstates nfa ∧ finalstates nfa' = finalstates nfa ∧
  ∀ t, t ∈ delta nfa' ↔
    t ∈ delta nfa ∨ ∃ m m' sym, (m, m', sym) ∈ l ∧ t = mkTrans m sym m'.
Proof.
  revert nfa. induction l as [|[[m m'] sym] l IH]; intros nfa Hfold Hcache.
  - simpl in Hfold. simplify_eq. split_and!; [done..|]. intros t.
    split; [by left|]. intros [?|(? & ? & ? & ?%elem_of_nil & _)]; done.
  - simpl in Hfold. apply bind_Some in Hfold as ([parser1 nfa1] & Hstep & Hfold).
    cbn [mbind option_bind] in Hstep.
    apply bind_Some in Hstep as (incoming & Hincoming & Hstep).
    rewrite Hcache in Hincoming.
    apply cache_with_epsilon_incoming in Hincoming as ->.
    apply bind_Some in Hstep as (incoming_edge & Hset & Hstep).
    apply bind_Some in Hstep as (nfa2 & Hadd & Hstep).
    injection Hstep as <- <-.
    apply vec_set_Some in Hset as [_ ->].
    assert (mkRegexParser
              (set_has_state_incoming_edge (state_cache parser)
                 (<[m' := true]> (has_state_incoming_edge (state_cache parser))))
              (outgoingEdges parser) = parser) as Hsame.
    { rewrite Hcache at 2. unfold create_state_cache_with_epsilon at 1.
      cbn [has_state_incoming_edge]. rewrite insert_replicate.
      change (replicate (re2.size prog) true)
        with (has_state_incoming_edge (create_state_cache_with_epsilon prog)).
      rewrite <- Hcache, state_cache_eta. by destruct parser. }
    rewrite Hsame in Hfold.
    destruct (IH nfa2 Hfold Hcache) as (-> & Hnum & Hini & Hfin & Hdelta).
    apply add_trans_spec in Hadd as (_ & _ & Hnum2 & Hini2 & Hfin2 & Hdelta2).
    split_and!; [done|congruence..|].
    intros t. rewrite Hdelta, Hdelta2. split.
    + intros [[?| ->]|(m1 & m2 & s & Hin & ->)]; [by left| |].
      * right. exists m, m', sym. split; [by left|done].
      * right. exists m1, m2, s. split; [by right|done].
    + intros [?|(m1 & m2 & s & [[= -> -> ->]|Hin]%elem_of_cons & ->)];
        [by left; left|by left; right|].
      right. by exists m1, m2, s.
Qed.

Lemma create_explicit_nfa_transitions_with_epsilon prog parser pc inst symbols
    nfa eps parser' nfa' :
  state_cache parser = create_state_cache_with_epsilon prog →
  re2.inst prog pc = Some inst →
  create_explicit_nfa_transitions parser pc inst symbols nfa true eps
  = Some (parser', nfa') →
  parser' = parser ∧ num_of_states nfa' = num_of_states nfa ∧
  initialstates nfa' = initialstates nfa ∧ finalstates nfa' = finalstates nfa ∧
  ∀ t, t ∈ delta nfa' ↔
    t ∈ delta nfa ∨ (∃ a, a ∈ symbols ∧ t = mkTrans pc a (re2.out inst)) ∨
    (re2.last inst = false ∧ t = mkTrans pc eps (pc + 1)).
Proof.
  intros Hcache Hinst H. unfold create_explicit_nfa_transitions in H.
  apply bind_Some in H as (sources & Hsources & H).
  apply bind_Some in H as (targets & Htargets & H).
  apply bind_Some in H as ([parser1 nfa1] & Hfold & H).
  rewrite Hcache in Hsources, Htargets.
  apply cache_with_epsilon_mapping in Hsources as [_ ->].
  apply cache_with_epsilon_mapping in Htargets as [_ ->].
  destruct (explicit_steps_with_epsilon prog _ _ _ _ _ Hfold Hcache)
    as (-> & Hnum & Hini & Hfin & Hdelta).
  assert (∀ t, t ∈ delta nfa1 ↔
            t ∈ delta nfa ∨ ∃ a, a ∈ symbols ∧ t = mkTrans pc a (re2.out inst))
    as Hdelta1.
  { intros t. rewrite Hdelta. split.
    - intros [?|(m & m' & sym & Hin & ->)]; [by left|]. right.
      apply list_elem_of_bind in Hin as (m1 & Hin & ->%list_elem_of_singleton).
      apply list_elem_of_bind in Hin as (m2 & Hin & ->%list_elem_of_singleton).
      apply list_elem_of_bind in Hin as (a & Hin & Ha).
      apply list_elem_of_singleton in Hin as [= -> -> ->]. by exists a.
    - intros [?|(a & Ha & ->)]; [by left|]. right.
      exists pc, (re2.out inst), a. split; [|done].
      apply list_elem_of_bind. exists pc. split; [|by left].
      apply list_elem_of_bind. exists (re2.out inst). split; [|by left].
      apply list_elem_of_bind. exists a. split; [by left|done]. }
  cbn [mbind option_bind] in H.
  apply bind_Some in H as (last & Hlast & H).
  rewrite Hcache, (cache_with_epsilon_is_last _ _ _ Hinst) in Hlast.
  injection Hlast as <-.
  destruct (re2.last inst) eqn:Hl.
  - injection H as <- <-. split_and!; [done..|]. intros t. rewrite Hdelta1.
    split; [intros [?|?]; auto|]. intros [?|[?|[? _]]]; auto. done.
  - apply bind_Some in H as (nfa2 & Hadd & H). injection H as <- <-.
    apply add_trans_spec in Hadd as (_ & _ & Hnum2 & Hini2 & Hfin2 & Hdelta2).
    split_and!; [done|congruence..|]. intros t. rewrite Hdelta2, Hdelta1.
    split.
    + intros [[?|?]| ->]; auto.
    + intros [?|[?|[_ ->]]]; auto.
Qed.

Lemma make_state_final_with_epsilon prog pc nfa nfa' :
  make_state_final (create_state_cache_with_epsilon prog) pc nfa = Some nfa' →
  num_of_states nfa' = num_of_states nfa ∧ delta nfa' = delta nfa ∧
  initialstates nfa' = initialstates nfa ∧
  ∀ q, q ∈ finalstates nfa' ↔ q ∈ finalstates nfa ∨ q = pc.
Proof.
  unfold make_state_final. intros H.
  apply bind_Some in H as (targets & Htargets & H).
  apply cache_with_epsilon_mapping in Htargets as [_ ->].
  cbn [foldlM] in H. apply bind_Some in H as (nfa1 & H & [= <-]).
  apply bind_Some in H as (incoming & Hincoming & H).
  apply cache_with_epsilon_incoming in Hincoming as ->.
  apply make_final_spec in H as (_ & ? & ? & ? & ?). done.
Qed.

Lemma elem_of_inst_edges K eps pc inst t :
  t ∈ inst_edges K eps pc inst ↔
  (∃ a, a ∈ inst_symbols K eps inst ∧ t = mkTrans pc a (re2.out inst)) ∨
  (has_out_edges (re2.opcode inst) = true ∧ re2.last inst = false ∧
   t = mkTrans pc eps (pc + 1)).
Proof.
  unfold inst_edges. rewrite elem_of_app, list_elem_of_fmap.
  split; (intros [(a & ? & ?)|H]; [left; by exists a|right]).
  - destruct (has_out_edges _); [|by apply elem_of_nil in H].
    destruct (re2.last inst); [by apply elem_of_nil in H|].
    by apply list_elem_of_singleton in H.
  - destruct H as (-> & -> & ->). by left.
Qed.

Lemma inst_edges_src K eps pc inst t :
  t ∈ inst_edges K eps pc inst → src t = pc.
Proof. by intros [(a & _ & ->)|(_ & _ & ->)]%elem_of_inst_edges. Qed.

(** The case of an instruction with transitions. *)
Lemma convert_edges_with_epsilon K prog eps acc pc inst parser' nfa' :
  with_epsilon_inv K prog eps acc → re2.start prog ≤ pc →
  re2.inst prog pc = Some inst →
  has_out_edges (re2.opcode inst) = true →
  create_explicit_nfa_transitions (cs_parser acc) pc inst
    (inst_symbols K eps inst) (cs_nfa acc) true eps = Some (parser', nfa') →
  let acc' := mkConvertState parser' nfa' (cs_copyEdgesFromTo acc) [] in
  with_epsilon_inv K prog eps acc' ∧ convert_extends acc acc' ∧
  with_epsilon_done K prog eps pc acc'.
Proof.
  intros (Hsym & Hcache & Hnum & Hini & Hfin & Hdelta) Hpc Hinst Hop Hrun acc'.
  destruct (create_explicit_nfa_transitions_with_epsilon prog _ _ _ _ _ _ _ _
              Hcache Hinst Hrun) as (-> & Hnum' & Hini' & Hfin' & Hdelta').
  assert (∀ t, t ∈ delta nfa' ↔
            t ∈ delta (cs_nfa acc) ∨ t ∈ inst_edges K eps pc inst) as Hd.
  { intros t. rewrite Hdelta', elem_of_inst_edges, Hop. tauto. }
  split_and!.
  - split_and!; simpl; [done|done|congruence|congruence| |].
    + intros q. rewrite Hfin'. apply Hfin.
    + intros t [Ht|Ht]%Hd; [by apply Hdelta|].
      rewrite (inst_edges_src _ _ _ _ _ Ht). split; [done|]. by exists inst.
  - split; simpl; [|by rewrite Hfin']. intros t ?. apply Hd. by left.
  - intros inst' Hinst'. assert (inst' = inst) as -> by congruence. split.
    + intros t ?. simpl. apply Hd. by right.
    + intros Hm. rewrite Hm in Hop. done.
Qed.

Lemma convert_step_with_epsilon K prog eps acc pc acc' :
  with_epsilon_inv K prog eps acc → re2.start prog ≤ pc →
  convert_step K prog true eps acc pc = Some acc' →
  with_epsilon_inv K prog eps acc' ∧ convert_extends acc acc' ∧
  with_epsilon_done K prog eps pc acc'.
Proof.
  intros Hinv Hpc H. pose proof Hinv as (Hsym & Hcache & Hnum & Hini & Hfin & Hdelta).
  unfold convert_step in H.
  apply bind_Some in H as (inst & Hinst & H).
  apply bind_Some in H as (final & Hfinal & H).
  apply bind_Some in H as (nfa1 & Hnfa1 & H).
  rewrite Hcache, (cache_with_epsilon_is_final _ _ _ Hinst) in Hfinal.
  injection Hfinal as <-.
  destruct (decide (re2.opcode inst = re2.kInstMatch)) as [Hm|Hm].
  - (* a match instruction *)
    rewrite (bool_decide_eq_true_2 _ Hm) in Hnfa1. rewrite Hm in H.
    injection H as <-. rewrite Hcache in Hnfa1.
    apply make_state_final_with_epsilon in Hnfa1 as (Hn1 & Hd1 & Hi1 & Hf1).
    split_and!.
    + split_and!; simpl; [done|done|congruence|congruence| |].
      * intros q [Hq| ->]%Hf1; [by apply Hfin|]. split; [done|].
        by rewrite Hinst; simpl; rewrite Hm.
      * intros t. rewrite Hd1. apply Hdelta.
    + split; simpl; [by rewrite Hd1|]. intros q ?. apply Hf1. by left.
    + intros inst' Hinst'. assert (inst' = inst) as -> by congruence. split.
      * intros t [(a & Ha & _)|(Hop & _)]%elem_of_inst_edges.
        -- unfold inst_symbols in Ha. rewrite Hm in Ha.
           by apply elem_of_nil in Ha.
        -- by rewrite Hm in Hop.
      * intros _. simpl. apply Hf1. by right.
  - (* the other instructions *)
    rewrite (bool_decide_eq_false_2 _ Hm) in Hnfa1. injection Hnfa1 as <-.
    destruct (has_out_edges (re2.opcode inst)) eqn:Hop.
    + assert (∃ parser' nfa',
                create_explicit_nfa_transitions (cs_parser acc) pc inst
                  (inst_symbols K eps inst) (cs_nfa acc) true eps
                = Some (parser', nfa') ∧
                acc' = mkConvertState parser' nfa' (cs_copyEdgesFromTo acc) [])
        as (parser' & nfa' & Hrun & ->).
      { unfold inst_symbols. rewrite Hsym in H.
        destruct (re2.opcode inst) eqn:Hopc; try done.
        - unfold byte_range_case in H.
          apply bind_Some in H as ([p n] & Hrun & H). simpl in H.
          injection H as <-. by exists p, n.
        - apply bind_Some in H as ([p n] & Hrun & H). simpl in H.
          injection H as <-. by exists p, n.
        - unfold byte_range_case in H.
          apply bind_Some in H as ([p n] & Hrun & H). simpl in H.
          injection H as <-. exists p, n. split; [|done].
          by destruct (empty_width_symbols K (re2.empty inst) []).
        - apply bind_Some in H as ([p n] & Hrun & H). simpl in H.
          injection H as <-. by exists p, n. }
      by apply (convert_edges_with_epsilon K prog eps acc pc inst).
    + assert (acc' = mkConvertState (cs_parser acc) (cs_nfa acc)
                       (cs_copyEdgesFromTo acc) (cs_symbols acc)) as ->.
      { destruct (re2.opcode inst); try done; by injection H as <-. }
      split_and!.
      * done.
      * by split.
      * intros inst' Hinst'. assert (inst' = inst) as -> by congruence. split.
        -- intros t [(a & Ha & _)|(Hop' & _)]%elem_of_inst_edges;
             [|congruence].
           unfold inst_symbols in Ha.
           destruct (re2.opcode inst); try done; by apply elem_of_nil in Ha.
        -- done.
Qed.

Lemma convert_extends_refl acc : convert_extends acc acc.
Proof. by split. Qed.

Lemma convert_extends_trans acc1 acc2 acc3 :
  convert_extends acc1 acc2 → convert_extends acc2 acc3 →
  convert_extends acc1 acc3.
Proof. intros [??] [??]. split; eauto. Qed.

Lemma elem_of_program_delta K prog eps t :
  t ∈ delta (program_nfa K prog eps) ↔
  re2.start prog ≤ src t ∧
  ∃ inst, re2.inst prog (src t) = Some inst ∧
    t ∈ inst_edges K eps (src t) inst.
Proof.
  unfold program_nfa. cbn [delta]. rewrite list_elem_of_bind. split.
  - intros (pc & Ht & Hpc%elem_of_seq).
    destruct (re2.inst prog pc) as [inst|] eqn:Hinst;
      [|by apply elem_of_nil in Ht].
    simpl in Ht. pose proof (inst_edges_src _ _ _ _ _ Ht) as ->.
    split; [lia|]. by exists inst.
  - intros (Hsrc & inst & Hinst & Ht). exists (src t). split.
    + by rewrite Hinst.
    + apply elem_of_seq. apply lookup_lt_Some in Hinst. unfold re2.size. lia.
Qed.

Lemma elem_of_program_finals K prog eps q :
  q ∈ finalstates (program_nfa K prog eps) ↔
  re2.start prog ≤ q ∧ re2.opcode <$> re2.inst prog q = Some re2.kInstMatch.
Proof.
  unfold program_nfa. cbn [finalstates].
  rewrite list_elem_of_filter, elem_of_seq. split.
  - intros [Hm Hq]. split; [lia|done].
  - intros [Hq Hm]. split; [done|].
    destruct (re2.inst prog q) as [inst|] eqn:Hinst; [|done].
    apply lookup_lt_Some in Hinst. unfold re2.size. lia.
Qed.

(** The automaton built with epsilon is the graph of the program. *)
Lemma build_explicit_nfa_with_epsilon K prog fuel eps parser nfa :
  build_explicit_nfa K prog fuel true eps = Some (parser, nfa) →
  num_of_states nfa = re2.size prog ∧
  initialstates nfa = [re2.start prog] ∧
  (∀ q, q ∈ finalstates nfa ↔ q ∈ finalstates (program_nfa K prog eps)) ∧
  (∀ t, t ∈ delta nfa ↔ t ∈ delta (program_nfa K prog eps)).
Proof.
  unfold build_explicit_nfa. intros H. cbn [create_state_cache] in H.
  cbn [mbind option_bind] in H.
  apply bind_Some in H as (start_mapping & Hmap & H).
  apply cache_with_epsilon_mapping in Hmap as [Hstart ->].
  cbn [lookup list_lookup mbind option_bind] in H.
  apply bind_Some in H as (nfa0 & Hini0 & H).
  apply bind_Some in H as (incoming & Hincoming & H).
  apply vec_set_Some in Hincoming as [_ ->].
  apply bind_Some in H as (nop_or_cap & Hnop & H).
  cbn [set_has_state_incoming_edge is_state_nop_or_cap
       create_state_cache_with_epsilon] in Hnop.
  apply lookup_replicate in Hnop as [-> _].
  cbn [mbind option_bind] in H.
  apply bind_Some in H as (acc & Hfold & H). injection H as <- <-.
  unfold make_initial in Hini0. cbn [num_of_states] in Hini0.
  rewrite decide_True in Hini0 by done.
  cbn [initialstates set_initialstates] in Hini0.
  rewrite decide_False in Hini0 by (by intros ?%elem_of_nil).
  injection Hini0 as <-.
  destruct (foldlM_inv_each (with_epsilon_inv K prog eps) convert_extends
              (with_epsilon_done K prog eps) _ _ _ _ Hfold)
    as ((_ & _ & Hnum & Hini & Hfin & Hdelta) & _ & Hdone).
  - split_and!; simpl; [done| |done|done| |].
    + cbn [has_state_incoming_edge create_state_cache_with_epsilon].
      rewrite insert_replicate.
      change (replicate (re2.size prog) true)
        with (has_state_incoming_edge (create_state_cache_with_epsilon prog)).
      apply state_cache_eta.
    + by intros q ?%elem_of_nil.
    + by intros t ?%elem_of_nil.
  - apply convert_extends_refl.
  - apply convert_extends_trans.
  - intros pc b1 b2 Hq [Hd Hf] inst Hinst.
    destruct (Hq inst Hinst) as [Hedges Hfinal]. split; auto.
  - intros b pc b' [Hpc _]%elem_of_seq Hb Hstep.
    by apply convert_step_with_epsilon.
  - split_and!; [done..| |].
    + intros q. rewrite elem_of_program_finals. split; [apply Hfin|].
      intros [Hq Hm].
      destruct (re2.inst prog q) as [inst|] eqn:Hinst; [|done].
      simpl in Hm. injection Hm as Hm.
      destruct (Hdone q) with (inst := inst) as [_ Hfinal]; [|done|by auto].
      apply elem_of_seq. apply lookup_lt_Some in Hinst. unfold re2.size. lia.
    + intros t. rewrite elem_of_program_delta. split; [apply Hdelta|].
      intros (Hsrc & inst & Hinst & Ht).
      destruct (Hdone (src t)) with (inst := inst) as [Hedges _];
        [|done|by auto].
      apply elem_of_seq. apply lookup_lt_Some in Hinst. unfold re2.size. lia.
Qed.
(** ** [convert_pro_to_nfa] and [create_nfa] with epsilon *)

Lemma accepts_ext A B w :
  (∀ q, q ∈ initialstates A ↔ q ∈ initialstates B) →
  (∀ q, q ∈ finalstates A ↔ q ∈ finalstates B) →
  (∀ t, t ∈ delta A ↔ t ∈ delta B) →
  accepts A w ↔ accepts B w.
Proof.
  intros Hi Hf Hd.
  split; intros (q & q' & Hq & Hq' & Hp); exists q, q';
    (split_and!; [by apply Hi|by apply Hf|]);
    (eapply path_mono; [|exact Hp]); intros t; apply Hd.
Qed.

(** X11. With epsilon, the automaton that [convert_pro_to_nfa] builds
    before it renumbers the states is the graph of the program from its
    start state on: one state for each instruction, the start state as the
    only initial state, the match instructions as final states, and for
    each byte range, empty-width, nop or capture instruction its
    transitions toward [out] (over each byte of the range, over the symbols
    of the assertions, over epsilon) and, when the instruction is not the
    last of its list, a transition over epsilon to the next instruction.
    There is no other transition. *)
Theorem explicit_nfa_is_the_program_graph (K : re2.EmptyOp) (prog : re2.Prog)
    (fuel : nat) (epsilon_value : Symbol) (parser : RegexParser)
    (explicit_nfa : Nfa) :
  build_explicit_nfa K prog fuel true epsilon_value
    = Some (parser, explicit_nfa) →
  num_of_states explicit_nfa = re2.size prog ∧
  initialstates explicit_nfa = [re2.start prog] ∧
  (∀ q, q ∈ finalstates explicit_nfa ↔
     re2.start prog ≤ q ∧
     re2.opcode <$> re2.inst prog q = Some re2.kInstMatch) ∧
  (∀ t, t ∈ delta explicit_nfa ↔
     re2.start prog ≤ src t ∧
     ∃ inst, re2.inst prog (src t) = Some inst ∧
       ((∃ a, a ∈ inst_symbols K epsilon_value inst ∧
           t = mkTrans (src t) a (re2.out inst)) ∨
        (has_out_edges (re2.opcode inst) = true ∧ re2.last inst = false ∧
         t = mkTrans (src t) epsilon_value (src t + 1)))).
Proof.
  intros Hbuild.
  destruct (build_explicit_nfa_with_epsilon _ _ _ _ _ _ Hbuild)
    as (Hnum & Hini & Hfin & Hdelta).
  split_and!; [done..| |].
  - intros q. by rewrite Hfin, elem_of_program_finals.
  - intros t. rewrite Hdelta, elem_of_program_delta.
    by setoid_rewrite elem_of_inst_edges.
Qed.

Lemma explicit_nfa_is_the_program_graph_witness :
  match build_explicit_nfa ex_empty_op ex_prog_group 0 true 500 with
  | Some (parser, explicit_nfa) =>
      num_of_states explicit_nfa = 6 ∧
      initialstates explicit_nfa = [1] ∧
      (∀ q, q ∈ finalstates explicit_nfa ↔
         1 ≤ q ∧
         re2.opcode <$> re2.inst ex_prog_group q = Some re2.kInstMatch) ∧
      (∀ t, t ∈ delta explicit_nfa ↔
         1 ≤ src t ∧
         ∃ inst, re2.inst ex_prog_group (src t) = Some inst ∧
           ((∃ a, a ∈ inst_symbols ex_empty_op 500 inst ∧
               t = mkTrans (src t) a (re2.out inst)) ∨
            (has_out_edges (re2.opcode inst) = true ∧
             re2.last inst = false ∧
             t = mkTrans (src t) 500 (src t + 1))))
  | None => False
  end.
Proof.
  destruct (build_explicit_nfa ex_empty_op ex_prog_group 0 true 500)
    as [[parser explicit_nfa]|] eqn:Hbuild.
  - exact (explicit_nfa_is_the_program_graph ex_empty_op ex_prog_group 0 500
             parser explicit_nfa Hbuild).
  - vm_compute in Hbuild. discriminate Hbuild.
Defined.

(** X12. With epsilon, and started on the empty automaton, [create_nfa]
    returns an automaton that accepts the words of the graph of the program
    (for a program small enough for the numbers of the states to stay away
    from the entry [-1] of [renumber_states]). *)
Theorem create_nfa_with_epsilon_language (K : re2.EmptyOp) (prog : re2.Prog)
    (fuel : nat) (epsilon_value : Symbol) (out : Nfa) :
  (Z.of_nat (re2.size prog) < 2 ^ 32 - 1)%Z →
  create_nfa K (Some (mkNfa 0 [] [] [])) prog fuel true epsilon_value
    = Some out →
  ∀ w, accepts out w ↔ accepts (program_nfa K prog epsilon_value) w.
Proof.
  intros Hbound Hrun w. unfold create_nfa, convert_pro_to_nfa in Hrun.
  cbn [mbind option_bind] in Hrun.
  apply bind_Some in Hrun as ([parser explicit_nfa] & Hbuild & Hrun).
  destruct (build_explicit_nfa_with_epsilon _ _ _ _ _ _ Hbuild)
    as (Hnum & Hini & Hfin & Hdelta).
  rewrite (renumber_states_accepts (re2.size prog) explicit_nfa out Hbound);
    [| |exact Hrun].
  - apply accepts_ext; [|done..]. intros q. by rewrite Hini.
  - apply Forall_forall. intros t Ht.
    apply Hdelta, elem_of_program_delta in Ht as (_ & inst & Hinst & _).
    by apply lookup_lt_Some in Hinst.
Qed.

Lemma create_nfa_with_epsilon_language_witness :
  accepts ex_group_with_epsilon [500; 97; 500] ↔
  accepts (program_nfa ex_empty_op ex_prog_group 500) [500; 97; 500].
Proof.
  assert (Z.of_nat (re2.size ex_prog_group) < 2 ^ 32 - 1)%Z as Hbound
    by (vm_compute; reflexivity).
  assert (create_nfa ex_empty_op (Some (mkNfa 0 [] [] [])) ex_prog_group 0
            true 500 = Some ex_group_with_epsilon) as Hrun
    by (vm_compute; reflexivity).
  exact (create_nfa_with_epsilon_language ex_empty_op ex_prog_group 0 500
           ex_group_with_epsilon Hbound Hrun [500; 97; 500]).
Defined.
(** ** [get_mapped_states] ([src/re2parser.cc]) *)

Lemma closed_prog_lookup prog pc inst :
  closed_prog prog → re2.inst prog pc = Some inst →
  re2.out inst < re2.size prog ∧
  (re2.last inst = false → S pc < re2.size prog).
Proof.
  intros Hclosed Hinst. unfold closed_prog in Hclosed.
  rewrite Forall_forall in Hclosed.
  specialize (Hclosed pc). rewrite Hinst in Hclosed. apply Hclosed.
  apply elem_of_seq. apply lookup_lt_Some in Hinst. unfold re2.size. lia.
Qed.

Lemma inst_is_Some prog pc : pc < re2.size prog → is_Some (re2.inst prog pc).
Proof. apply lookup_lt_is_Some_2. Qed.

Lemma unvisited_visit prog s checked :
  s < re2.size prog → s ∉ checked →
  length (filter (λ x, x ∉ s :: checked) (seq 0 (re2.size prog)))
  < length (filter (λ x, x ∉ checked) (seq 0 (re2.size prog))).
Proof.
  intros Hs Hnew.
  assert (filter (λ x, x ∉ s :: checked) (seq 0 (re2.size prog))
          = filter (λ x, x ≠ s)
              (filter (λ x, x ∉ checked) (seq 0 (re2.size prog)))) as ->.
  { rewrite list_filter_filter. apply list_filter_iff.
    intros x. rewrite not_elem_of_cons. tauto. }
  apply (length_filter_lt _ _ s); [|by intros ?].
  apply list_elem_of_filter. split; [done|]. apply elem_of_seq. lia.
Qed.

Lemma unvisited_again prog s checked :
  s ∈ checked →
  filter (λ x, x ∉ s :: checked) (seq 0 (re2.size prog))
  = filter (λ x, x ∉ checked) (seq 0 (re2.size prog)).
Proof.
  intros Hold. apply list_filter_iff. intros x.
  rewrite not_elem_of_cons. split; [tauto|]. intros Hx. split; [|done].
  by intros ->.
Qed.

(** One visit: the states it pushes are successors not visited yet, and
    every successor is visited or pushed. *)
Lemma stack_visit prog s rest checked pushed :
  stack_inv prog (s :: rest) checked →
  s < re2.size prog →
  (∀ c, c ∈ pushed → c ∈ mapped_successors prog s ∧ c ∉ s :: checked) →
  (∀ c, c ∈ mapped_successors prog s → c ∈ s :: checked ∨ c ∈ pushed) →
  length pushed ≤ 2 →
  stack_inv prog (pushed ++ rest) (s :: checked) ∧
  mapped_measure prog (pushed ++ rest) (s :: checked)
  < mapped_measure prog (s :: rest) checked.
Proof.
  intros Hinv Hs Hpushed Hall Hlen. split.
  - intros i r Hr Hin c Hc.
    destruct (decide (i < length pushed)) as [Hi|Hi].
    { rewrite lookup_app_l in Hr by done.
      apply list_elem_of_lookup_2 in Hr. by apply Hpushed in Hr as [_ ?]. }
    rewrite lookup_app_r in Hr by lia.
    assert (take i (pushed ++ rest)
            = pushed ++ take (i - length pushed) rest) as ->.
    { rewrite take_app. rewrite take_ge by lia. done. }
    destruct (decide (r ∈ checked)) as [Hold|Hnew].
    + destruct (Hinv (S (i - length pushed)) r Hr Hold c Hc) as [?|Hc'].
      * left. by right.
      * simpl in Hc'. apply elem_of_cons in Hc' as [->|Hc'].
        -- left. by left.
        -- right. apply elem_of_app. by right.
    + assert (r = s) as ->.
      { by apply elem_of_cons in Hin as [->|?]. }
      destruct (Hall c Hc) as [?|?]; [by left|].
      right. apply elem_of_app. by left.
  - unfold mapped_measure. rewrite length_app. cbn [length].
    destruct (decide (s ∈ checked)) as [Hold|Hnew].
    + rewrite unvisited_again by done.
      assert (pushed = []) as ->; [|simpl; lia].
      destruct pushed as [|c pushed]; [done|]. exfalso.
      destruct (Hpushed c) as [Hc Hnot]; [by left|].
      destruct (Hinv 0 s eq_refl Hold c Hc) as [?|Hc'].
      * apply Hnot. by right.
      * simpl in Hc'. by apply elem_of_nil in Hc'.
    + pose proof (unvisited_visit prog s checked Hs Hnew). lia.
Qed.

Lemma mapped_successors_eq prog s inst :
  re2.inst prog s = Some inst →
  mapped_successors prog s
  = (if re2.last inst then [] else [s + 1]) ++
    (if negb (re2.last inst) || is_nop_or_capture (re2.opcode inst)
     then match re2.inst prog (re2.out inst) with
          | Some outInst =>
              if is_nop_or_capture (re2.opcode outInst) then [re2.out inst]
              else []
          | None => []
          end
     else []).
Proof. intros Hinst. unfold mapped_successors. by rewrite Hinst. Qed.

(** The loop of [get_mapped_states] ends: on a closed program it reads no
    instruction out of the program and needs at most two iterations for each
    state not visited and one for each state on its stack. *)
Lemma get_mapped_states_loop_total prog :
  closed_prog prog →
  ∀ fuel is_last mapped stack checked,
    length is_last = re2.size prog →
    Forall (λ s, s < re2.size prog) stack →
    stack_inv prog stack checked →
    mapped_measure prog stack checked ≤ fuel →
    is_Some (get_mapped_states_loop prog fuel is_last mapped stack checked).
Proof.
  intros Hclosed. induction fuel as [|fuel IH];
    intros is_last mapped [|s rest] checked Hlen Hstack Hinv Hfuel;
    [by eexists| |by eexists|].
  { unfold mapped_measure in Hfuel. simpl in Hfuel. lia. }
  apply Forall_cons in Hstack as [Hs Hrest].
  destruct (inst_is_Some prog s Hs) as [inst Hinst].
  destruct (closed_prog_lookup prog s inst Hclosed Hinst) as [Hout Hnext].
  destruct (inst_is_Some prog _ Hout) as [outInst HoutInst].
  pose proof (mapped_successors_eq prog s inst Hinst) as Hsucc.
  rewrite HoutInst in Hsucc.
  assert (∀ is_last' mapped' pushed,
             length is_last' = re2.size prog →
             Forall (λ s, s < re2.size prog) pushed →
             (∀ c, c ∈ pushed → c ∈ mapped_successors prog s ∧ c ∉ s :: checked) →
             (∀ c, c ∈ mapped_successors prog s → c ∈ s :: checked ∨ c ∈ pushed) →
             length pushed ≤ 2 →
             is_Some (get_mapped_states_loop prog fuel is_last' mapped'
                        (pushed ++ rest) (s :: checked))) as Hnext_iter.
  { intros is_last' mapped' pushed Hlen' Hlt Hpushed Hall Hle.
    destruct (stack_visit prog s rest checked pushed Hinv Hs Hpushed Hall Hle)
      as [Hinv' Hmeasure].
    apply IH; [done| |done|lia]. apply Forall_app. by split. }
  cbn [get_mapped_states_loop]. rewrite Hinst. cbn [mbind option_bind].
  destruct (re2.last inst) eqn:Hlast; cbn [negb].
  - cbn [orb] in Hsucc.
    destruct (is_nop_or_capture (re2.opcode inst)) eqn:Hnop; cbn [negb].
    + rewrite HoutInst. cbn [mbind option_bind].
      destruct (is_nop_or_capture (re2.opcode outInst)) eqn:Hnop_out.
      * case_decide as Hseen.
        -- apply (Hnext_iter is_last mapped []); [done|done| | |simpl; lia].
           ++ intros c Hc. by apply elem_of_nil in Hc.
           ++ intros c Hc. rewrite Hsucc in Hc. simpl in Hc.
              apply list_elem_of_singleton in Hc as ->. by left.
        -- apply (Hnext_iter is_last mapped [re2.out inst]);
             [done|by repeat constructor| | |simpl; lia].
           ++ intros c ->%list_elem_of_singleton. split; [|done].
              rewrite Hsucc. simpl. by left.
           ++ intros c Hc. rewrite Hsucc in Hc. simpl in Hc. by right.
      * apply (Hnext_iter is_last _ []); [done|done| | |simpl; lia].
        -- intros c Hc. by apply elem_of_nil in Hc.
        -- intros c Hc. rewrite Hsucc in Hc. by apply elem_of_nil in Hc.
    + apply (Hnext_iter is_last _ []); [done|done| | |simpl; lia].
      * intros c Hc. by apply elem_of_nil in Hc.
      * intros c Hc. rewrite Hsucc in Hc. by apply elem_of_nil in Hc.
  - cbn [orb negb] in Hsucc. specialize (Hnext eq_refl).
    assert (s + 1 < re2.size prog) as Hnext' by lia.
    destruct (inst_is_Some prog _ Hnext') as [nextInst HnextInst].
    rewrite HnextInst. cbn [mbind option_bind].
    assert (∃ is_last', (if re2.last nextInst
                         then vec_set is_last (s + 1) true
                         else Some is_last) = Some is_last'
                        ∧ length is_last' = re2.size prog) as (is_last' & -> & Hlen').
    { destruct (re2.last nextInst); [|by eexists].
      unfold vec_set. rewrite decide_True by lia.
      eexists. split; [done|]. by rewrite length_insert. }
    cbn [mbind option_bind]. rewrite HoutInst. cbn [mbind option_bind].
    destruct (is_nop_or_capture (re2.opcode outInst)) eqn:Hnop_out.
    + destruct (decide (s + 1 ∈ s :: checked)) as [Hseen1|Hseen1];
        case_decide as Hseen.
      * apply (Hnext_iter is_last' mapped []); [done|done| | |simpl; lia].
        -- intros c Hc. by apply elem_of_nil in Hc.
        -- intros c Hc. rewrite Hsucc in Hc. simpl in Hc. left.
           apply elem_of_cons in Hc as [->|Hc]; [done|].
           by apply list_elem_of_singleton in Hc as ->.
      * apply (Hnext_iter is_last' mapped [re2.out inst]);
          [done|by repeat constructor| | |simpl; lia].
        -- intros c ->%list_elem_of_singleton. split; [|done].
           rewrite Hsucc. simpl. right. by left.
        -- intros c Hc. rewrite Hsucc in Hc. simpl in Hc.
           apply elem_of_cons in Hc as [->|Hc]; [by left|by right].
      * apply (Hnext_iter is_last' mapped [s + 1]);
          [done|by repeat constructor| | |simpl; lia].
        -- intros c ->%list_elem_of_singleton. split; [|done].
           rewrite Hsucc. simpl. by left.
        -- intros c Hc. rewrite Hsucc in Hc. simpl in Hc.
           apply elem_of_cons in Hc as [->|Hc]; [right; by left|].
           apply list_elem_of_singleton in Hc as ->. by left.
      * apply (Hnext_iter is_last' mapped [re2.out inst; s + 1]);
          [done|by repeat constructor| | |simpl; lia].
        -- intros c Hc. rewrite Hsucc. simpl.
           apply elem_of_cons in Hc as [->|Hc].
           ++ split; [right; by left|done].
           ++ apply list_elem_of_singleton in Hc as ->. split; [by left|done].
        -- intros c Hc. rewrite Hsucc in Hc. simpl in Hc. right.
           apply elem_of_cons in Hc as [->|Hc]; [right; by left|].
           apply list_elem_of_singleton in Hc as ->. by left.
    + destruct (decide (s + 1 ∈ s :: checked)) as [Hseen1|Hseen1].
      * apply (Hnext_iter is_last' _ []); [done|done| | |simpl; lia].
        -- intros c Hc. by apply elem_of_nil in Hc.
        -- intros c Hc. rewrite Hsucc in Hc. simpl in Hc. left.
           by apply list_elem_of_singleton in Hc as ->.
      * apply (Hnext_iter is_last' _ [s + 1]);
          [done|by repeat constructor| | |simpl; lia].
        -- intros c ->%list_elem_of_singleton. split; [|done].
           rewrite Hsucc. simpl. by left.
        -- intros c Hc. rewrite Hsucc in Hc. simpl in Hc. by right.
Qed.

(** One iteration of the loop, whatever the branch it takes. *)
Lemma get_mapped_states_loop_step prog fuel is_last mapped s rest checked r :
  get_mapped_states_loop prog (S fuel) is_last mapped (s :: rest) checked = Some r →
  ∃ is_last1 pushed,
    get_mapped_states_loop prog fuel is_last1 (mapped ++ mapped_results prog s)
      (pushed ++ rest) (s :: checked) = Some r ∧
    (∀ c, c ∈ pushed ↔ c ∈ mapped_successors prog s ∧ c ∉ s :: checked) ∧
    ((flags_next prog s ∧ s + 1 < length is_last ∧
      is_last1 = <[s + 1 := true]> is_last) ∨
     (¬ flags_next prog s ∧ is_last1 = is_last)).
Proof.
  cbn [get_mapped_states_loop]. intros Hrun.
  apply bind_Some in Hrun as (inst & Hinst & Hrun).
  unfold mapped_results, mapped_successors. rewrite Hinst.
  destruct (re2.last inst) eqn:Hlast; cbn [negb andb orb] in *.
  - assert (¬ flags_next prog s) as Hflag.
    { intros (inst' & ? & Hinst' & Hlast' & _). congruence. }
    destruct (is_nop_or_capture (re2.opcode inst)) eqn:Hnop; cbn [negb] in *.
    + apply bind_Some in Hrun as (outInst & HoutInst & Hrun). rewrite HoutInst.
      destruct (is_nop_or_capture (re2.opcode outInst)) eqn:Hnop_out.
      * rewrite app_nil_r. case_decide as Hseen.
        -- exists is_last, []. split; [done|]. split; [|by right].
           intros c. simpl. rewrite list_elem_of_singleton.
           split; [by intros ?%elem_of_nil|]. by intros [-> ?].
        -- exists is_last, [re2.out inst]. split; [done|]. split; [|by right].
           intros c. simpl. rewrite list_elem_of_singleton.
           split; [by intros ->|by intros [-> _]].
      * exists is_last, []. split; [done|]. split; [|by right].
        intros c. simpl. split; [by intros ?%elem_of_nil|by intros [? _]].
    + exists is_last, []. split; [done|]. split; [|by right].
      intros c. simpl. split; [by intros ?%elem_of_nil|by intros [? _]].
  - apply bind_Some in Hrun as (nextInst & HnextInst & Hrun).
    apply bind_Some in Hrun as (is_last1 & Hflag & Hrun).
    apply bind_Some in Hrun as (outInst & HoutInst & Hrun). rewrite HoutInst.
    assert ((flags_next prog s ∧ s + 1 < length is_last ∧
             is_last1 = <[s + 1 := true]> is_last) ∨
            (¬ flags_next prog s ∧ is_last1 = is_last)) as Hflags.
    { destruct (re2.last nextInst) eqn:Hlast_next.
      - left. apply vec_set_Some in Hflag as [? ->].
        split; [|done]. by exists inst, nextInst.
      - right. injection Hflag as <-. split; [|done].
        intros (? & nextInst' & _ & _ & ? & ?). congruence. }
    destruct (is_nop_or_capture (re2.opcode outInst)) eqn:Hnop_out.
    + rewrite app_nil_r.
      destruct (decide (s + 1 ∈ s :: checked)) as [Hseen1|Hseen1];
        case_decide as Hseen.
      * exists is_last1, []. split; [done|]. split; [|done].
        intros c. simpl. rewrite elem_of_cons, list_elem_of_singleton.
        split; [by intros ?%elem_of_nil|]. by intros [[->| ->] ?].
      * exists is_last1, [re2.out inst]. split; [done|]. split; [|done].
        intros c. simpl. rewrite list_elem_of_singleton, (elem_of_cons [_]),
          list_elem_of_singleton.
        split; [intros ->; split; [by right|done]|]. by intros [[->| ->] ?].
      * exists is_last1, [s + 1]. split; [done|]. split; [|done].
        intros c. simpl. rewrite list_elem_of_singleton, (elem_of_cons [_]),
          list_elem_of_singleton.
        split; [intros ->; split; [by left|done]|]. by intros [[->| ->] ?].
      * exists is_last1, [re2.out inst; s + 1]. split; [done|]. split; [|done].
        intros c. simpl. rewrite !(elem_of_cons [_]), !list_elem_of_singleton.
        split; [intros [->| ->]; split; auto|]. intros [[->| ->] ?]; auto.
    + destruct (decide (s + 1 ∈ s :: checked)) as [Hseen1|Hseen1].
      * exists is_last1, []. split; [done|]. split; [|done].
        intros c. simpl. rewrite list_elem_of_singleton.
        split; [by intros ?%elem_of_nil|]. by intros [-> ?].
      * exists is_last1, [s + 1]. split; [done|]. split; [|done].
        intros c. simpl. rewrite list_elem_of_singleton.
        split; [by intros ->|by intros [-> _]].
Qed.

(** What the loop keeps: it visits only states of the chains that start in
    [state0], and what a visited state must push, append or flag is on the
    stack, in the result or flagged. When the stack is empty the visited
    states are closed under the steps of the chains. *)
Lemma get_mapped_states_loop_spec prog state0 is_last0 :
  ∀ fuel is_last mapped stack checked mapped' is_last',
    get_mapped_states_loop prog fuel is_last mapped stack checked
    = Some (mapped', is_last') →
    (∀ s, s ∈ stack ∨ s ∈ checked → chain_reaches prog state0 s) →
    (∀ m, m ∈ mapped →
          ∃ s, chain_reaches prog state0 s ∧ m ∈ mapped_results prog s) →
    (∀ s, s ∈ checked →
          (∀ c, c ∈ mapped_successors prog s → c ∈ checked ∨ c ∈ stack) ∧
          (∀ m, m ∈ mapped_results prog s → m ∈ mapped) ∧
          (flags_next prog s → is_last !! (s + 1) = Some true)) →
    length is_last = length is_last0 →
    (∀ i, is_last !! i = Some true →
          is_last0 !! i = Some true ∨
          ∃ s, chain_reaches prog state0 s ∧ flags_next prog s ∧ i = s + 1) →
    (∀ i, is_last0 !! i = Some true → is_last !! i = Some true) →
    (∀ m, m ∈ mapped' →
          ∃ s, chain_reaches prog state0 s ∧ m ∈ mapped_results prog s) ∧
    length is_last' = length is_last0 ∧
    (∀ i, is_last' !! i = Some true →
          is_last0 !! i = Some true ∨
          ∃ s, chain_reaches prog state0 s ∧ flags_next prog s ∧ i = s + 1) ∧
    (∀ i, is_last0 !! i = Some true → is_last' !! i = Some true) ∧
    ∃ checked' : list State,
      (∀ s, s ∈ stack ∨ s ∈ checked → s ∈ checked') ∧
      ∀ s, s ∈ checked' →
           (∀ c, c ∈ mapped_successors prog s → c ∈ checked') ∧
           (∀ m, m ∈ mapped_results prog s → m ∈ mapped') ∧
           (flags_next prog s → is_last' !! (s + 1) = Some true).
Proof.
  induction fuel as [|fuel IH];
    intros is_last mapped [|s rest] checked mapped' is_last'
           Hrun Hreach Hmapped Hchecked Hlen Hflags Hmono;
    [| discriminate | |].
  1,2: simpl in Hrun; injection Hrun as <- <-;
    (do 4 (split; [done|])); exists checked; (split; [by intros s [?%elem_of_nil|?]|]);
    intros s Hs; destruct (Hchecked s Hs) as (Hsucc & ? & ?);
    (split; [|done]); intros c Hc;
    by destruct (Hsucc c Hc) as [?|?%elem_of_nil].
  apply get_mapped_states_loop_step in Hrun
    as (is_last1 & pushed & Hrun & Hpushed & Hflag).
  assert (chain_reaches prog state0 s) as Hs.
  { apply Hreach. left. by left. }
  assert (∀ i, is_last !! i = Some true → is_last1 !! i = Some true) as Hgrow.
  { destruct Hflag as [(_ & Hlt & ->)|[_ ->]]; [|done].
    intros i Hi. destruct (decide (i = s + 1)) as [->|Hne].
    - by rewrite list_lookup_insert_eq.
    - by rewrite list_lookup_insert_ne. }
  destruct (IH is_last1 (mapped ++ mapped_results prog s) (pushed ++ rest)
              (s :: checked) mapped' is_last' Hrun)
    as (Hm' & Hlen' & Hflags' & Hmono' & checked' & Hsub & Hclosed).
  - intros c [[Hc|Hc]%elem_of_app|[->|Hc]%elem_of_cons]; [|auto|done|auto].
    + apply Hpushed in Hc as [Hc _]. by eapply rtc_r.
    + apply Hreach. left. by right.
  - intros m [Hm|Hm]%elem_of_app; [auto|]. by exists s.
  - intros s' [->|Hs']%elem_of_cons.
    + split; [|split].
      * intros c Hc. destruct (decide (c ∈ s :: checked)); [by left|].
        right. apply elem_of_app. left. by apply Hpushed.
      * intros m Hm. apply elem_of_app. by right.
      * intros Hnext. destruct Hflag as [(_ & Hlt & ->)|[? _]]; [|done].
        by rewrite list_lookup_insert_eq.
    + destruct (Hchecked s' Hs') as (Hsucc & Hres & Hset). split; [|split].
      * intros c Hc. destruct (Hsucc c Hc) as [?|[->|?]%elem_of_cons].
        -- left. by right.
        -- left. by left.
        -- right. apply elem_of_app. by right.
      * intros m Hm. apply elem_of_app. left. auto.
      * auto.
  - destruct Hflag as [(_ & Hlt & ->)|[_ ->]]; [|done].
    by rewrite length_insert.
  - intros i Hi. destruct Hflag as [(Hnext & Hlt & ->)|[_ ->]]; [|auto].
    destruct (decide (i = s + 1)) as [->|Hne].
    + right. by exists s.
    + rewrite list_lookup_insert_ne in Hi by done. auto.
  - auto.
  - do 4 (split; [done|]). exists checked'. split; [|done].
    intros s' [[->|Hs']%elem_of_cons|Hs'].
    + apply Hsub. right. by left.
    + apply Hsub. left. apply elem_of_app. by right.
    + apply Hsub. right. by right.
Qed.

Lemma get_mapped_states_spec prog fuel is_last state mapped is_last' :
  get_mapped_states prog fuel is_last state = Some (mapped, is_last') →
  (∀ m, m ∈ mapped ↔
        ∃ s, chain_reaches prog state s ∧ m ∈ mapped_results prog s) ∧
  length is_last' = length is_last ∧
  (∀ i, is_last' !! i = Some true ↔
        is_last !! i = Some true ∨
        ∃ s, chain_reaches prog state s ∧ flags_next prog s ∧ i = s + 1).
Proof.
  intros Hrun. unfold get_mapped_states in Hrun.
  destruct (get_mapped_states_loop_spec prog state is_last _ _ _ _ _ _ _ Hrun)
    as (Hm & Hlen & Hflags & Hmono & checked' & Hsub & Hclosed);
    [| |by intros s ?%elem_of_nil|done|auto|done|].
  { intros s [->%list_elem_of_singleton|?%elem_of_nil]; [|done]. apply rtc_refl. }
  { by intros m ?%elem_of_nil. }
  assert (∀ s, chain_reaches prog state s → s ∈ checked') as Hall.
  { intros s Hs. unfold chain_reaches in Hs.
    revert s Hs. apply rtc_ind_r.
    - apply Hsub. left. by left.
    - intros s c _ Hstep IH. by apply (Hclosed s IH). }
  split; [|split; [done|]].
  - intros m. split; [auto|]. intros (s & Hs & Hin).
    by apply (Hclosed s (Hall s Hs)).
  - intros i. split; [auto|]. intros [Hi|(s & Hs & Hnext & ->)]; [auto|].
    by apply (Hclosed s (Hall s Hs)).
Qed.

(** X13. The states that [get_mapped_states] returns are the ends of the
    chains that start in [state]: a state [m] is returned exactly when the
    visit of some state [s] of a chain appends it, that is when [s] is the
    last instruction of its list and neither a nop nor a capture and
    [m = s], or [s] is followed through its [out], [m] is that [out] and it
    is neither a nop nor a capture. Every state returned is therefore an
    instruction of the program that is neither a nop nor a capture. *)
Theorem get_mapped_states_chain_ends prog fuel is_last state mapped is_last' :
  get_mapped_states prog fuel is_last state = Some (mapped, is_last') →
  (∀ m, m ∈ mapped ↔
        ∃ s, chain_reaches prog state s ∧ m ∈ mapped_results prog s) ∧
  (∀ m, m ∈ mapped →
        ∃ inst, re2.inst prog m = Some inst ∧
                is_nop_or_capture (re2.opcode inst) = false).
Proof.
  intros Hrun.
  destruct (get_mapped_states_spec _ _ _ _ _ _ Hrun) as (Hmapped & _ & _).
  split; [done|]. intros m (s & _ & Hm)%Hmapped.
  unfold mapped_results in Hm.
  destruct (re2.inst prog s) as [inst|] eqn:Hinst; [|by apply elem_of_nil in Hm].
  destruct (re2.last inst && negb (is_nop_or_capture (re2.opcode inst)))
    eqn:Hlast.
  - apply list_elem_of_singleton in Hm as ->. exists inst. split; [done|].
    apply andb_true_iff in Hlast as [_ Hnop]. by apply negb_true_iff.
  - destruct (re2.inst prog (re2.out inst)) as [outInst|] eqn:HoutInst;
      [|by apply elem_of_nil in Hm].
    destruct (is_nop_or_capture (re2.opcode outInst)) eqn:Hnop;
      [by apply elem_of_nil in Hm|].
    apply list_elem_of_singleton in Hm as ->. by exists outInst.
Qed.

Lemma get_mapped_states_chain_ends_witness :
  (∀ m, m ∈ [5; 3] ↔
        ∃ s, chain_reaches ex_prog_group 2 s ∧
             m ∈ mapped_results ex_prog_group s) ∧
  (∀ m, m ∈ [5; 3] →
        ∃ inst, re2.inst ex_prog_group m = Some inst ∧
                is_nop_or_capture (re2.opcode inst) = false).
Proof.
  assert (get_mapped_states ex_prog_group 13 (replicate 6 false) 2
          = Some ([5; 3], [false; false; false; true; false; false]))
    as Hrun by (vm_compute; reflexivity).
  exact (get_mapped_states_chain_ends ex_prog_group 13 (replicate 6 false) 2
           [5; 3] [false; false; false; true; false; false] Hrun).
Defined.

(** X14. [get_mapped_states] keeps the length of [is_last] and only sets
    flags: a flag is set afterwards exactly when it was set before, or it is
    the flag of the instruction after a state [s] of a chain from [state],
    where the instruction at [s] is not the last of its list and the
    instruction after it is. *)
Theorem get_mapped_states_is_last prog fuel is_last state mapped is_last' :
  get_mapped_states prog fuel is_last state = Some (mapped, is_last') →
  length is_last' = length is_last ∧
  (∀ i, is_last' !! i = Some true ↔
        is_last !! i = Some true ∨
        ∃ s, chain_reaches prog state s ∧ flags_next prog s ∧ i = s + 1).
Proof.
  intros Hrun.
  by destruct (get_mapped_states_spec _ _ _ _ _ _ Hrun) as (_ & ? & ?).
Qed.

Lemma get_mapped_states_is_last_witness :
  length [false; false; false; true; false; false]
  = length (replicate 6 false) ∧
  (∀ i, [false; false; false; true; false; false] !! i = Some true ↔
        replicate 6 false !! i = Some true ∨
        ∃ s, chain_reaches ex_prog_group 2 s ∧ flags_next ex_prog_group s ∧
             i = s + 1).
Proof.
  assert (get_mapped_states ex_prog_group 13 (replicate 6 false) 2
          = Some ([5; 3], [false; false; false; true; false; false]))
    as Hrun by (vm_compute; reflexivity).
  exact (get_mapped_states_is_last ex_prog_group 13 (replicate 6 false) 2
           [5; 3] [false; false; false; true; false; false] Hrun).
Defined.

(** X15. The loop of [get_mapped_states] ends. On a program whose
    instructions refer to instructions of the program, with a flag in
    [is_last] for each instruction, the call from a state of the program
    returns a result after at most [2 * size + 1] iterations, and it reads
    no instruction and writes no flag out of range. *)
Theorem get_mapped_states_terminates prog fuel is_last state :
  closed_prog prog →
  length is_last = re2.size prog →
  state < re2.size prog →
  2 * re2.size prog + 1 ≤ fuel →
  is_Some (get_mapped_states prog fuel is_last state).
Proof.
  intros Hclosed Hlen Hstate Hfuel. unfold get_mapped_states.
  apply get_mapped_states_loop_total; [done|done|by repeat constructor| |].
  - intros i s _ Hs. by apply elem_of_nil in Hs.
  - unfold mapped_measure. simpl.
    pose proof (length_filter (λ s, s ∉ @nil State) (seq 0 (re2.size prog))) as Hle.
    rewrite length_seq in Hle. simpl in Hle. lia.
Qed.

Lemma get_mapped_states_terminates_witness :
  is_Some (get_mapped_states ex_prog_group 13 (replicate 6 false) 2).
Proof.
  assert (closed_prog ex_prog_group) as Hclosed.
  { unfold closed_prog. simpl.
    repeat (apply Forall_cons_2;
            [vm_compute; split; [lia|intros; (discriminate || lia)]|]).
    apply Forall_nil_2. }
  assert (length (replicate 6 false) = re2.size ex_prog_group)
    as Hlen by reflexivity.
  assert (2 < re2.size ex_prog_group) as Hstate by (vm_compute; lia).
  assert (2 * re2.size ex_prog_group + 1 ≤ 13) as Hfuel by (vm_compute; lia).
  exact (get_mapped_states_terminates ex_prog_group 13 (replicate 6 false) 2
           Hclosed Hlen Hstate Hfuel).
Defined.
(** ** The initial state of the automaton that [create_nfa] emits *)

Lemma make_final_initial A s A' :
  make_final A s = Some A' → initialstates A' = initialstates A.
Proof. unfold make_final. case_decide; [|done]. by intros [= <-]. Qed.

Lemma add_trans_initial A s a t A' :
  add_trans A s a t = Some A' → initialstates A' = initialstates A.
Proof. unfold add_trans. case_decide; [|done]. by intros [= <-]. Qed.

Lemma make_state_final_initial c s n n' :
  make_state_final c s n = Some n' → initialstates n' = initialstates n.
Proof.
  unfold make_state_final. intros H.
  apply bind_Some in H as (targets & _ & H).
  eapply (foldlM_invariant (λ n', initialstates n' = initialstates n));
    [exact H|done|].
  intros b x b' _ Hb Hstep.
  apply bind_Some in Hstep as (incoming & _ & Hstep).
  destruct incoming; [|by simplify_eq].
  apply make_final_initial in Hstep. congruence.
Qed.

Lemma explicit_transition_step_initial ue acc x acc' :
  explicit_transition_step ue acc x = Some acc' →
  initialstates acc'.2 = initialstates acc.2.
Proof.
  destruct acc as [p n], x as [[m m'] sym]. unfold explicit_transition_step.
  intros H. apply bind_Some in H as (edges & _ & H).
  apply bind_Some in H as (incoming & _ & H).
  destruct incoming; [|by simplify_eq].
  apply bind_Some in H as (h' & _ & H).
  apply bind_Some in H as (n1 & Hadd & H). simplify_eq. simpl.
  by apply add_trans_initial in Hadd.
Qed.

Lemma create_explicit_nfa_transitions_initial p cur inst symbols n ue eps p' n' :
  create_explicit_nfa_transitions p cur inst symbols n ue eps = Some (p', n') →
  initialstates n' = initialstates n.
Proof.
  unfold create_explicit_nfa_transitions. intros H.
  apply bind_Some in H as (sources & _ & H).
  apply bind_Some in H as (targets & _ & H).
  apply bind_Some in H as ([p1 n1] & Hfold & H).
  assert (initialstates n1 = initialstates n) as <-.
  { apply (foldlM_invariant (λ acc, initialstates acc.2 = initialstates n)
             _ _ _ _ Hfold); [done|].
    intros b x b' _ Hb Hstep.
    apply explicit_transition_step_initial in Hstep. congruence. }
  destruct ue; [|by simplify_eq].
  apply bind_Some in H as (last & _ & H). destruct last; [by simplify_eq|].
  apply bind_Some in H as (n2 & Hadd & H). simplify_eq.
  by apply add_trans_initial in Hadd.
Qed.

Lemma byte_range_case_initial prog ue eps cur inst p n copy symbols acc' :
  byte_range_case prog ue eps cur inst p n copy symbols = Some acc' →
  initialstates (cs_nfa acc') = initialstates n.
Proof.
  unfold byte_range_case. intros H.
  apply bind_Some in H as ([p1 n1] & Hcreate & H).
  apply bind_Some in H as (copy' & _ & H). simplify_eq. simpl.
  by apply create_explicit_nfa_transitions_initial in Hcreate.
Qed.

Lemma convert_step_initial K prog ue eps acc pc acc' :
  convert_step K prog ue eps acc pc = Some acc' →
  initialstates (cs_nfa acc') = initialstates (cs_nfa acc).
Proof.
  unfold convert_step. intros H.
  apply bind_Some in H as (inst & _ & H).
  apply bind_Some in H as (final & _ & H).
  apply bind_Some in H as (n1 & Hfinal & H).
  assert (initialstates n1 = initialstates (cs_nfa acc)) as <-.
  { destruct final; [|by simplify_eq].
    by apply make_state_final_initial in Hfinal. }
  destruct (re2.opcode inst); try by simplify_eq.
  - by apply byte_range_case_initial in H.
  - destruct ue; [|by simplify_eq].
    apply bind_Some in H as ([p2 n2] & Hcreate & H). simplify_eq. simpl.
    by apply create_explicit_nfa_transitions_initial in Hcreate.
  - by apply byte_range_case_initial in H.
  - destruct ue; [|by simplify_eq].
    apply bind_Some in H as ([p2 n2] & Hcreate & H). simplify_eq. simpl.
    by apply create_explicit_nfa_transitions_initial in Hcreate.
Qed.

Lemma mark_final_initial to p n p' n' :
  mark_final to p n = Some (p', n') → initialstates n' = initialstates n.
Proof.
  unfold mark_final. intros H.
  apply bind_Some in H as (n1 & Hfinal & H).
  apply bind_Some in H as (final & _ & H). simplify_eq.
  by apply make_state_final_initial in Hfinal.
Qed.

Lemma copy_transition_step_initial to acc x acc' :
  copy_transition_step to acc x = Some acc' →
  initialstates acc'.2 = initialstates acc.2.
Proof.
  destruct acc as [p n]. unfold copy_transition_step. intros H.
  apply bind_Some in H as (incoming & _ & H).
  apply bind_Some in H as (n1 & Hadd & H).
  apply bind_Some in H as (old & _ & H).
  apply bind_Some in H as (edges & _ & H). simplify_eq. simpl.
  destruct incoming; [|by simplify_eq]. by apply add_trans_initial in Hadd.
Qed.

Lemma copy_edges_step_initial prog acc x acc' :
  copy_edges_step prog acc x = Some acc' →
  initialstates acc'.2 = initialstates acc.2.
Proof.
  destruct acc as [p n], x as [from to], acc' as [p' n'].
  unfold copy_edges_step. intros H.
  apply bind_Some in H as (inst & _ & H).
  case_decide; [by apply mark_final_initial in H|].
  apply bind_Some in H as (final & _ & H).
  apply bind_Some in H as ([p1 n1] & Hmark & H).
  apply bind_Some in H as (transitions & _ & H). simpl.
  assert (initialstates n1 = initialstates n) as <-.
  { destruct final; [|by simplify_eq]. by apply mark_final_initial in Hmark. }
  apply (foldlM_invariant (λ acc, initialstates acc.2 = initialstates n1)
           _ _ _ _ H); [done|].
  intros b x b' _ Hb Hstep.
  apply copy_transition_step_initial in Hstep. congruence.
Qed.

(** The explicit automaton has one initial state: the first state that the
    start of the program is mapped to. *)
Lemma build_explicit_nfa_initial K prog fuel ue eps parser nfa :
  build_explicit_nfa K prog fuel ue eps = Some (parser, nfa) →
  ∃ start0, initialstates nfa = [start0].
Proof.
  unfold build_explicit_nfa. intros H.
  apply bind_Some in H as (cache & _ & H).
  apply bind_Some in H as (start_mapping & _ & H).
  apply bind_Some in H as (start0 & _ & H).
  apply bind_Some in H as (n0 & Hinit & H).
  apply bind_Some in H as (incoming & _ & H).
  apply bind_Some in H as (nop_or_cap & _ & H).
  apply bind_Some in H as (copy & _ & H).
  apply bind_Some in H as (acc & Hloop & H).
  exists start0.
  assert (initialstates n0 = [start0]) as Hn0.
  { unfold make_initial in Hinit. case_decide; [|done].
    by injection Hinit as <-. }
  assert (initialstates (cs_nfa acc) = [start0]) as Hacc.
  { apply (foldlM_invariant (λ acc, initialstates (cs_nfa acc) = [start0])
             _ _ _ _ Hloop); [done|].
    intros b x b' _ Hb Hstep.
    apply convert_step_initial in Hstep. congruence. }
  destruct ue; [by simplify_eq|].
  apply (foldlM_invariant (λ acc, initialstates acc.2 = [start0])
           _ _ _ _ H); [done|].
  intros b x b' _ Hb Hstep.
  apply copy_edges_step_initial in Hstep. congruence.
Qed.

Lemma renumber_if_unset_initial acc state acc' :
  renumber_if_unset acc state = Some acc' →
  initialstates acc'.2 = initialstates acc.2.
Proof.
  destruct acc as [rs n]. unfold renumber_if_unset. intros H.
  apply bind_Some in H as (x & _ & H).
  destruct (is_unset x); [|by simplify_eq]. simpl in H.
  apply bind_Some in H as (rs' & _ & H). by simplify_eq.
Qed.

(** The first three loops of [renumber_states] leave the initial states of
    the output as they are; the last one makes the number of the initial
    state of the input initial. *)
Lemma renumber_states_initial output_nfa program_size input_nfa q rs out :
  initialstates input_nfa = [q] →
  renumber_states_full output_nfa program_size input_nfa = Some (rs, out) →
  ∃ k, renumbered (rs, out) q k ∧
       initialstates out
       = if decide (k ∈ initialstates output_nfa) then initialstates output_nfa
         else initialstates output_nfa ++ [k].
Proof.
  intros Hq H. unfold renumber_states_full in H.
  apply bind_Some in H as (acc1 & H1 & H).
  apply bind_Some in H as (acc2 & H2 & H).
  apply bind_Some in H as (acc3 & H3 & H).
  apply bind_Some in H as (nfa4 & H4 & H). injection H as <- <-.
  assert (initialstates acc1.2 = initialstates output_nfa) as Hi1.
  { apply (foldlM_invariant
             (λ acc, initialstates acc.2 = initialstates output_nfa)
             _ _ _ _ H1); [done|].
    intros [rs n] x b' _ Hb Hstep. unfold renumber_used_step in Hstep.
    destruct (get_transitions_from_state input_nfa x); [by simplify_eq|].
    simpl in Hstep. apply bind_Some in Hstep as (rs' & _ & Hstep).
    by simplify_eq. }
  assert (initialstates acc2.2 = initialstates output_nfa) as Hi2.
  { apply (foldlM_invariant
             (λ acc, initialstates acc.2 = initialstates output_nfa)
             _ _ _ _ H2); [done|].
    intros b x b' _ Hb Hstep. unfold renumber_final_step in Hstep.
    apply bind_Some in Hstep as ([rs n] & Hif & Hstep).
    apply renumber_if_unset_initial in Hif.
    apply bind_Some in Hstep as (y & _ & Hstep).
    apply bind_Some in Hstep as (s & _ & Hstep).
    apply bind_Some in Hstep as (n' & Hfinal & Hstep). simplify_eq.
    apply make_final_initial in Hfinal. simpl in *. congruence. }
  assert (initialstates acc3.2 = initialstates output_nfa) as Hi3.
  { apply (foldlM_invariant
             (λ acc, initialstates acc.2 = initialstates output_nfa)
             _ _ _ _ H3); [done|].
    intros b x b' _ Hb Hstep. unfold renumber_trans_step in Hstep.
    apply bind_Some in Hstep as ([rs n] & Hif & Hstep).
    apply renumber_if_unset_initial in Hif.
    apply bind_Some in Hstep as (y & _ & Hstep).
    apply bind_Some in Hstep as (z & _ & Hstep).
    apply bind_Some in Hstep as (s & _ & Hstep).
    apply bind_Some in Hstep as (t & _ & Hstep).
    apply bind_Some in Hstep as (n' & Hadd & Hstep). simplify_eq.
    apply add_trans_initial in Hadd. simpl in *. congruence. }
  rewrite Hq in H4. simpl in H4.
  apply bind_Some in H4 as (nfa & Hstep & H4). injection H4 as <-.
  unfold renumber_initial_step in Hstep.
  apply bind_Some in Hstep as (x & Hx & Hstep).
  apply bind_Some in Hstep as (k & Hk & Hstep).
  exists k. unfold state_of in Hk. case_decide as Hrange; [|done].
  injection Hk as <-.
  unfold make_initial in Hstep. case_decide; [|done].
  injection Hstep as <-. simpl. rewrite Hi3. split; [|done].
  split; simpl; [|lia]. rewrite Hx. f_equal. lia.
Qed.

(** X16. In both modes [create_nfa] adds exactly one initial state, and it
    is a new state: passed an automaton whose initial states are states of
    it (and small enough for the numbers of the new states to stay away from
    the entry [-1] of [renumber_states]), the initial states of the result
    are those of the automaton passed in followed by one state that the
    automaton passed in does not have. *)
Theorem create_nfa_one_initial_state K nfa prog fuel use_epsilon epsilon_value out :
  Forall (λ q, q < num_of_states nfa) (initialstates nfa) →
  (Z.of_nat (num_of_states nfa + re2.size prog) < 2 ^ 32 - 1)%Z →
  create_nfa K (Some nfa) prog fuel use_epsilon epsilon_value = Some out →
  ∃ q, num_of_states nfa ≤ q < num_of_states out ∧
       initialstates out = initialstates nfa ++ [q].
Proof.
  unfold create_nfa, convert_pro_to_nfa. simpl. intros Hwf Hbound H.
  apply bind_Some in H as ([parser explicit_nfa] & Hbuild & H).
  apply build_explicit_nfa_initial in Hbuild as [start0 Hstart0].
  unfold renumber_states in H. apply fmap_Some in H as ([rs out'] & H & ->).
  simpl.
  destruct (renumber_states_initial _ _ _ _ _ _ Hstart0 H) as (q & Hq & Hinit).
  destruct (renumber_states_full_spec nfa explicit_nfa (re2.size prog)
              Hbound rs out' H) as (_ & Hrange & _).
  destruct (Hrange _ _ Hq) as [Hnew _]. exists q.
  split; [split; [done|apply Hq]|].
  rewrite Hinit. rewrite decide_False; [done|].
  intros Hin. rewrite Forall_forall in Hwf. apply Hwf in Hin. lia.
Qed.

Lemma create_nfa_one_initial_state_witness :
  match create_nfa ex_empty_op (Some (mkNfa 1 [0] [] [])) ex_prog_group 13
          false 500 with
  | Some out =>
      ∃ q, num_of_states (mkNfa 1 [0] [] []) ≤ q < num_of_states out ∧
           initialstates out = initialstates (mkNfa 1 [0] [] []) ++ [q]
  | None => False
  end.
Proof.
  assert (Forall (λ q, q < num_of_states (mkNfa 1 [0] [] []))
            (initialstates (mkNfa 1 [0] [] []))) as Hwf
    by (repeat constructor).
  assert (Z.of_nat (1 + re2.size ex_prog_group) < 2 ^ 32 - 1)%Z as Hbound
    by (vm_compute; reflexivity).
  destruct (create_nfa ex_empty_op (Some (mkNfa 1 [0] [] [])) ex_prog_group 13
              false 500) as [out|] eqn:Hrun.
  - exact (create_nfa_one_initial_state ex_empty_op (mkNfa 1 [0] [] [])
             ex_prog_group 13 false 500 out Hwf Hbound Hrun).
  - vm_compute in Hrun. discriminate Hrun.
Defined.

(** ** The mode without epsilon *)

Lemma foldlM_ext {A B : Type} (f g : B → A → option B) l b :
  (∀ b x, f b x = g b x) → foldlM f b l = foldlM g b l.
Proof.
  intros Hfg. revert b. induction l as [|x l IH]; intros b; [done|].
  simpl. rewrite Hfg. destruct (g b x); [apply IH|done].
Qed.

(** X17. Without epsilon transitions the value given for epsilon is not
    used: [create_nfa] returns the same result, an error included, whatever
    [epsilon_value] is. *)
Theorem create_nfa_without_epsilon_ignores_value K nfa prog fuel e1 e2 :
  create_nfa K nfa prog fuel false e1 = create_nfa K nfa prog fuel false e2.
Proof.
  assert (∀ acc pc, convert_step K prog false e1 acc pc
                    = convert_step K prog false e2 acc pc) as Hstep
    by reflexivity.
  assert (build_explicit_nfa K prog fuel false e1
          = build_explicit_nfa K prog fuel false e2) as Hbuild.
  { unfold build_explicit_nfa. cbv zeta.
    repeat match goal with
           | |- mbind _ ?x = mbind _ ?x =>
               destruct x as [?|]; [cbn [mbind option_bind]|reflexivity]
           end.
    by rewrite (foldlM_ext _ _ _ _ Hstep). }
  unfold create_nfa, convert_pro_to_nfa. by rewrite Hbuild.
Qed.
(** ** The conversion without epsilon *)


(** *** What the cache maps a state to *)



(** *** The loop over the states *)













(** *** The copy pass *)






(** *** The automaton stays well formed *)










(** *** The whole conversion without epsilon *)



(** ** Empty-width assertions *)


(** ** Nothing else is emitted without epsilon *)





(** *** The copy pass makes nothing else *)






